(** * Chunked data streaming: writer (backend/data_adapter.go) and
      reassembler (experimental/datasourcetest/client.go)

    A shallow embedding of [chunkedDataWriter], [chunkingState] and of the
    receive loop of [TestPluginClient.QueryChunkedData], with the Go heap
    of [*data.Frame] objects made explicit, followed by the properties of
    the streaming protocol that the specification states about them. *)

From stdpp Require Import base option list gmap strings.
From stdpp Require pretty.
From Stdlib Require Import ZArith Lia.
Local Open Scope Z_scope.

(** ** Frames (package [data])

    Package [data] is outside the modelled sources; its frames are taken
    as the specification describes a Table. *)

Module data.

(** A cell of a column. *)
Inductive value :=
| VInt (z : Z)
| VStr (s : string)
| VBool (b : bool).

#[global] Instance value_eq_dec : EqDecision value.
Proof. solve_decision. Defined.

(** Modelled from the spec: [data.Field] is missing; a Column is a name,
    an element type and its values. *)
Record Field := mkField {
  FieldName : string;
  FieldType : string;
  vector : list value
}.

#[global] Instance Field_eq_dec : EqDecision Field.
Proof. solve_decision. Defined.

(** Modelled from the spec: [data.Frame] is missing; a Table is an ordered
    sequence of Columns, here with the frame name and the [RefID] that
    [WriteFrame] assigns. *)
Record Frame := mkFrame {
  Name : string;
  RefID : string;
  Fields : list Field
}.

#[global] Instance Frame_eq_dec : EqDecision Frame.
Proof. solve_decision. Defined.

(** [data.NewFrame(name, fields...)]. *)
Definition NewFrame (name : string) (fields : list Field) : Frame :=
  mkFrame name EmptyString fields.

(** Modelled from the spec: [Field.Len] is missing; the number of values. *)
Definition Len (fd : Field) : nat := length (vector fd).

(** Modelled from the spec: [Frame.Rows] is missing; the row count is
    derived from column length, and is zero for a frame without columns. *)
Definition Rows (f : Frame) : nat :=
  match Fields f with
  | [] => 0%nat
  | fd :: _ => Len fd
  end.

(** Modelled from the spec: [Field.Append] is missing; one more value at
    the end of the column. *)
Definition Append (fd : Field) (v : value) : Field :=
  mkField (FieldName fd) (FieldType fd) (vector fd ++ [v]).

(** Modelled from the spec: [Field.AppendAll] is missing; it appends the
    values of the column [src] to the column [fd]. *)
Definition AppendAll (fd src : Field) : Field :=
  mkField (FieldName fd) (FieldType fd) (vector fd ++ vector src).

(** Modelled from the spec: [Frame.AppendRow] is missing; value [i] goes to
    column [i].  Indexing a column that does not exist is a run-time panic
    ([None]). *)
Fixpoint appendVals (fds : list Field) (vals : list value)
  : option (list Field) :=
  match vals with
  | [] => Some fds
  | v :: vals' =>
      match fds with
      | [] => None
      | fd :: fds' => cons (Append fd v) <$> appendVals fds' vals'
      end
  end.

Definition AppendRow (f : Frame) (vals : list value) : option Frame :=
  mkFrame (Name f) (RefID f) <$> appendVals (Fields f) vals.

(** Modelled from the spec: [Frame.EmptyCopy] is missing; the empty copy
    has the same columns and types but zero rows. *)
Definition emptyField (fd : Field) : Field :=
  mkField (FieldName fd) (FieldType fd) [].

Definition EmptyCopy (f : Frame) : Frame :=
  mkFrame (Name f) (RefID f) (emptyField <$> Fields f).

(** [f.RefID = refID]. *)
Definition setRefID (refID : string) (f : Frame) : Frame :=
  mkFrame (Name f) refID (Fields f).

End data.

Export data.

(** ** Errors, outcomes and the heap *)

(** The [error] values that the modelled functions create or pass on. *)
Inductive error :=
| ErrNoFrame                           (* "no frame being processed, cannot add row" *)
| ErrFieldCount (got want : nat)       (* "field count mismatch: got %d, want %d" *)
| ErrMarshal (msg : string)            (* from [Frame.MarshalArrow] *)
| ErrUnmarshal (msg : string)          (* from [data.UnmarshalArrowFrame] *)
| ErrTransport (msg : string)          (* from [stream.Send] / [stream.Recv] *)
| ErrUser (msg : string)               (* handed to [WriteError] by the producer *)
| EOF.                                 (* [io.EOF] *)

#[global] Instance error_eq_dec : EqDecision error.
Proof. solve_decision. Defined.

(** [err.Error()] *)
Definition error_string (e : error) : string :=
  match e with
  | ErrNoFrame => "no frame being processed, cannot add row"
  | ErrFieldCount got want =>
      "field count mismatch: got " +:+ pretty.pretty got
      +:+ ", want " +:+ pretty.pretty want
  | ErrMarshal m | ErrUnmarshal m | ErrTransport m | ErrUser m => m
  | EOF => "EOF"
  end.

(** A Go call either returns or panics (nil dereference, index out of
    range). *)
Inductive outcome (A : Type) :=
| Ret (a : A)
| Panic.
Arguments Ret {A} a.
Arguments Panic {A}.

#[global] Instance outcome_ret : MRet outcome := λ A a, Ret a.
#[global] Instance outcome_bind : MBind outcome := λ A B k m,
  match m with
  | Ret a => k a
  | Panic => Panic
  end.

(** A [*data.Frame] is a location of the heap, or nil. *)
Abbreviation loc := nat.
Abbreviation Heap := (list Frame).

Definition alloc (h : Heap) (f : Frame) : Heap * loc := (h ++ [f], length h).

(** Dereferencing: a location that holds no frame stands for nil. *)
Definition deref (h : Heap) (p : loc) : outcome Frame :=
  match h !! p with
  | Some f => Ret f
  | None => Panic
  end.

(** 64-bit [int] arithmetic of [w.count]. *)
Definition wrap64 (z : Z) : Z := (z + 2 ^ 63) mod 2 ^ 64 - 2 ^ 63.

(** The conversion [int32(x)]. *)
Definition int32 (z : Z) : Z := (z + 2 ^ 31) mod 2 ^ 32 - 2 ^ 31.

(** [pluginv2.ChunkedDataResponse], the batch on the wire. *)
Module pluginv2.
Record ChunkedDataResponse {bytes : Type} := mkResponse {
  RefId : string;
  Frames : list bytes;
  Status : Z;
  Error : string;
  ErrorSource : string
}.
Arguments ChunkedDataResponse bytes : clear implicits.
Arguments mkResponse {bytes} _ _ _ _ _.
End pluginv2.
Abbreviation ChunkedDataResponse := pluginv2.ChunkedDataResponse.

(** ** The writer (backend/data_adapter.go) *)

Module backend.

(** [chunkingState]: the chunking state of data frames for one refID. *)
Record chunkingState := mkState {
  frames : list loc;
  curFrame : option loc;
  Error : option error;
  Status : Z;
  ErrorSource : string
}.

#[global] Instance chunkingState_eq_dec : EqDecision chunkingState.
Proof. solve_decision. Defined.

(** [&chunkingState{}] *)
Definition zeroState : chunkingState := mkState [] None None 0 EmptyString.

(** The server side of the gRPC stream: what was sent so far, and how many
    more [Send] calls the transport accepts ([None]: it never fails). *)
Record ServerStream {bytes : Type} := mkStream {
  sent : list (ChunkedDataResponse bytes);
  credit : option nat
}.
Arguments ServerStream bytes : clear implicits.
Arguments mkStream {bytes} _ _.

(** [stream.Send(resp)] *)
Definition Send {bytes} (s : ServerStream bytes) (resp : ChunkedDataResponse bytes)
  : ServerStream bytes * option error :=
  match credit s with
  | Some O => (s, Some (ErrTransport "send"))
  | Some (S n) => (mkStream (sent s ++ [resp]) (Some n), None)
  | None => (mkStream (sent s ++ [resp]) None, None)
  end.

(** [chunkedDataWriter] *)
Record chunkedDataWriter {bytes : Type} := mkWriter {
  stream : ServerStream bytes;
  states : gmap string chunkingState;
  count : Z
}.
Arguments chunkedDataWriter bytes : clear implicits.
Arguments mkWriter {bytes} _ _ _.

(** [markerFrame], the package-level delimiter frame, [data.NewFrame] of
    the empty name: the first object of the writer's heap. *)
Definition markerFrame : loc := 0%nat.
Definition initHeap : Heap := [NewFrame EmptyString []].

(** [(st *chunkingState) addFrame(f)] *)
Definition addFrame (st : chunkingState) (f : loc) : chunkingState :=
  mkState (frames st ++ [markerFrame; f]) (Some f)
          (Error st) (Status st) (ErrorSource st).

(** [(st *chunkingState) addRow(fields...)]; the receiver may be nil, and
    reading [st.curFrame] of a nil receiver panics. *)
Definition addRow (h : Heap) (st : option chunkingState) (fields : list value)
  : outcome (option error * Heap) :=
  match st with
  | None => Panic
  | Some st =>
      match curFrame st with
      | None => Ret (Some ErrNoFrame, h)
      | Some p =>
          cur ← deref h p;
          if decide (length fields ≠ length (Fields cur)) then
            Ret (Some (ErrFieldCount (length fields) (length (Fields cur))), h)
          else
            match AppendRow cur fields with
            | None => Panic
            | Some cur' => Ret (None, <[p := cur']> h)
            end
      end
  end.

(** [(st *chunkingState) reset()] *)
Definition reset (h : Heap) (st : chunkingState) : outcome (Heap * chunkingState) :=
  match curFrame st with
  | Some p =>
      cur ← deref h p;
      let '(h', q) := alloc h (EmptyCopy cur) in
      Ret (h', mkState [q] (Some q) None 0 EmptyString)
  | None => Ret (h, mkState [] None None 0 EmptyString)
  end.

(** [const maxBatchSize = 1000] *)
Definition maxBatchSize : Z := 1000.

Section Writer.
Context {bytes : Type}.

(** [frame.MarshalArrow()], the columnar encoding of one frame. *)
Variable MarshalArrow : Frame → bytes + error.

(** The order in which [range w.states] visits the map, in the first and
    in the second loop of [flush]; Go leaves it unspecified. *)
Variable rangeSend rangeReset :
  gmap string chunkingState → list (string * chunkingState).

(** [newChunkedDataWriter(stream)] *)
Definition newChunkedDataWriter (strm : ServerStream bytes) : chunkedDataWriter bytes :=
  mkWriter strm ∅ 0.

(** The inner loop of [flush]: encode every frame of one state. *)
Fixpoint marshalFrames (h : Heap) (fs : list loc) (acc : list bytes)
  : outcome (list bytes + error) :=
  match fs with
  | [] => Ret (inl acc)
  | p :: fs' =>
      frame ← deref h p;
      match MarshalArrow frame with
      | inr err => Ret (inr err)
      | inl encoded => marshalFrames h fs' (acc ++ [encoded])
      end
  end.

(** The response that the first loop of [flush] sends for one entry of
    the map. *)
Definition batchOf (h : Heap) (kv : string * chunkingState)
    (resp : ChunkedDataResponse bytes) : Prop :=
  pluginv2.RefId resp = kv.1 ∧
  marshalFrames h (frames kv.2) [] = Ret (inl (pluginv2.Frames resp)) ∧
  pluginv2.Status resp = int32 (Status kv.2) ∧
  pluginv2.Error resp = from_option error_string EmptyString (Error kv.2) ∧
  pluginv2.ErrorSource resp = ErrorSource kv.2.

(** The first loop of [flush]: one response per state, sent at once. *)
Fixpoint sendLoop (h : Heap) (kvs : list (string * chunkingState))
    (strm : ServerStream bytes) : outcome (ServerStream bytes * option error) :=
  match kvs with
  | [] => Ret (strm, None)
  | (refID, state) :: kvs' =>
      let errStr := match Error state with
                    | Some e => error_string e
                    | None => EmptyString
                    end in
      r ← marshalFrames h (frames state) [];
      match r with
      | inr err => Ret (strm, Some err)
      | inl encoded =>
          let resp := pluginv2.mkResponse refID encoded (int32 (Status state)) errStr
                                 (ErrorSource state) in
          match Send strm resp with
          | (strm', Some err) => Ret (strm', Some err)
          | (strm', None) => sendLoop h kvs' strm'
          end
      end
  end.

(** The second loop of [flush]: reset every state in place. *)
Fixpoint resetLoop (h : Heap) (kvs : list (string * chunkingState))
    (sts : gmap string chunkingState)
  : outcome (Heap * gmap string chunkingState) :=
  match kvs with
  | [] => Ret (h, sts)
  | (refID, state) :: kvs' =>
      '(h', state') ← reset h state;
      resetLoop h' kvs' (<[refID := state']> sts)
  end.

(** [(w *chunkedDataWriter) flush()] *)
Definition flush (h : Heap) (w : chunkedDataWriter bytes)
  : outcome (option error * Heap * chunkedDataWriter bytes) :=
  if decide (count w = 0) then Ret (None, h, w)
  else
    '(strm, err) ← sendLoop h (rangeSend (states w)) (stream w);
    match err with
    | Some e => Ret (Some e, h, mkWriter strm (states w) (count w))
    | None =>
        '(h', sts) ← resetLoop h (rangeReset (states w)) (states w);
        Ret (None, h', mkWriter strm sts 0)
    end.

(** [(w *chunkedDataWriter) maybeFlush()] *)
Definition maybeFlush (h : Heap) (w : chunkedDataWriter bytes)
  : outcome (option error * Heap * chunkedDataWriter bytes) :=
  if decide (count w < maxBatchSize) then Ret (None, h, w)
  else flush h w.

(** [(w *chunkedDataWriter) WriteFrame(refID, f)]; [f] may be nil. *)
Definition WriteFrame (refID : string) (f : option loc)
    (h : Heap) (w : chunkedDataWriter bytes)
  : outcome (option error * Heap * chunkedDataWriter bytes) :=
  let state := default zeroState (states w !! refID) in
  p ← (match f with Some p => Ret p | None => Panic end);
  fr ← deref h p;
  let h := <[p := setRefID refID fr]> h in
  let state := addFrame state p in
  let w := mkWriter (stream w) (<[refID := state]> (states w))
                    (wrap64 (count w + Z.of_nat (Rows fr))) in
  maybeFlush h w.

(** [(w *chunkedDataWriter) WriteFrameRow(refID, fields...)] *)
Definition WriteFrameRow (refID : string) (fields : list value)
    (h : Heap) (w : chunkedDataWriter bytes)
  : outcome (option error * Heap * chunkedDataWriter bytes) :=
  let state := states w !! refID in
  '(err, h') ← addRow h state fields;
  match err with
  | Some e => Ret (Some e, h', w)
  | None =>
      let w := mkWriter (stream w) (states w) (wrap64 (count w + 1)) in
      maybeFlush h' w
  end.

(** [(w *chunkedDataWriter) WriteError(refID, err)]; assigning
    [state.Error] through a nil [state] panics. *)
Definition WriteError (refID : string) (err : option error)
    (h : Heap) (w : chunkedDataWriter bytes)
  : outcome (option error * Heap * chunkedDataWriter bytes) :=
  match states w !! refID with
  | None => Panic
  | Some state =>
      let state := mkState (frames state) (curFrame state) err
                           (Status state) (ErrorSource state) in
      let w := mkWriter (stream w) (<[refID := state]> (states w))
                        (wrap64 (count w + 1)) in
      flush h w
  end.

(** [(w *chunkedDataWriter) Close()] *)
Definition Close (h : Heap) (w : chunkedDataWriter bytes)
  : outcome (option error * Heap * chunkedDataWriter bytes) :=
  flush h w.

(** The heaps and writers that a producer can bring about: it starts with a
    new writer, builds frames, and calls the methods of the writer, going
    on after a call that returned an error. *)
Inductive reachable : Heap → chunkedDataWriter bytes → Prop :=
| reach_new (strm : ServerStream bytes) :
    reachable initHeap (newChunkedDataWriter strm)
| reach_alloc h w (fr : Frame) :
    reachable h w → reachable (h ++ [fr]) w
| reach_WriteFrame h w refID f e h' w' :
    reachable h w → WriteFrame refID f h w = Ret (e, h', w') → reachable h' w'
| reach_WriteFrameRow h w refID fields e h' w' :
    reachable h w → WriteFrameRow refID fields h w = Ret (e, h', w') →
    reachable h' w'
| reach_WriteError h w refID err e h' w' :
    reachable h w → WriteError refID err h w = Ret (e, h', w') → reachable h' w'
| reach_Close h w e h' w' :
    reachable h w → Close h w = Ret (e, h', w') → reachable h' w'.

End Writer.

(** A state whose current frame is set and is the last of its frames, all
    of them allocated. *)
Definition stateOpen (h : Heap) (st : chunkingState) : Prop :=
  ∃ p, curFrame st = Some p ∧ last (frames st) = Some p ∧
       Forall (λ q, (q < length h)%nat) (frames st).

Definition statesOpen (h : Heap) (sts : gmap string chunkingState) : Prop :=
  ∀ refID st, sts !! refID = Some st → stateOpen h st.

End backend.

(** ** The reassembler (experimental/datasourcetest/client.go) *)

Module datasourcetest.

(** [type streamState struct] of [QueryChunkedData] *)
Record streamState := mkStreamState {
  frames : list loc;
  curFrame : option loc
}.

#[global] Instance streamState_eq_dec : EqDecision streamState.
Proof. solve_decision. Defined.

(** The zero value that a Go map lookup gives for an absent key. *)
Definition zeroStream : streamState := mkStreamState [] None.

(** [backend.DataResponse{Frames: state.frames}]; the client sets no other
    field of it. *)
Record DataResponse := mkDataResponse {
  Frames : list loc
}.

(** [backend.QueryDataResponse{Responses: resp}] *)
Record QueryDataResponse := mkQueryDataResponse {
  Responses : gmap string DataResponse
}.

(** The client side of the gRPC stream: the error of the opening call if
    there is one, the messages that [Recv] delivers, and the error that
    [Recv] returns after them ([EOF] at a regular end). *)
Record ClientStream {bytes : Type} := mkClientStream {
  openErr : option error;
  messages : list (ChunkedDataResponse bytes);
  final : error
}.
Arguments ClientStream bytes : clear implicits.
Arguments mkClientStream {bytes} _ _ _.

(** [for i, field := range f.Fields { st.curFrame.Fields[i].AppendAll(field) }]:
    column [i] of the incoming frame goes to column [i] of the current one;
    a column index outside the current frame is a run-time panic ([None]). *)
Fixpoint mergeFields (cur : list Field) (incoming : list Field)
  : option (list Field) :=
  match incoming with
  | [] => Some cur
  | field :: incoming' =>
      match cur with
      | [] => None
      | c :: cur' => cons (AppendAll c field) <$> mergeFields cur' incoming'
      end
  end.

(** The location [p] holds a frame with at least one row. *)
Definition hasRows (h : Heap) (p : loc) : Prop :=
  ∃ f, h !! p = Some f ∧ Rows f ≠ 0%nat.

(** Every frame that the state refers to has at least one row. *)
Definition stateHasRows (h : Heap) (st : streamState) : Prop :=
  Forall (hasRows h) (frames st) ∧ ∀ c, curFrame st = Some c → hasRows h c.

Section Client.
Context {bytes : Type}.

(** [data.UnmarshalArrowFrame(frame)] *)
Variable UnmarshalArrowFrame : bytes → Frame + error.

(** The body of [for _, frame := range sr.Frames]. *)
Definition frameStep (h : Heap) (st : streamState) (frame : bytes)
  : outcome (Heap * streamState + error) :=
  match UnmarshalArrowFrame frame with
  | inr err => Ret (inr err)
  | inl fv =>
      let '(h, f) := alloc h fv in
      if decide (Rows fv = 0%nat) then
        Ret (inl (h, mkStreamState (frames st) None))
      else
        match curFrame st with
        | Some c =>
            cur ← deref h c;
            match mergeFields (Fields cur) (Fields fv) with
            | None => Panic
            | Some fds =>
                Ret (inl (<[c := mkFrame (Name cur) (RefID cur) fds]> h, st))
            end
        | None =>
            Ret (inl (h, mkStreamState (frames st ++ [f]) (Some f)))
        end
  end.

Fixpoint framesLoop (h : Heap) (st : streamState) (frs : list bytes)
  : outcome (Heap * streamState + error) :=
  match frs with
  | [] => Ret (inl (h, st))
  | frame :: frs' =>
      r ← frameStep h st frame;
      match r with
      | inr err => Ret (inr err)
      | inl (h', st') => framesLoop h' st' frs'
      end
  end.

(** The [for { sr, err := stream.Recv() ... }] loop.  The result is the
    Go pair of a response pointer (nil: [None]) and an error, and the heap. *)
Fixpoint recvLoop (msgs : list (ChunkedDataResponse bytes)) (fin : error)
    (h : Heap) (stateByRefID : gmap string streamState)
  : outcome (option QueryDataResponse * option error * Heap) :=
  match msgs with
  | [] =>
      if decide (fin = EOF) then
        let resp := (λ state, mkDataResponse (frames state)) <$> stateByRefID in
        Ret (Some (mkQueryDataResponse resp), None, h)
      else Ret (None, Some fin, h)
  | sr :: msgs' =>
      let st := default zeroStream (stateByRefID !! pluginv2.RefId sr) in
      r ← framesLoop h st (pluginv2.Frames sr);
      match r with
      | inr err => Ret (None, Some err, h)
      | inl (h', st') =>
          recvLoop msgs' fin h' (<[pluginv2.RefId sr := st']> stateByRefID)
      end
  end.

(** What the loop has accumulated when [Recv] has delivered the messages
    [msgs]: the heap and [stateByRefID], or the error or panic that made
    the loop stop before. *)
Fixpoint receiveAll (msgs : list (ChunkedDataResponse bytes))
    (h : Heap) (stateByRefID : gmap string streamState)
  : outcome (Heap * gmap string streamState + error) :=
  match msgs with
  | [] => Ret (inl (h, stateByRefID))
  | sr :: msgs' =>
      let st := default zeroStream (stateByRefID !! pluginv2.RefId sr) in
      r ← framesLoop h st (pluginv2.Frames sr);
      match r with
      | inr err => Ret (inr err)
      | inl (h', st') =>
          receiveAll msgs' h' (<[pluginv2.RefId sr := st']> stateByRefID)
      end
  end.

(** [(p *TestPluginClient) QueryChunkedData(ctx, r)] *)
Definition QueryChunkedData (strm : ClientStream bytes) (h : Heap)
  : outcome (option QueryDataResponse * option error * Heap) :=
  match openErr strm with
  | Some err => Ret (None, Some err, h)
  | None => recvLoop (messages strm) (final strm) h ∅
  end.

End Client.

End datasourcetest.

(** ** Concrete collaborators

    A codec that transmits the frame itself and refuses a frame whose
    columns differ in length, and a map iteration order; they are used to
    run the model on concrete inputs. *)

Module Examples.

Definition sameLength (f : Frame) : bool :=
  match Fields f with
  | [] => true
  | fd :: fds => forallb (λ g, Nat.eqb (Len g) (Len fd)) fds
  end.

Definition MarshalArrow (f : Frame) : Frame + error :=
  if sameLength f then inl f else inr (ErrMarshal "columns differ in length").

Definition UnmarshalArrowFrame (b : Frame) : Frame + error := inl b.

(** Two iteration orders of the states. *)
Definition range (m : gmap string backend.chunkingState)
  : list (string * backend.chunkingState) := map_to_list m.

Definition rangeRev (m : gmap string backend.chunkingState)
  : list (string * backend.chunkingState) := reverse (map_to_list m).

Definition col (name : string) (vals : list value) : Field :=
  mkField name "int64" vals.

Definition ints (n : nat) : list value := repeat (VInt 0) n.

(** Sequencing of producer calls, stopping at the first error. *)
Definition andThen
    (s : outcome (option error * Heap * backend.chunkedDataWriter Frame))
    (op : Heap → backend.chunkedDataWriter Frame →
          outcome (option error * Heap * backend.chunkedDataWriter Frame)) :=
  '(e, h, w) ← s;
  match e with
  | Some _ => Ret (e, h, w)
  | None => op h w
  end.

Definition start
  : outcome (option error * Heap * backend.chunkedDataWriter Frame) :=
  Ret (None, backend.initHeap,
       backend.newChunkedDataWriter (backend.mkStream [] None)).

(** What the client makes of everything a writer has sent, the stream
    ending regularly: the frames returned for [refID]. *)
Definition received (refID : string)
    (s : outcome (option error * Heap * backend.chunkedDataWriter Frame))
  : outcome (option (list (option Frame)) * option error) :=
  '(_, _, w) ← s;
  '(resp, err, h) ← datasourcetest.QueryChunkedData UnmarshalArrowFrame
      (datasourcetest.mkClientStream None (backend.sent (backend.stream w)) EOF) [];
  Ret (r ← resp;
       d ← datasourcetest.Responses r !! refID;
       Some ((λ p, h !! p) <$> datasourcetest.Frames d),
       err).

(** [n] times the producer call [op]. *)
Fixpoint times (n : nat)
    (op : Heap → backend.chunkedDataWriter Frame →
          outcome (option error * Heap * backend.chunkedDataWriter Frame))
    (s : outcome (option error * Heap * backend.chunkedDataWriter Frame)) :=
  match n with
  | O => s
  | S n' => times n' op (andThen s op)
  end.

Section Producer.

(** The iteration order of this run. *)
Variable rng : gmap string backend.chunkingState
               → list (string * backend.chunkingState).

(** A producer call [w.WriteFrame(refID, frame)] on a newly built frame. *)
Definition WriteNewFrame (refID : string) (fr : Frame)
    (h : Heap) (w : backend.chunkedDataWriter Frame) :=
  let '(h', p) := alloc h fr in
  backend.WriteFrame MarshalArrow rng rng refID (Some p) h' w.

Definition WriteFrameRow := backend.WriteFrameRow MarshalArrow rng rng.
Definition WriteError := backend.WriteError MarshalArrow rng rng.
Definition Close := backend.Close MarshalArrow rng rng.
Definition flush := backend.flush MarshalArrow rng rng.

(** Two refIDs on one stream: a table of [A] is opened and gets three
    rows, two tables of a thousand rows each are written for [B], then [A]
    gets two more rows and the writer is closed. *)
Definition interleaved
  : outcome (option error * Heap * backend.chunkedDataWriter Frame) :=
  let s := andThen start (WriteNewFrame "A" (NewFrame "a" [col "v" []])) in
  let s := andThen s (WriteFrameRow "A" [VInt 1]) in
  let s := andThen s (WriteFrameRow "A" [VInt 2]) in
  let s := andThen s (WriteFrameRow "A" [VInt 3]) in
  let s := andThen s (WriteNewFrame "B" (NewFrame "b1" [col "v" (ints 1000)])) in
  let s := andThen s (WriteNewFrame "B" (NewFrame "b2" [col "v" (ints 1000)])) in
  let s := andThen s (WriteFrameRow "A" [VInt 4]) in
  let s := andThen s (WriteFrameRow "A" [VInt 5]) in
  andThen s Close.

(** One table of [A] with 1500 rows, then the writer is closed. *)
Definition longTable
  : outcome (option error * Heap * backend.chunkedDataWriter Frame) :=
  let s := andThen start (WriteNewFrame "A" (NewFrame "a" [col "v" []])) in
  let s := times 1500 (WriteFrameRow "A" [VInt 0]) s in
  andThen s Close.

(** A table of [A] without rows is opened, and nothing else is written. *)
Definition emptyTable
  : outcome (option error * Heap * backend.chunkedDataWriter Frame) :=
  andThen start (WriteNewFrame "A" (NewFrame "a" [col "v" []])).

(** The producer calls that lead to [heapA] with [writerA], and to [heapAB]
    with [writerAB], below. *)
Definition oneFrame
  : outcome (option error * Heap * backend.chunkedDataWriter Frame) :=
  andThen start
    (WriteNewFrame "A" (NewFrame "a" [col "x" [VInt 1]; col "y" [VInt 2]])).

Definition twoFrames
  : outcome (option error * Heap * backend.chunkedDataWriter Frame) :=
  andThen oneFrame
    (WriteNewFrame "B" (NewFrame "b" [col "x" [VInt 1]; col "y" []])).

End Producer.

(** A writer with an open two-column frame for [A]. *)
Definition heapA : Heap :=
  backend.initHeap
  ++ [mkFrame "a" "A" [col "x" [VInt 1]; col "y" [VInt 2]]].

Definition stateA : backend.chunkingState :=
  backend.mkState [backend.markerFrame; 1%nat] (Some 1%nat) None 0 EmptyString.

Definition writerA : backend.chunkedDataWriter Frame :=
  backend.mkWriter (backend.mkStream [] None) {[ "A" := stateA ]} 1.

(** A writer with a frame for [A] and, for [B], a frame whose columns
    differ in length, which [MarshalArrow] refuses. *)
Definition heapAB : Heap :=
  heapA ++ [mkFrame "b" "B" [col "x" [VInt 1]; col "y" []]].

Definition stateB : backend.chunkingState :=
  backend.mkState [backend.markerFrame; 2%nat] (Some 2%nat) None 0 EmptyString.

Definition writerAB : backend.chunkedDataWriter Frame :=
  backend.mkWriter (backend.mkStream [] None)
                   (<[ "B" := stateB ]> {[ "A" := stateA ]}) 2.

(** A client that has a two-column frame open for [A]. *)
Definition clientHeap : Heap :=
  [mkFrame "a" "A" [col "x" [VInt 1]; col "y" [VInt 2]]].

Definition clientState : datasourcetest.streamState :=
  datasourcetest.mkStreamState [0%nat] (Some 0%nat).

Definition oneColumn : Frame := mkFrame "a" "A" [col "x" [VInt 9]].
Definition threeColumns : Frame :=
  mkFrame "a" "A" [col "x" [VInt 7]; col "y" [VInt 8]; col "z" [VInt 9]].
Definition noRows : Frame := mkFrame "a" "A" [col "x" []; col "y" []].

(** A stream that delivers one batch for [A] and is then cancelled. *)
Definition cancelled : datasourcetest.ClientStream Frame :=
  datasourcetest.mkClientStream None
    [pluginv2.mkResponse "A" [NewFrame EmptyString []; oneColumn] 0
                         EmptyString EmptyString]
    (ErrTransport "context canceled").

End Examples.


(** ** Producer loops and value-level readings

    Loops over the methods of the writer as a producer writes them, and
    what they amount to on frames as values. *)

Module producer.

(** One more row on a frame as a value: value [i] at the end of column [i]. *)
Definition appendRowValues (f : Frame) (fields : list value) : Frame :=
  mkFrame (Name f) (RefID f) (zip_with Append (Fields f) fields).

Section Loops.
Context {bytes : Type}.
Variable MarshalArrow : Frame → bytes + error.
Variable rangeSend rangeReset :
  gmap string backend.chunkingState → list (string * backend.chunkingState).

(** [for _, fields := range rows { if err := w.WriteFrameRow(refID, fields...);
    err != nil { return err } }] *)
Fixpoint WriteFrameRows (refID : string) (rows : list (list value))
    (h : Heap) (w : backend.chunkedDataWriter bytes)
  : outcome (option error * Heap * backend.chunkedDataWriter bytes) :=
  match rows with
  | [] => Ret (None, h, w)
  | fields :: rows' =>
      '(err, h', w') ← backend.WriteFrameRow MarshalArrow rangeSend rangeReset
                         refID fields h w;
      match err with
      | Some e => Ret (Some e, h', w')
      | None => WriteFrameRows refID rows' h' w'
      end
  end.

End Loops.

End producer.

(** Every current frame of the states is at or above the location [base]. *)
Definition currentAbove (base : nat)
    (sts : gmap string backend.chunkingState) : Prop :=
  ∀ k st q, sts !! k = Some st → backend.curFrame st = Some q → (base ≤ q)%nat.

(** ** The reassembly on frames as values

    What the receive loop of the client computes for one refID, told
    without the heap: the tables of the refID, the latest first, and
    whether the latest is open. *)

Module reassembly.

(** The columns of [fv] appended to those of [cur]; nothing when [fv] has
    more columns than [cur]. *)
Definition mergeFrame (cur fv : Frame) : option Frame :=
  mkFrame (Name cur) (RefID cur)
    <$> datasourcetest.mergeFields (Fields cur) (Fields fv).

(** One frame arrives. *)
Definition assembleStep (ts : list Frame * bool) (fv : Frame)
  : option (list Frame * bool) :=
  if decide (Rows fv = 0%nat) then Some (ts.1, false)
  else if ts.2 then
    match ts.1 with
    | cur :: rest => merged ← mergeFrame cur fv; Some (merged :: rest, true)
    | [] => None
    end
  else Some (fv :: ts.1, true).

Fixpoint assemble (ts : list Frame * bool) (fvs : list Frame)
  : option (list Frame * bool) :=
  match fvs with
  | [] => Some ts
  | fv :: fvs' => ts' ← assembleStep ts fv; assemble ts' fvs'
  end.

Section Decode.
Context {bytes : Type}.
Variable UnmarshalArrowFrame : bytes → Frame + error.

(** All frames of a list decoded, if every one of them can be. *)
Fixpoint decodeAll (frs : list bytes) : option (list Frame) :=
  match frs with
  | [] => Some []
  | frame :: frs' =>
      match UnmarshalArrowFrame frame with
      | inl fv => cons fv <$> decodeAll frs'
      | inr _ => None
      end
  end.

(** The encoded frames that the messages carry for [refID], in the order
    of arrival. *)
Fixpoint fragmentsOf (refID : string) (msgs : list (ChunkedDataResponse bytes))
  : list bytes :=
  match msgs with
  | [] => []
  | sr :: msgs' =>
      (if decide (pluginv2.RefId sr = refID) then pluginv2.Frames sr else [])
      ++ fragmentsOf refID msgs'
  end.

End Decode.

(** The state [st] of the client stands for the tables [ts]: its frames
    hold the tables, oldest first, no frame twice, and its current frame is
    the last one if the latest table is open, nil if not. *)
Definition represents (h : Heap) (st : datasourcetest.streamState)
    (ts : list Frame * bool) : Prop :=
  Forall2 (λ p t, h !! p = Some t) (datasourcetest.frames st) (reverse ts.1) ∧
  NoDup (datasourcetest.frames st) ∧
  datasourcetest.curFrame st
  = (if ts.2 then last (datasourcetest.frames st) else None) ∧
  (ts.2 = true → ts.1 ≠ []).

(** From [h] and [st] to [h1] and [st1] the heap has only grown, no frame
    outside those of [st] has changed, and the frames of [st1] are those
    of [st] or new ones. *)
Definition touchesOnly (h : Heap) (st : datasourcetest.streamState)
    (h1 : Heap) (st1 : datasourcetest.streamState) : Prop :=
  (length h ≤ length h1)%nat ∧
  (∀ p, (p < length h)%nat → p ∉ datasourcetest.frames st → h1 !! p = h !! p) ∧
  (∀ p, p ∈ datasourcetest.frames st1 →
        p ∈ datasourcetest.frames st ∨ (length h ≤ p)%nat).

(** The loop accounts for the messages [msgs] received so far: for every
    refID its state stands for the tables assembled from the frames that
    the messages carry for it, a refID has a state exactly when a message
    named it, and no frame belongs to two refIDs. *)
Definition accounts {bytes : Type} (UnmarshalArrowFrame : bytes → Frame + error)
    (msgs : list (ChunkedDataResponse bytes)) (h : Heap)
    (m : gmap string datasourcetest.streamState) : Prop :=
  (∀ refID, ∃ fvs ts,
     decodeAll UnmarshalArrowFrame (fragmentsOf refID msgs) = Some fvs ∧
     assemble ([], false) fvs = Some ts ∧
     represents h (default datasourcetest.zeroStream (m !! refID)) ts) ∧
  (∀ refID, m !! refID = None ↔ Forall (λ sr, pluginv2.RefId sr ≠ refID) msgs) ∧
  (∀ id1 id2 p, id1 ≠ id2 →
     p ∈ datasourcetest.frames (default datasourcetest.zeroStream (m !! id1)) →
     p ∉ datasourcetest.frames (default datasourcetest.zeroStream (m !! id2))).

(** The frames that a response holds for [refID], read from the heap. *)
Definition tablesOf (h : Heap) (resp : datasourcetest.QueryDataResponse)
    (refID : string) : list (option Frame) :=
  from_option (λ d, (λ p, h !! p) <$> datasourcetest.Frames d) []
              (datasourcetest.Responses resp !! refID).

End reassembly.

(** ** Further concrete inputs *)

Module MoreExamples.
Import Examples.

Definition marker : Frame := NewFrame EmptyString [].
Definition twoMore : Frame := mkFrame "a" "A" [col "x" [VInt 10; VInt 11]].

(** The frames of [A] in one batch, ... *)
Definition oneBatch : datasourcetest.ClientStream Frame :=
  datasourcetest.mkClientStream None
    [pluginv2.mkResponse "A" [marker; oneColumn; twoMore] 0 EmptyString EmptyString]
    EOF.

(** ... and the same frames in two batches with a batch of [B] between. *)
Definition threeBatches : datasourcetest.ClientStream Frame :=
  datasourcetest.mkClientStream None
    [pluginv2.mkResponse "A" [marker; oneColumn] 0 EmptyString EmptyString;
     pluginv2.mkResponse "B" [marker; threeColumns] 0 EmptyString EmptyString;
     pluginv2.mkResponse "A" [twoMore] 0 EmptyString EmptyString]
    EOF.

End MoreExamples.

(** ** From the producer to the client

    A producer that opens tables and writes rows, one refID after the
    other, and closes the writer; the tables that it means; and what ties
    the writer to them while it runs. *)

Module roundtrip.

(** The calls of the producer. *)
Inductive call :=
| OpenTable (refID : string) (fr : Frame)       (* [w.WriteFrame(refID, fr)] on a new frame *)
| Row (refID : string) (fields : list value).   (* [w.WriteFrameRow(refID, fields...)] *)

Section Run.
Context {bytes : Type}.
Variable MarshalArrow : Frame → bytes + error.
Variable rangeSend rangeReset :
  gmap string backend.chunkingState → list (string * backend.chunkingState).

Definition doCall (c : call)
    (h : Heap) (w : backend.chunkedDataWriter bytes)
  : outcome (option error * Heap * backend.chunkedDataWriter bytes) :=
  match c with
  | OpenTable refID fr =>
      let '(h', p) := alloc h fr in
      backend.WriteFrame MarshalArrow rangeSend rangeReset refID (Some p) h' w
  | Row refID fields =>
      backend.WriteFrameRow MarshalArrow rangeSend rangeReset refID fields h w
  end.

(** The calls one after the other, up to the first error. *)
Fixpoint doCalls (cs : list call)
    (h : Heap) (w : backend.chunkedDataWriter bytes)
  : outcome (option error * Heap * backend.chunkedDataWriter bytes) :=
  match cs with
  | [] => Ret (None, h, w)
  | c :: cs' =>
      '(err, h', w') ← doCall c h w;
      match err with
      | Some e => Ret (Some e, h', w')
      | None => doCalls cs' h' w'
      end
  end.

(** A new writer on [strm], the calls, and [w.Close()]. *)
Definition produce (cs : list call) (strm : backend.ServerStream bytes)
  : outcome (option error * Heap * backend.chunkedDataWriter bytes) :=
  '(err, h, w) ← doCalls cs backend.initHeap (backend.newChunkedDataWriter strm);
  match err with
  | Some e => Ret (Some e, h, w)
  | None => backend.Close MarshalArrow rangeSend rangeReset h w
  end.

End Run.

(** The tables that the calls mean for [refID], the latest first: a table
    is opened with the refID assigned, a row goes to the latest table. *)
Definition logicalStep (refID : string) (Lrev : list Frame) (c : call) : list Frame :=
  match c with
  | OpenTable r fr =>
      if decide (r = refID) then setRefID refID fr :: Lrev else Lrev
  | Row r fields =>
      if decide (r = refID) then
        match Lrev with
        | t :: rest => producer.appendRowValues t fields :: rest
        | [] => []
        end
      else Lrev
  end.

Definition logicalRev (refID : string) (cs : list call) : list Frame :=
  foldl (logicalStep refID) [] cs.

(** The tables that the calls mean for [refID], the oldest first. *)
Definition logical (refID : string) (cs : list call) : list Frame :=
  reverse (logicalRev refID cs).

(** All columns of the frame have the length that [Rows] gives. *)
Definition sameLen (f : Frame) : Prop :=
  Forall (λ fd, Len fd = Rows f) (Fields f).

(** Calls that a producer makes one refID after the other: a table is
    opened with at least one column, columns of one length and fewer than
    [2 ^ 62] rows; a row is for the refID of the call before it and has as
    many values as the table opened last has columns.  [act] is the refID
    of the call before and that number of columns. *)
Fixpoint seqOK (act : option (string * nat)) (cs : list call) : Prop :=
  match cs with
  | [] => True
  | OpenTable r fr :: cs' =>
      Fields fr ≠ [] ∧ sameLen fr ∧ (Z.of_nat (Rows fr) < 2 ^ 62)%Z ∧
      seqOK (Some (r, length (Fields fr))) cs'
  | Row r fields :: cs' =>
      act = Some (r, length fields) ∧ seqOK act cs'
  end.

(** The frames of one state of the writer as values: those sent so far,
    the continuation that the last flush left (the empty copy of the frame
    that was current, with the rows written since), and the tables opened
    since the last flush, the latest first. *)
Record pending := mkPending {
  sentV : list Frame;
  contV : option Frame;
  newR : list Frame
}.

Definition noPending : pending := mkPending [] None [].

Definition marker : Frame := NewFrame EmptyString [].

Definition chunks (ts : list Frame) : list Frame := ts ≫= (λ t, [marker; t]).

Definition pendingAll (a : pending) : list Frame :=
  option_list (contV a) ++ chunks (reverse (newR a)).

(** The rows that the writer counts for the state. *)
Definition pendingRows (a : pending) : Z :=
  Z.of_nat (sum_list_with Rows (pendingAll a)).

Definition liveCont (a : pending) : list Frame :=
  match contV a with
  | Some c => if decide (Rows c = 0%nat) then [] else [c]
  | None => []
  end.

Definition pendingLive (a : pending) : list Frame :=
  liveCont a ++ chunks (reverse (newR a)).

(** The frame that rows go to, and the frames before it. *)
Definition currentV (a : pending) : option Frame :=
  match newR a with
  | t :: _ => Some t
  | [] => contV a
  end.

Definition initV (a : pending) : list Frame :=
  match newR a with
  | _ :: rest => option_list (contV a) ++ chunks (reverse rest) ++ [marker]
  | [] => []
  end.

Definition setCurrent (t : Frame) (a : pending) : pending :=
  match newR a with
  | _ :: rest => mkPending (sentV a) (contV a) (t :: rest)
  | [] => mkPending (sentV a) (Some t) []
  end.

Definition openV (t : Frame) (a : pending) : pending :=
  mkPending (sentV a) (contV a) (t :: newR a).

Definition flushV (a : pending) : pending :=
  match currentV a with
  | Some t => mkPending (sentV a ++ pendingAll a) (Some (EmptyCopy t)) []
  | None => a
  end.

(** The states as values, with the one of [refID] replaced. *)
Definition upd (A : string → pending) (refID : string) (a : pending)
  : string → pending :=
  λ r, if decide (r = refID) then a else A r.

(** What the assembly is to give for the tables [Lrev]: those with rows,
    and the latest open if it has rows. *)
Definition expected (Lrev : list Frame) : list Frame * bool :=
  (filter (λ t, Rows t ≠ 0%nat) Lrev,
   match Lrev with
   | t :: _ => bool_decide (Rows t ≠ 0%nat)
   | [] => false
   end).

(** The frames of the state that rows are written to, and the count,
    against the tables meant. *)
Definition valueInv (a : pending) (cnt : Z) (Lrev : list Frame) : Prop :=
  reassembly.assemble ([], false) (sentV a ++ pendingLive a) = Some (expected Lrev) ∧
  cnt = Z.of_nat (sum_list_with Rows (pendingAll a)) ∧
  Forall sameLen (pendingAll a) ∧
  Forall sameLen Lrev ∧
  Forall (λ t, Fields t ≠ []) Lrev ∧
  match newR a, contV a, Lrev with
  | t :: _, _, t' :: _ => t = t'
  | [], Some c, t' :: _ => EmptyCopy c = EmptyCopy t'
  | [], None, [] => True
  | _, _, _ => False
  end.

(** The frames of a state that no row is written to before a table is
    opened, against the tables meant. *)
Definition closedInv (a : pending) (Lrev : list Frame) : Prop :=
  (∃ flag, reassembly.assemble ([], false) (sentV a ++ pendingAll a)
           = Some (filter (λ t, Rows t ≠ 0%nat) Lrev, flag)) ∧
  Forall sameLen (pendingAll a) ∧
  Forall sameLen Lrev ∧
  Forall (λ t, Fields t ≠ []) Lrev.

(** One state of the writer against its frames as values. *)
Definition stateRel (h : Heap) (ost : option backend.chunkingState)
    (a : pending) : Prop :=
  match currentV a with
  | None => ost = None
  | Some t =>
      ∃ st init cur,
        ost = Some st ∧
        backend.frames st = init ++ [cur] ∧
        backend.curFrame st = Some cur ∧
        (cur ∉ init) ∧ (cur ≠ backend.markerFrame) ∧
        Forall2 (λ p t, h !! p = Some t) init (initV a) ∧
        h !! cur = Some t
  end.

(** The heap and the writer against the frames as values: the transport
    takes every message, what was sent for a refID decodes to the frames
    sent, every state stands for its frames, the current frame of a state
    is no frame of another, and no state has more rows than are counted. *)
Definition writerRel {bytes : Type} (UnmarshalArrowFrame : bytes → Frame + error)
    (h : Heap) (w : backend.chunkedDataWriter bytes)
    (A : string → pending) : Prop :=
  backend.credit (backend.stream w) = None ∧
  h !! backend.markerFrame = Some marker ∧
  (∀ r, reassembly.decodeAll UnmarshalArrowFrame
          (reassembly.fragmentsOf r (backend.sent (backend.stream w)))
        = Some (sentV (A r))) ∧
  (∀ r, stateRel h (backend.states w !! r) (A r)) ∧
  (∀ r r' st st' cur, r ≠ r' →
     backend.states w !! r = Some st → backend.states w !! r' = Some st' →
     backend.curFrame st = Some cur → cur ∉ backend.frames st') ∧
  (∀ r, (pendingRows (A r) ≤ backend.count w)%Z).

(** What holds between two calls: the writer stands for the frames
    [A], fewer rows are counted than make a batch, every state stands for
    the tables meant so far for its refID, and the state of the refID of
    the call before, whose latest table has [n] columns, takes rows. *)
Definition runInv {bytes : Type} (UnmarshalArrowFrame : bytes → Frame + error)
    (h : Heap) (w : backend.chunkedDataWriter bytes)
    (A : string → pending) (done : list call) (act : option (string * nat))
  : Prop :=
  writerRel UnmarshalArrowFrame h w A ∧
  (backend.count w < backend.maxBatchSize)%Z ∧
  (∀ r, closedInv (A r) (logicalRev r done)) ∧
  match act with
  | None => True
  | Some (r, n) =>
      ∃ t Lrest, logicalRev r done = t :: Lrest ∧ length (Fields t) = n ∧
                 valueInv (A r) (pendingRows (A r)) (logicalRev r done)
  end.

End roundtrip.

(** ** The adapter and the benchmark datasource
      (backend/data_adapter.go, benchmark/client.go) *)

Module dataSDKAdapter.
Section Adapter.
Context {bytes : Type}.

(** [enrichWithErrorSourceInfo(err)]; the tests [IsDownstreamError] and
    [IsPluginError] and the gRPC status that it builds are outside the
    modelled sources. *)
Variable enrichWithErrorSourceInfo : error → error.

(** [a.chunkedDataHandler.QueryChunkedData(ctx, parsedReq, writer)], on the
    request already converted. *)
Variable chunkedDataHandler :
  Heap → backend.chunkedDataWriter bytes →
  outcome (option error * Heap * backend.chunkedDataWriter bytes).

(** [(a *dataSDKAdapter) QueryChunkedData(req, stream)]; the writer is
    returned with the error for what it has sent. *)
Definition QueryChunkedData (stream : backend.ServerStream bytes)
  : outcome (option error * Heap * backend.chunkedDataWriter bytes) :=
  let writer := backend.newChunkedDataWriter stream in
  '(err, h, writer) ← chunkedDataHandler backend.initHeap writer;
  match err with
  | Some e => Ret (Some (enrichWithErrorSourceInfo e), h, writer)
  | None => Ret (None, h, writer)
  end.

End Adapter.
End dataSDKAdapter.

Module benchmark.

(** [backend.DataQuery]: the fields that the datasource reads. *)
Record DataQuery := mkDataQuery {
  RefID : string;
  MaxDataPoints : Z
}.

(** [type testDatasource struct] *)
Record testDatasource := mkDatasource {
  rowsPerFrame : Z
}.

(** The conversions of an [int] to the narrower integer types. *)
Definition int8 (z : Z) : Z := (z + 2 ^ 7) mod 2 ^ 8 - 2 ^ 7.
Definition int16 (z : Z) : Z := (z + 2 ^ 15) mod 2 ^ 16 - 2 ^ 15.
Definition uint8 (z : Z) : Z := z mod 2 ^ 8.
Definition uint16 (z : Z) : Z := z mod 2 ^ 16.
Definition uint32 (z : Z) : Z := z mod 2 ^ 32.
Definition uint64 (z : Z) : Z := z mod 2 ^ 64.

(** The thirteen empty columns of [newFrame]. *)
Definition columns : list Field :=
  [mkField "f32" "float32" [];
   mkField "f64" "float64" [];
   mkField "s" "string" [];
   mkField "i8" "int8" [];
   mkField "i16" "int16" [];
   mkField "i32" "int32" [];
   mkField "i64" "int64" [];
   mkField "u8" "uint8" [];
   mkField "u16" "uint16" [];
   mkField "u32" "uint32" [];
   mkField "u64" "uint64" [];
   mkField "t" "time.Time" [];
   mkField "b" "bool" []].

(** [fmt.Sprintf("F:%d, R:%s", i, q.RefID)] *)
Definition frameName (i : Z) (refID : string) : string :=
  "F:" +:+ pretty.pretty i +:+ ", R:" +:+ refID.

(** [panicIfErr(err)] (benchmark/main.go) on the error of a call of the
    writer. *)
Definition panicIfErr {bytes : Type}
    (r : outcome (option error * Heap * backend.chunkedDataWriter bytes))
  : outcome (Heap * backend.chunkedDataWriter bytes) :=
  '(err, h, w) ← r;
  match err with
  | Some _ => Panic
  | None => Ret (h, w)
  end.

(** [for _, x := range l { body }] on the state [s]. *)
Fixpoint forEach {A S : Type} (l : list A) (body : A → S → outcome S) (s : S)
  : outcome S :=
  match l with
  | [] => Ret s
  | x :: l' => s' ← body x s; forEach l' body s'
  end.

Section Datasource.

(** The cells that [float32(i)], [float64(i)] and
    [time.UnixMilli(int64(i))] make. *)
Variable float32 float64 unixMilli : Z → value.

(** The values of row [i], as [newFrame] and [QueryChunkedData] write
    them. *)
Definition sample (i : Z) : list value :=
  [float32 i; float64 i; VStr "str"; VInt (int8 i); VInt (int16 i);
   VInt (int32 i); VInt i; VInt (uint8 i); VInt (uint16 i); VInt (uint32 i);
   VInt (uint64 i); unixMilli i; VBool false].

(** [newFrame(name, numRows)]; the loop is [for i := 0; i < numRows; i++]. *)
Definition newFrame (name : string) (numRows : Z) : outcome Frame :=
  forEach (seqZ 0 numRows)
    (λ i frame, match AppendRow frame (sample i) with
                | Some frame' => Ret frame'
                | None => Panic
                end)
    (NewFrame name columns).

(** What [newFrame(name, numRows)] returns, as a value. *)
Definition table (name : string) (numRows : Z) : Frame :=
  foldl producer.appendRowValues (NewFrame name columns)
        (sample <$> seqZ 0 numRows).

(** [backend.DataResponse] as [QueryData] fills it. *)
Record DataResponse := mkDataResponse {
  Status : Z;
  Frames : list loc
}.





Context {bytes : Type}.
Variable MarshalArrow : Frame → bytes + error.
Variable rangeSend rangeReset :
  gmap string backend.chunkingState → list (string * backend.chunkingState).

(** The closure [query] of [QueryChunkedData]: for every data point a new
    frame without rows is written, and then its rows one by one. *)
Definition query (p : testDatasource) (q : DataQuery)
    (s : Heap * backend.chunkedDataWriter bytes)
  : outcome (Heap * backend.chunkedDataWriter bytes) :=
  forEach (seqZ 0 (MaxDataPoints q))
    (λ i '(h, w),
       frame ← newFrame (frameName i (RefID q)) 0;
       let '(h, f) := alloc h frame in
       s ← panicIfErr (backend.WriteFrame MarshalArrow rangeSend rangeReset
                         (RefID q) (Some f) h w);
       forEach (seqZ 0 (rowsPerFrame p))
         (λ i '(h, w),
            panicIfErr (backend.WriteFrameRow MarshalArrow rangeSend rangeReset
                          (RefID q) (sample i) h w))
         s)
    s.

(** [(p *testDatasource) QueryChunkedData(ctx, req, w)] on the queries of
    the request. *)
Definition QueryChunkedData (p : testDatasource) (req : list DataQuery)
    (h : Heap) (w : backend.chunkedDataWriter bytes)
  : outcome (option error * Heap * backend.chunkedDataWriter bytes) :=
  '(h, w) ← forEach req (query p) (h, w);
  backend.Close MarshalArrow rangeSend rangeReset h w.

(** The calls of the writer that the datasource makes for one frame, for
    one query and for the request. *)
Definition frameCalls (p : testDatasource) (refID : string) (i : Z)
  : list roundtrip.call :=
  roundtrip.OpenTable refID (NewFrame (frameName i refID) columns)
  :: ((λ j, roundtrip.Row refID (sample j)) <$> seqZ 0 (rowsPerFrame p)).

Definition queryCalls (p : testDatasource) (q : DataQuery) : list roundtrip.call :=
  seqZ 0 (MaxDataPoints q) ≫= frameCalls p (RefID q).

Definition requestCalls (p : testDatasource) (req : list DataQuery)
  : list roundtrip.call :=
  req ≫= queryCalls p.

(** The tables that the request asks for under [refID]: for every query of
    the refID, in the order of the request, [MaxDataPoints] tables of
    [rowsPerFrame] rows, with the refID assigned. *)
Definition tablesMeant (p : testDatasource) (req : list DataQuery)
    (refID : string) : list Frame :=
  req ≫= (λ q,
    if decide (RefID q = refID) then
      (λ i, setRefID refID (table (frameName i refID) (rowsPerFrame p)))
        <$> seqZ 0 (MaxDataPoints q)
    else []).

End Datasource.

End benchmark.

(** ** The benchmark as it is run (benchmark/client.go) *)

Module BenchmarkExample.

(** [runDatasource1] and [runDatasource2] *)
Definition datasource1 : benchmark.testDatasource := benchmark.mkDatasource 10.
Definition datasource2 : benchmark.testDatasource := benchmark.mkDatasource 100000.

(** The queries of [queryChunkedData] *)
Definition queries : list benchmark.DataQuery :=
  [benchmark.mkDataQuery "1" 10; benchmark.mkDataQuery "2" 100].

End BenchmarkExample.

(** ** A producer of two refIDs

    For [A] a table of 999 rows that two more rows are written to and a
    table without rows, then for [B] a table of 998 rows that two more rows
    are written to, then one more table for [A].  The writer sends twice
    before it is closed, the second time for both refIDs. *)

Module RoundTripExample.
Import Examples roundtrip.

Definition calls : list call :=
  [OpenTable "A" (NewFrame "t" [col "x" (ints 999)]);
   Row "A" [VInt 1];
   Row "A" [VInt 2];
   OpenTable "A" (NewFrame "e" [col "y" []]);
   OpenTable "B" (NewFrame "u" [col "z" (ints 998); col "w" (ints 998)]);
   Row "B" [VInt 9; VInt 10];
   Row "B" [VInt 11; VInt 12];
   OpenTable "A" (NewFrame "v" [col "x" [VInt 3]])].

End RoundTripExample.
(** ** Properties of the writer *)

Section WriterProperties.
Import backend.
Context {bytes : Type}.
Variable MarshalArrow : Frame → bytes + error.
Variable rangeSend rangeReset :
  gmap string chunkingState → list (string * chunkingState).

(** Go's [range] visits every entry of the map once. *)
Hypothesis rangeSend_perm : ∀ m, rangeSend m ≡ₚ map_to_list m.
Hypothesis rangeReset_perm : ∀ m, rangeReset m ≡ₚ map_to_list m.

Local Abbreviation WriteFrameRow := (WriteFrameRow MarshalArrow rangeSend rangeReset).
Local Abbreviation WriteError := (WriteError MarshalArrow rangeSend rangeReset).
Local Abbreviation WriteFrame := (WriteFrame MarshalArrow rangeSend rangeReset).
Local Abbreviation flush := (flush MarshalArrow rangeSend rangeReset).

(** *** The loops of [flush] *)


Lemma marshalFrames_cons_inv (h : Heap) (p : loc) (fs : list loc)
    (acc out : list bytes) :
  marshalFrames MarshalArrow h (p :: fs) acc = Ret (inl out) →
  ∃ f b, h !! p = Some f ∧ MarshalArrow f = inl b ∧
         marshalFrames MarshalArrow h fs (acc ++ [b]) = Ret (inl out).
Proof.
  simpl. unfold deref. destruct (h !! p) as [f|]; simpl; [|discriminate].
  destruct (MarshalArrow f) as [b|err] eqn:Hb; [|discriminate].
  intros Hm. exists f, b. auto.
Qed.

Lemma marshalFrames_shift (h : Heap) (fs : list loc) :
  ∀ acc out : list bytes,
    marshalFrames MarshalArrow h fs acc = Ret (inl out) →
    ∃ enc, out = acc ++ enc ∧
           ∀ acc', marshalFrames MarshalArrow h fs acc' = Ret (inl (acc' ++ enc)).
Proof.
  induction fs as [|p fs IH]; intros acc out Hm.
  - simpl in Hm. injection Hm as <-. exists []. rewrite app_nil_r.
    split; [reflexivity|]. intros acc'. simpl. now rewrite app_nil_r.
  - apply marshalFrames_cons_inv in Hm as (f & b & Hp & Hb & Hm).
    destruct (IH _ _ Hm) as (enc & -> & Hall).
    exists (b :: enc). rewrite <- app_assoc. split; [reflexivity|].
    intros acc'. simpl. unfold deref. rewrite Hp. simpl. rewrite Hb.
    rewrite Hall, <- app_assoc. reflexivity.
Qed.

Lemma marshalFrames_app_inv (h : Heap) (fs1 fs2 : list loc) (out : list bytes) :
  marshalFrames MarshalArrow h (fs1 ++ fs2) [] = Ret (inl out) →
  ∃ out1 out2, out = out1 ++ out2 ∧
               marshalFrames MarshalArrow h fs1 [] = Ret (inl out1) ∧
               marshalFrames MarshalArrow h fs2 [] = Ret (inl out2).
Proof.
  assert (∀ acc, marshalFrames MarshalArrow h (fs1 ++ fs2) acc = Ret (inl out) →
            ∃ out1 out2, out = acc ++ out1 ++ out2 ∧
                         marshalFrames MarshalArrow h fs1 [] = Ret (inl out1) ∧
                         marshalFrames MarshalArrow h fs2 [] = Ret (inl out2)) as H;
    [|intros Hm; exact (H [] Hm)].
  induction fs1 as [|p fs1 IH]; intros acc Hm.
  - simpl in Hm. destruct (marshalFrames_shift _ _ _ _ Hm) as (enc & -> & Hall).
    exists [], enc. split; [reflexivity|]. split; [reflexivity|]. apply (Hall []).
  - rewrite <- app_comm_cons in Hm.
    apply marshalFrames_cons_inv in Hm as (f & b & Hp & Hb & Hm).
    destruct (IH _ Hm) as (out1 & out2 & -> & H1 & H2).
    exists (b :: out1), out2. rewrite <- !app_assoc. split; [reflexivity|].
    split; [|exact H2]. simpl. unfold deref. rewrite Hp. simpl. rewrite Hb.
    destruct (marshalFrames_shift _ _ _ _ H1) as (enc & Henc & Hall).
    simpl in Henc. subst enc. apply (Hall [b]).
Qed.

(** What the inner loop returns holds, for every frame of the list and in
    the order of the list, the encoding of the frame as the heap has
    it. *)
Lemma marshalFrames_encodes (h : Heap) (fs : list loc) (out : list bytes) :
  marshalFrames MarshalArrow h fs [] = Ret (inl out) →
  Forall2 (λ p b, ∃ f, h !! p = Some f ∧ MarshalArrow f = inl b) fs out.
Proof.
  revert out. induction fs as [|p fs IH]; intros out Hm.
  - simpl in Hm. injection Hm as <-. constructor.
  - apply marshalFrames_cons_inv in Hm as (f & b & Hp & Hb & Hm).
    destruct (marshalFrames_shift _ _ _ _ Hm) as (enc & -> & Hall).
    simpl. constructor; [eauto|]. apply IH. apply (Hall []).
Qed.

Lemma Send_inv (strm strm' : ServerStream bytes) (resp : ChunkedDataResponse bytes)
    (e : option error) :
  Send strm resp = (strm', e) →
  (e = None ∧ sent strm' = sent strm ++ [resp]) ∨ (e ≠ None ∧ strm' = strm).
Proof.
  unfold Send. destruct (credit strm) as [[|n]|]; intros [= <- <-]; simpl; auto.
Qed.

Lemma sendLoop_app (h : Heap) (pre rest : list (string * chunkingState))
    (strm : ServerStream bytes) :
  sendLoop MarshalArrow h (pre ++ rest) strm
  = '(s, e) ← sendLoop MarshalArrow h pre strm;
    match e with
    | Some _ => Ret (s, e)
    | None => sendLoop MarshalArrow h rest s
    end.
Proof.
  revert strm. induction pre as [|[refID state] pre IH]; intros strm; simpl.
  - reflexivity.
  - destruct (marshalFrames _ _ _ _) as [[encoded|err]|]; simpl; try reflexivity.
    destruct (Send _ _) as [strm' [err|]]; simpl; [reflexivity | apply IH].
Qed.

(** Whatever the first loop returns, what it has sent is the batches of
    a prefix of the entries, in order; of all entries if it returns no
    error. *)
Lemma sendLoop_sent (h : Heap) (kvs : list (string * chunkingState))
    (strm strm' : ServerStream bytes) (e : option error) :
  sendLoop MarshalArrow h kvs strm = Ret (strm', e) →
  ∃ visited batches,
    sent strm' = sent strm ++ batches ∧
    visited `prefix_of` kvs ∧
    Forall2 (batchOf MarshalArrow h) visited batches ∧
    (e = None → visited = kvs).
Proof.
  revert strm. induction kvs as [|[refID state] kvs IH]; intros strm; simpl.
  - intros [= <- <-]. exists [], []. rewrite app_nil_r. repeat split; auto.
  - destruct (marshalFrames _ _ _ _) as [[encoded|err]|] eqn:Hm; simpl;
      [| |discriminate].
    + destruct (Send _ _) as [strm1 [err|]] eqn:Hs; simpl.
      * intros [= <- <-]. apply Send_inv in Hs as [[? _]|[_ ->]]; [discriminate|].
        exists [], []. rewrite app_nil_r.
        repeat split; auto using prefix_nil. discriminate.
      * intros Hrec. apply Send_inv in Hs as [[_ Hs]|[? _]]; [|congruence].
        destruct (IH _ Hrec) as (visited & batches & Hsent & Hpre & Hall & Hnone).
        eexists ((refID, state) :: visited), (_ :: batches).
        split; [rewrite Hsent, Hs, <- app_assoc; reflexivity|].
        split; [now apply prefix_cons|].
        split; [|intros ->%Hnone; reflexivity].
        constructor; [|exact Hall]. repeat split; simpl; auto.
    + intros [= <- <-]. exists [], []. rewrite app_nil_r.
      repeat split; auto using prefix_nil. discriminate.
Qed.

Lemma reset_inv (h h' : Heap) (st st' : chunkingState) :
  reset h st = Ret (h', st') →
  match curFrame st with
  | Some p => ∃ cur, h !! p = Some cur ∧ h' = h ++ [EmptyCopy cur] ∧
                     st' = mkState [length h] (Some (length h)) None 0 EmptyString
  | None => h' = h ∧ st' = zeroState
  end.
Proof.
  unfold reset, deref. destruct (curFrame st) as [p|].
  - destruct (h !! p) as [cur|]; simpl; [|discriminate].
    intros [= <- <-]. eauto.
  - intros [= <- <-]. auto.
Qed.

Lemma reset_prefix (h h' : Heap) (st st' : chunkingState) :
  reset h st = Ret (h', st') → h `prefix_of` h'.
Proof.
  intros H%reset_inv. destruct (curFrame st).
  - destruct H as (cur & _ & -> & _). now apply prefix_app_r.
  - now destruct H as [-> _].
Qed.

Lemma resetLoop_prefix (kvs : list (string * chunkingState)) (h h' : Heap)
    (sts sts' : gmap string chunkingState) :
  resetLoop h kvs sts = Ret (h', sts') → h `prefix_of` h'.
Proof.
  revert h sts. induction kvs as [|[refID state] kvs IH]; intros h sts; simpl.
  - now intros [= <- _].
  - destruct (reset h state) as [[h1 state1]|] eqn:Hr; simpl; [|discriminate].
    intros Hrec. etransitivity; [exact (reset_prefix _ _ _ _ Hr) | eauto].
Qed.

Lemma resetLoop_other (kvs : list (string * chunkingState)) (h h' : Heap)
    (sts sts' : gmap string chunkingState) (refID : string) :
  resetLoop h kvs sts = Ret (h', sts') →
  refID ∉ kvs.*1 →
  sts' !! refID = sts !! refID.
Proof.
  revert h sts. induction kvs as [|[k state] kvs IH]; intros h sts; simpl.
  - now intros [= _ <-].
  - destruct (reset h state) as [[h1 state1]|]; simpl; [|discriminate].
    intros Hrec Hnotin. apply not_elem_of_cons in Hnotin as [Hne Hnotin].
    rewrite (IH _ _ Hrec Hnotin). now apply lookup_insert_ne.
Qed.

(** Every entry that the second loop visits is left reset. *)
Lemma resetLoop_visited (kvs : list (string * chunkingState)) (h h' : Heap)
    (sts sts' : gmap string chunkingState) (refID : string) (st : chunkingState) :
  resetLoop h kvs sts = Ret (h', sts') →
  NoDup kvs.*1 →
  (refID, st) ∈ kvs →
  match curFrame st with
  | Some p => ∀ cur, h !! p = Some cur →
      ∃ q, sts' !! refID = Some (mkState [q] (Some q) None 0 EmptyString) ∧
           h' !! q = Some (EmptyCopy cur) ∧ (length h ≤ q)%nat
  | None => sts' !! refID = Some zeroState
  end.
Proof.
  revert h sts. induction kvs as [|[k state] kvs IH]; intros h sts; simpl.
  - intros _ _ Hin. inversion Hin.
  - destruct (reset h state) as [[h1 state1]|] eqn:Hr; simpl; [|discriminate].
    intros Hrec Hnd Hin. apply NoDup_cons in Hnd as [Hk Hnd].
    apply elem_of_cons in Hin as [[= -> ->]|Hin].
    + pose proof (resetLoop_other _ _ _ _ _ _ Hrec Hk) as Hkeep.
      rewrite lookup_insert_eq in Hkeep.
      pose proof (resetLoop_prefix _ _ _ _ _ Hrec) as Hpre.
      apply reset_inv in Hr. destruct (curFrame state) as [p|].
      * destruct Hr as (cur0 & Hp & -> & ->). intros cur Hcur.
        assert (cur0 = cur) as -> by congruence.
        exists (length h). split; [exact Hkeep|]. split; [|lia].
        eapply prefix_lookup_Some; [|exact Hpre].
        now apply list_lookup_middle.
      * destruct Hr as [_ ->]. exact Hkeep.
    + specialize (IH _ _ Hrec Hnd Hin).
      pose proof (reset_prefix _ _ _ _ Hr) as Hpre.
      destruct (curFrame st) as [p|]; [|exact IH].
      intros cur Hcur.
      destruct (IH cur) as (q & Hq & Hhq & Hle).
      { eapply prefix_lookup_Some; eauto. }
      exists q. repeat split; auto.
      apply prefix_length in Hpre. lia.
Qed.

(** After the second loop no visited state has the marker among its
    frames. *)
Lemma resetLoop_no_marker (kvs : list (string * chunkingState)) (h h' : Heap)
    (sts sts' : gmap string chunkingState) :
  resetLoop h kvs sts = Ret (h', sts') →
  (∀ k st, sts !! k = Some st → k ∈ kvs.*1 ∨ markerFrame ∉ frames st) →
  ∀ k st', sts' !! k = Some st' → markerFrame ∉ frames st'.
Proof.
  revert h sts. induction kvs as [|[k0 state] kvs IH]; intros h sts; simpl.
  - intros [= _ <-] Hsts k st' Hst'.
    destruct (Hsts _ _ Hst') as [Hin|Hno]; [inversion Hin | exact Hno].
  - destruct (reset h state) as [[h1 state1]|] eqn:Hr; simpl; [|discriminate].
    intros Hrec Hsts. apply (IH _ _ Hrec). intros k st.
    destruct (decide (k0 = k)) as [->|Hne].
    + rewrite lookup_insert_eq. intros [= <-]. right.
      apply reset_inv in Hr. destruct (curFrame state) as [p|].
      * destruct Hr as (cur & Hp & _ & ->); simpl.
        apply lookup_lt_Some in Hp.
        intros Heq%list_elem_of_singleton. unfold markerFrame in Heq. lia.
      * destruct Hr as [_ ->]. simpl. apply not_elem_of_nil.
    + rewrite lookup_insert_ne by exact Hne. intros Hst.
      destruct (Hsts _ _ Hst) as [Hin|Hno]; [left | now right].
      apply elem_of_cons in Hin as [?|Hin]; [congruence | exact Hin].
Qed.

Lemma range_NoDup (range : gmap string chunkingState → list (string * chunkingState))
    (m : gmap string chunkingState) :
  range m ≡ₚ map_to_list m → NoDup (range m).*1.
Proof.
  intros Hp. rewrite Hp. apply NoDup_fst_map_to_list.
Qed.

Lemma range_elem_of (range : gmap string chunkingState → list (string * chunkingState))
    (m : gmap string chunkingState) (refID : string) (st : chunkingState) :
  range m ≡ₚ map_to_list m → (refID, st) ∈ range m ↔ m !! refID = Some st.
Proof.
  intros Hp. rewrite Hp. apply elem_of_map_to_list.
Qed.

(** C8. When the open frame of [refID] has a number of columns different
    from the number of fields of the row, [WriteFrameRow] returns the
    field count mismatch error, and neither the frame nor anything else
    of the heap and of the writer is changed. *)
Theorem WriteFrameRow_field_count_mismatch
    (refID : string) (fields : list value) (h : Heap)
    (w : chunkedDataWriter bytes) (st : chunkingState) (p : loc) (cur : Frame) :
  states w !! refID = Some st →
  curFrame st = Some p →
  h !! p = Some cur →
  length fields ≠ length (Fields cur) →
  WriteFrameRow refID fields h w
  = Ret (Some (ErrFieldCount (length fields) (length (Fields cur))), h, w).
Proof.
  intros Hst Hcur Hp Hlen.
  unfold backend.WriteFrameRow, addRow, deref.
  rewrite Hst, Hcur; simpl. rewrite Hp; simpl.
  destruct (decide _) as [_|Hno]; [reflexivity | contradiction].
Qed.

(** C9. [WriteError] for a refID that the writer holds no state for
    panics: it assigns through the nil state. *)
Theorem WriteError_unknown_refID_panics
    (refID : string) (err : option error) (h : Heap) (w : chunkedDataWriter bytes) :
  states w !! refID = None →
  WriteError refID err h w = Panic.
Proof.
  intros Hst. unfold backend.WriteError. now rewrite Hst.
Qed.

(** C4. [WriteFrameRow] for a refID that the writer holds no state for
    panics instead of returning the no-frame error: [addRow] reads
    [curFrame] of the nil state. *)
Theorem WriteFrameRow_unknown_refID_panics
    (refID : string) (fields : list value) (h : Heap)
    (w : chunkedDataWriter bytes) :
  states w !! refID = None →
  WriteFrameRow refID fields h w = Panic.
Proof.
  intros Hst. unfold backend.WriteFrameRow. now rewrite Hst.
Qed.

(** The no-frame error is what [WriteFrameRow] returns for a state that
    exists and has no current frame; nothing is changed. *)
Lemma WriteFrameRow_no_current_frame
    (refID : string) (fields : list value) (h : Heap)
    (w : chunkedDataWriter bytes) (st : chunkingState) :
  states w !! refID = Some st →
  curFrame st = None →
  WriteFrameRow refID fields h w = Ret (Some ErrNoFrame, h, w).
Proof.
  intros Hst Hcur. unfold backend.WriteFrameRow, addRow.
  now rewrite Hst, Hcur.
Qed.

Lemma Rows_EmptyCopy (f : Frame) : Rows (EmptyCopy f) = 0%nat.
Proof.
  unfold Rows, EmptyCopy; simpl. now destruct (Fields f).
Qed.

Lemma Fields_EmptyCopy (f : Frame) :
  FieldName <$> Fields (EmptyCopy f) = FieldName <$> Fields f ∧
  FieldType <$> Fields (EmptyCopy f) = FieldType <$> Fields f.
Proof.
  unfold EmptyCopy; simpl. rewrite <- !list_fmap_compose. split; reflexivity.
Qed.

(** C2 (as the code has it). When the encoding of a frame of [refID]
    fails in a flush, [flush] returns that error and resets nothing:
    heap, states and count are as before.  It sends no batch for
    [refID] nor for the entries that [range] would visit after it, but
    the batches of the entries visited before it have been sent, one
    each. *)
Theorem flush_marshal_failure_keeps_earlier_batches
    (h : Heap) (w : chunkedDataWriter bytes)
    (pre post : list (string * chunkingState)) (refID : string)
    (state : chunkingState) (strm : ServerStream bytes) (err : error) :
  count w ≠ 0 →
  rangeSend (states w) = pre ++ (refID, state) :: post →
  sendLoop MarshalArrow h pre (stream w) = Ret (strm, None) →
  marshalFrames MarshalArrow h (frames state) [] = Ret (inr err) →
  flush h w = Ret (Some err, h, mkWriter strm (states w) (count w)) ∧
  ∃ batches, sent strm = sent (stream w) ++ batches ∧
             Forall2 (batchOf MarshalArrow h) pre batches.
Proof.
  intros Hcount Hrange Hpre Hfail. split.
  - unfold backend.flush. destruct (decide _) as [?|_]; [contradiction|].
    rewrite Hrange, sendLoop_app, Hpre; simpl. now rewrite Hfail.
  - destruct (sendLoop_sent _ _ _ _ _ Hpre)
      as (visited & batches & Hsent & _ & Hall & Hnone).
    rewrite (Hnone eq_refl) in Hall. eauto.
Qed.

(** After a flush with a nonzero count that returns no error, the count
    is zero and every state of the writer is reset: a state that had a
    current frame holds exactly one frame, a newly allocated empty copy of
    the current frame, which is its current frame, has no rows and the
    same columns, and is not the marker frame; a state without a current
    frame is the zero state.  Error, status and error source are cleared
    in both cases, and no state is left with the marker frame among its
    frames. *)
Lemma flush_reset_inv
    (h h' : Heap) (w w' : chunkedDataWriter bytes) :
  count w ≠ 0 →
  flush h w = Ret (None, h', w') →
  count w' = 0 ∧
  h `prefix_of` h' ∧
  (∀ refID st, states w !! refID = Some st →
    match curFrame st with
    | Some p => ∀ cur, h !! p = Some cur →
        ∃ q, states w' !! refID
               = Some (mkState [q] (Some q) None 0 EmptyString) ∧
             h' !! q = Some (EmptyCopy cur) ∧
             Rows (EmptyCopy cur) = 0%nat ∧
             FieldName <$> Fields (EmptyCopy cur) = FieldName <$> Fields cur ∧
             h !! q = None ∧
             q ≠ markerFrame
    | None => states w' !! refID = Some zeroState
    end) ∧
  (∀ refID st', states w' !! refID = Some st' → markerFrame ∉ frames st').
Proof.
  intros Hcount. unfold backend.flush.
  destruct (decide _) as [?|_]; [contradiction|].
  destruct (sendLoop _ _ _ _) as [[strm [e1|]]|]; simpl; try discriminate.
  destruct (resetLoop _ _ _) as [[h1 sts]|] eqn:Hr; simpl; [|discriminate].
  intros [= <- <-]. simpl. split; [reflexivity|].
  split; [exact (resetLoop_prefix _ _ _ _ _ Hr)|].
  split; [|apply (resetLoop_no_marker _ _ _ _ _ Hr); intros k st Hst; left;
           apply list_elem_of_fmap; exists (k, st); split; [reflexivity|];
           now apply (range_elem_of rangeReset)].
  intros refID st Hst.
  pose proof (resetLoop_visited _ _ _ _ _ refID st Hr
                (range_NoDup rangeReset _ (rangeReset_perm _))) as Hv.
  specialize (Hv (proj2 (range_elem_of rangeReset _ _ _ (rangeReset_perm _)) Hst)).
  destruct (curFrame st) as [p|]; [|exact Hv].
  intros cur Hcur. destruct (Hv cur Hcur) as (q & Hq & Hhq & Hle).
  exists q. split; [exact Hq|]. split; [exact Hhq|].
  split; [apply Rows_EmptyCopy|]. split; [apply Fields_EmptyCopy|].
  split; [now apply lookup_ge_None|].
  apply lookup_lt_Some in Hcur. unfold markerFrame. lia.
Qed.

End WriterProperties.

(** ** What a producer can reach *)

Section Reachable.
Import backend.
Context {bytes : Type}.
Variable MarshalArrow : Frame → bytes + error.
Variable rangeSend rangeReset :
  gmap string chunkingState → list (string * chunkingState).
Hypothesis rangeSend_perm : ∀ m, rangeSend m ≡ₚ map_to_list m.
Hypothesis rangeReset_perm : ∀ m, rangeReset m ≡ₚ map_to_list m.

Local Abbreviation flush := (flush MarshalArrow rangeSend rangeReset).
Local Abbreviation maybeFlush := (maybeFlush MarshalArrow rangeSend rangeReset).
Local Abbreviation reachable := (reachable MarshalArrow rangeSend rangeReset).

Lemma stateOpen_mono (h h' : Heap) (st : chunkingState) :
  (length h ≤ length h')%nat → stateOpen h st → stateOpen h' st.
Proof.
  intros Hle (p & Hcur & Hlast & Hall). exists p. repeat split; auto.
  eapply Forall_impl; [exact Hall|]. simpl. intros; lia.
Qed.

Lemma statesOpen_mono (h h' : Heap) (sts : gmap string chunkingState) :
  (length h ≤ length h')%nat → statesOpen h sts → statesOpen h' sts.
Proof.
  intros Hle Hsts refID st Hst. eapply stateOpen_mono; eauto.
Qed.

Lemma statesOpen_insert (h : Heap) (sts : gmap string chunkingState)
    (refID : string) (st : chunkingState) :
  stateOpen h st → statesOpen h sts → statesOpen h (<[refID := st]> sts).
Proof.
  intros Hst Hsts k st'. destruct (decide (refID = k)) as [->|Hne].
  - rewrite lookup_insert_eq. now intros [= <-].
  - rewrite lookup_insert_ne by exact Hne. apply Hsts.
Qed.

Lemma resetLoop_statesOpen (kvs : list (string * chunkingState)) (h h' : Heap)
    (sts sts' : gmap string chunkingState) :
  resetLoop h kvs sts = Ret (h', sts') →
  Forall (λ kv, stateOpen h kv.2) kvs →
  statesOpen h sts →
  statesOpen h' sts'.
Proof.
  revert h sts. induction kvs as [|[k state] kvs IH]; intros h sts; simpl.
  - now intros [= <- <-].
  - destruct (reset h state) as [[h1 state1]|] eqn:Hr; simpl; [|discriminate].
    intros Hrec Hkvs Hsts. apply Forall_cons in Hkvs as [Hstate Hkvs].
    pose proof (prefix_length _ _ (reset_prefix _ _ _ _ Hr)) as Hle.
    apply (IH _ _ Hrec).
    + eapply Forall_impl; [exact Hkvs|]. intros kv. now apply stateOpen_mono.
    + apply statesOpen_insert; [|eapply statesOpen_mono; eauto].
      apply reset_inv in Hr. destruct Hstate as (p & Hcur & _); simpl in Hcur.
      rewrite Hcur in Hr. destruct Hr as (cur & _ & -> & ->).
      exists (length h). repeat split; auto. constructor; [|constructor].
      rewrite length_app; simpl; lia.
Qed.

Lemma range_statesOpen
    (range : gmap string chunkingState → list (string * chunkingState))
    (h : Heap) (sts : gmap string chunkingState) :
  range sts ≡ₚ map_to_list sts →
  statesOpen h sts → Forall (λ kv, stateOpen h kv.2) (range sts).
Proof.
  intros Hp Hsts. apply Forall_forall. intros [k st] Hin.
  apply (range_elem_of range _ _ _ Hp) in Hin. exact (Hsts _ _ Hin).
Qed.

Lemma flush_statesOpen (h h' : Heap) (w w' : chunkedDataWriter bytes)
    (e : option error) :
  flush h w = Ret (e, h', w') →
  statesOpen h (states w) →
  statesOpen h' (states w') ∧ (length h ≤ length h')%nat.
Proof.
  unfold backend.flush. destruct (decide _) as [_|_].
  - intros [= <- <- <-]. auto.
  - destruct (sendLoop _ _ _ _) as [[strm [e1|]]|]; simpl; try discriminate.
    + intros [= <- <- <-]. auto.
    + destruct (resetLoop _ _ _) as [[h1 sts]|] eqn:Hr; simpl; [|discriminate].
      intros [= <- <- <-] Hsts; simpl. split.
      * eapply resetLoop_statesOpen; eauto using range_statesOpen.
      * exact (prefix_length _ _ (resetLoop_prefix _ _ _ _ _ Hr)).
Qed.

Lemma maybeFlush_statesOpen (h h' : Heap) (w w' : chunkedDataWriter bytes)
    (e : option error) :
  maybeFlush h w = Ret (e, h', w') →
  statesOpen h (states w) →
  statesOpen h' (states w') ∧ (length h ≤ length h')%nat.
Proof.
  unfold backend.maybeFlush. destruct (decide _) as [_|_].
  - intros [= <- <- <-]. auto.
  - apply flush_statesOpen.
Qed.

(** In everything a producer can reach, the marker frame is allocated and
    every state of the writer has a current frame, the last of its frames:
    no state is without frames, and the no-frame error of [addRow] cannot
    occur. *)
Lemma reachable_statesOpen (h : Heap) (w : chunkedDataWriter bytes) :
  reachable h w → (0 < length h)%nat ∧ statesOpen h (states w).
Proof.
  induction 1 as [strm | h w fr _ [Hpos IH] | h w refID f e h' w' _ [Hpos IH] Hop
                  | h w refID fields e h' w' _ [Hpos IH] Hop
                  | h w refID err e h' w' _ [Hpos IH] Hop
                  | h w e h' w' _ [Hpos IH] Hop].
  - split; [simpl; lia|]. intros refID st. simpl. rewrite lookup_empty. discriminate.
  - rewrite length_app; simpl. split; [lia|].
    eapply statesOpen_mono; [|exact IH]. rewrite length_app; lia.
  - unfold backend.WriteFrame in Hop. destruct f as [p|]; simpl in Hop; [|discriminate].
    unfold deref in Hop. destruct (h !! p) as [fr|] eqn:Hp; simpl in Hop; [|discriminate].
    apply maybeFlush_statesOpen in Hop as [Hsts Hle].
    + split; [|exact Hsts]. rewrite length_insert in Hle. lia.
    + simpl. apply statesOpen_insert.
      * exists p. simpl. split; [reflexivity|]. split.
        { now rewrite last_app. }
        apply lookup_lt_Some in Hp. rewrite length_insert.
        apply Forall_app. split; [|repeat constructor; unfold markerFrame; lia].
        destruct (states w !! refID) as [st|] eqn:Hst; simpl; [|constructor].
        destruct (IH _ _ Hst) as (_ & _ & _ & Hall). exact Hall.
      * eapply statesOpen_mono; [|exact IH]. now rewrite length_insert.
  - unfold backend.WriteFrameRow in Hop.
    destruct (addRow h (states w !! refID) fields) as [[e1 h1]|] eqn:Hadd;
      simpl in Hop; [|discriminate].
    assert (length h1 = length h) as Hlen.
    { unfold addRow, deref in Hadd.
      destruct (states w !! refID) as [st|]; [|discriminate].
      destruct (curFrame st) as [p|]; [|now injection Hadd as _ <-].
      destruct (h !! p) as [cur|]; simpl in Hadd; [|discriminate].
      destruct (decide _); [now injection Hadd as _ <-|].
      destruct (AppendRow cur fields); [|discriminate].
      injection Hadd as _ <-. apply length_insert. }
    destruct e1 as [e1|].
    + injection Hop as <- <- <-. rewrite Hlen. split; [exact Hpos|].
      eapply statesOpen_mono; [|exact IH]. lia.
    + apply maybeFlush_statesOpen in Hop as [Hsts Hle]; [split; [lia | exact Hsts]|].
      simpl. eapply statesOpen_mono; [|exact IH]. lia.
  - unfold backend.WriteError in Hop.
    destruct (states w !! refID) as [st|] eqn:Hst; [|discriminate].
    apply flush_statesOpen in Hop as [Hsts Hle]; [split; [lia | exact Hsts]|].
    simpl. apply statesOpen_insert; [|exact IH].
    destruct (IH _ _ Hst) as (p & Hcur & Hlast & Hall). exists p. auto.
  - apply flush_statesOpen in Hop as [Hsts Hle]; [split; [lia | exact Hsts] | exact IH].
Qed.

(** *** No panic on what a producer can reach *)

Lemma stateOpen_curFrame (h : Heap) (st : chunkingState) (p : loc) :
  stateOpen h st → curFrame st = Some p → is_Some (h !! p).
Proof.
  intros (q & Hcur & Hlast & Hall) Hp. assert (q = p) as -> by congruence.
  apply lookup_lt_is_Some. rewrite Forall_forall in Hall. apply Hall.
  apply last_Some in Hlast as [l' ->]. apply elem_of_app. right. constructor.
Qed.

Lemma marshalFrames_returns (h : Heap) (fs : list loc) (acc : list bytes) :
  Forall (λ q, (q < length h)%nat) fs →
  ∃ r, marshalFrames MarshalArrow h fs acc = Ret r.
Proof.
  revert acc. induction fs as [|p fs IH]; intros acc Hall; [simpl; eauto|].
  apply Forall_cons in Hall as [Hp Hall].
  destruct (lookup_lt_is_Some_2 _ _ Hp) as [fr Hfr].
  cbn [marshalFrames]. unfold deref. rewrite Hfr; simpl.
  destruct (MarshalArrow fr); eauto.
Qed.

Lemma sendLoop_returns (h : Heap) (kvs : list (string * chunkingState))
    (strm : ServerStream bytes) :
  Forall (λ kv, stateOpen h kv.2) kvs →
  ∃ r, sendLoop MarshalArrow h kvs strm = Ret r.
Proof.
  revert strm. induction kvs as [|[k state] kvs IH]; intros strm Hall; simpl; [eauto|].
  apply Forall_cons in Hall as [(p & _ & _ & Hfs) Hall]; simpl in Hfs.
  destruct (marshalFrames_returns h (frames state) [] Hfs) as [[encoded|err] ->];
    simpl; [|eauto].
  destruct (Send _ _) as [strm' [err|]]; eauto.
Qed.

Lemma resetLoop_returns (kvs : list (string * chunkingState)) (h : Heap)
    (sts : gmap string chunkingState) :
  Forall (λ kv, stateOpen h kv.2) kvs →
  ∃ r, resetLoop h kvs sts = Ret r.
Proof.
  revert h sts. induction kvs as [|[k state] kvs IH]; intros h sts Hall; simpl;
    [eauto|].
  apply Forall_cons in Hall as [Hstate Hall]; simpl in Hstate.
  destruct Hstate as (p & Hcur & Hrest).
  destruct (stateOpen_curFrame h state p) as [cur Hp]; [now exists p | exact Hcur|].
  unfold reset, deref. rewrite Hcur, Hp; simpl. apply IH.
  eapply Forall_impl; [exact Hall|]. intros kv. apply stateOpen_mono.
  rewrite length_app. lia.
Qed.

Lemma flush_returns (h : Heap) (w : chunkedDataWriter bytes) :
  statesOpen h (states w) → ∃ r, flush h w = Ret r.
Proof.
  intros Hsts. unfold backend.flush. destruct (decide _); [eauto|].
  destruct (sendLoop_returns h (rangeSend (states w)) (stream w))
    as [[strm [e|]] ->]; simpl; eauto using range_statesOpen.
  destruct (resetLoop_returns (rangeReset (states w)) h (states w))
    as [[h1 sts] ->]; simpl; eauto using range_statesOpen.
Qed.

Lemma appendVals_same_length (fds : list Field) (vals : list value) :
  length vals = length fds → is_Some (appendVals fds vals).
Proof.
  revert fds. induction vals as [|v vals IH]; intros [|fd fds] Hlen;
    simpl in *; try discriminate; [eauto..|].
  destruct (IH fds) as [r ->]; [lia | simpl; eauto].
Qed.

(** On what a producer can reach, [flush] and [Close] return, and so does
    [WriteFrameRow] for every refID that the writer knows. *)
Lemma reachable_flush_returns (h : Heap) (w : chunkedDataWriter bytes) :
  reachable h w → ∃ r, flush h w = Ret r.
Proof.
  intros [_ Hsts]%reachable_statesOpen. now apply flush_returns.
Qed.

Lemma reachable_WriteFrameRow_returns (h : Heap) (w : chunkedDataWriter bytes)
    (refID : string) (fields : list value) :
  reachable h w → is_Some (states w !! refID) →
  ∃ r, WriteFrameRow MarshalArrow rangeSend rangeReset refID fields h w = Ret r.
Proof.
  intros [_ Hsts]%reachable_statesOpen [st Hst].
  unfold backend.WriteFrameRow, addRow. rewrite Hst.
  destruct (Hsts _ _ Hst) as (p & Hcur & Hrest). rewrite Hcur.
  destruct (stateOpen_curFrame h st p) as [cur Hp]; [now exists p | exact Hcur|].
  unfold deref. rewrite Hp; simpl.
  destruct (decide _) as [?|Heq]; simpl; [eauto|].
  destruct (appendVals_same_length (Fields cur) fields) as [fds Hfds].
  { destruct (decide (length fields = length (Fields cur))); [auto | contradiction]. }
  unfold AppendRow. rewrite Hfds; simpl.
  unfold backend.maybeFlush. destruct (decide _); [eauto|].
  apply flush_returns; simpl.
  eapply statesOpen_mono; [|exact Hsts]. now rewrite length_insert.
Qed.

End Reachable.

(** ** Properties of the reassembler *)

Section ClientProperties.
Import datasourcetest.
Context {bytes : Type}.
Variable UnmarshalArrowFrame : bytes → Frame + error.

Local Abbreviation frameStep := (frameStep UnmarshalArrowFrame).
Local Abbreviation framesLoop := (framesLoop UnmarshalArrowFrame).
Local Abbreviation recvLoop := (recvLoop UnmarshalArrowFrame).
Local Abbreviation receiveAll := (receiveAll UnmarshalArrowFrame).
Local Abbreviation QueryChunkedData := (QueryChunkedData UnmarshalArrowFrame).

(** *** The merge of an incoming frame *)

Lemma mergeFields_le (cur incoming : list Field) :
  (length incoming ≤ length cur)%nat →
  mergeFields cur incoming
  = Some (zip_with AppendAll (take (length incoming) cur) incoming
          ++ drop (length incoming) cur).
Proof.
  revert cur. induction incoming as [|field incoming IH]; intros cur Hlen; simpl.
  - now destruct cur.
  - destruct cur as [|c cur]; simpl in *; [lia|].
    rewrite IH by lia. reflexivity.
Qed.

Lemma mergeFields_gt (cur incoming : list Field) :
  (length cur < length incoming)%nat → mergeFields cur incoming = None.
Proof.
  revert cur. induction incoming as [|field incoming IH]; intros cur Hlen; simpl in *.
  - lia.
  - destruct cur as [|c cur]; simpl in *; [reflexivity|].
    rewrite IH by lia. reflexivity.
Qed.

(** C3 (as the code has it). The merge step checks no column count and
    returns no error.  When the incoming frame has rows and at most as
    many columns as the current frame, its columns are appended to the
    first columns of the current frame, one by one in order, the other
    columns of the current frame stay as they are, and the state of the
    refID is unchanged. *)
Theorem frameStep_merges_without_schema_check
    (h : Heap) (st : streamState) (frame : bytes) (fv cur : Frame) (c : loc) :
  UnmarshalArrowFrame frame = inl fv →
  Rows fv ≠ 0%nat →
  curFrame st = Some c →
  h !! c = Some cur →
  (length (Fields fv) ≤ length (Fields cur))%nat →
  frameStep h st frame
  = Ret (inl (<[c := mkFrame (Name cur) (RefID cur)
                       (zip_with AppendAll
                          (take (length (Fields fv)) (Fields cur)) (Fields fv)
                        ++ drop (length (Fields fv)) (Fields cur))]>
               (h ++ [fv]),
              st)).
Proof.
  intros Hu Hrows Hcur Hc Hlen. unfold datasourcetest.frameStep, alloc, deref.
  rewrite Hu. destruct (decide _) as [?|_]; [contradiction|].
  rewrite Hcur. rewrite (lookup_app_l_Some _ _ _ _ Hc); simpl.
  now rewrite mergeFields_le.
Qed.

(** With more columns than the current frame has, the merge indexes a
    column that does not exist. *)
Lemma frameStep_merge_more_columns_panics
    (h : Heap) (st : streamState) (frame : bytes) (fv cur : Frame) (c : loc) :
  UnmarshalArrowFrame frame = inl fv →
  Rows fv ≠ 0%nat →
  curFrame st = Some c →
  h !! c = Some cur →
  (length (Fields cur) < length (Fields fv))%nat →
  frameStep h st frame = Panic.
Proof.
  intros Hu Hrows Hcur Hc Hlen. unfold datasourcetest.frameStep, alloc, deref.
  rewrite Hu. destruct (decide _) as [?|_]; [contradiction|].
  rewrite Hcur. rewrite (lookup_app_l_Some _ _ _ _ Hc); simpl.
  now rewrite mergeFields_gt.
Qed.

(** *** The receive loop *)

Lemma recvLoop_receiveAll (msgs : list (ChunkedDataResponse bytes)) (fin : error)
    (h h' : Heap) (m m' : gmap string streamState) :
  receiveAll msgs h m = Ret (inl (h', m')) →
  recvLoop msgs fin h m = recvLoop [] fin h' m'.
Proof.
  revert h m. induction msgs as [|sr msgs IH]; intros h m; simpl.
  - now intros [= <- <-].
  - destruct (datasourcetest.framesLoop _ _ _ _) as [[[h1 st1]|err]|]; simpl;
      try discriminate.
    apply IH.
Qed.

(** C6 (as the code has it). When [Recv] returns an error other than
    [EOF] after messages that were all received and merged, the call
    returns that error with a nil response: what was accumulated in
    [stateByRefID] is not returned. *)
Theorem QueryChunkedData_recv_error_returns_nil
    (strm : ClientStream bytes) (h h' : Heap) (m' : gmap string streamState) :
  openErr strm = None →
  final strm ≠ EOF →
  receiveAll (messages strm) h ∅ = Ret (inl (h', m')) →
  QueryChunkedData strm h = Ret (None, Some (final strm), h').
Proof.
  intros Hopen Hfin Hacc. unfold datasourcetest.QueryChunkedData.
  rewrite Hopen, (recvLoop_receiveAll _ _ _ _ _ _ Hacc); simpl.
  destruct (decide _) as [?|_]; [contradiction | reflexivity].
Qed.

(** At a regular end of the stream the accumulated frames are returned. *)
Lemma QueryChunkedData_EOF
    (strm : ClientStream bytes) (h h' : Heap) (m' : gmap string streamState) :
  openErr strm = None →
  final strm = EOF →
  receiveAll (messages strm) h ∅ = Ret (inl (h', m')) →
  QueryChunkedData strm h
  = Ret (Some (mkQueryDataResponse
                 ((λ state, mkDataResponse (frames state)) <$> m')), None, h').
Proof.
  intros Hopen Hfin Hacc. unfold datasourcetest.QueryChunkedData.
  rewrite Hopen, (recvLoop_receiveAll _ _ _ _ _ _ Hacc); simpl.
  destruct (decide _) as [_|?]; [reflexivity | contradiction].
Qed.

(** The frames of one refID are merged in the same way whether they come
    in one batch or in two. *)
Lemma framesLoop_app (h : Heap) (st : streamState) (frs1 frs2 : list bytes) :
  framesLoop h st (frs1 ++ frs2)
  = r ← framesLoop h st frs1;
    match r with
    | inr err => Ret (inr err)
    | inl (h', st') => framesLoop h' st' frs2
    end.
Proof.
  revert h st. induction frs1 as [|frame frs1 IH]; intros h st; simpl.
  - now destruct (datasourcetest.framesLoop _ _ _ _) as [[[h1 st1]|err]|].
  - destruct (datasourcetest.frameStep _ _ _ _) as [[[h1 st1]|err]|]; simpl;
      try reflexivity.
    apply IH.
Qed.

(** *** Frames without rows *)

Lemma hasRows_alloc (h : Heap) (f : Frame) (p : loc) :
  hasRows h p → hasRows (h ++ [f]) p.
Proof.
  intros (g & Hg & Hrows). exists g. split; [now apply lookup_app_l_Some | exact Hrows].
Qed.

Lemma stateHasRows_mono (h h' : Heap) (st : streamState) :
  (∀ p, hasRows h p → hasRows h' p) → stateHasRows h st → stateHasRows h' st.
Proof.
  intros Hmono [Hfr Hcur]. split.
  - eapply Forall_impl; eauto.
  - intros c Hc. eauto.
Qed.

Lemma mergeFields_Rows (cur fv : Frame) (fds : list Field) :
  Rows cur ≠ 0%nat → Rows fv ≠ 0%nat →
  mergeFields (Fields cur) (Fields fv) = Some fds →
  Rows (mkFrame (Name cur) (RefID cur) fds) ≠ 0%nat.
Proof.
  unfold Rows, Len; simpl.
  destruct (Fields fv) as [|field incoming]; [contradiction|].
  destruct (Fields cur) as [|c0 cur']; [contradiction|]; simpl.
  destruct (mergeFields cur' incoming) as [rest|]; simpl; [|discriminate].
  intros Hc _ [= <-]; simpl. rewrite length_app. lia.
Qed.

Lemma frameStep_hasRows (h h' : Heap) (st st' : streamState) (frame : bytes) :
  frameStep h st frame = Ret (inl (h', st')) →
  stateHasRows h st →
  stateHasRows h' st' ∧ ∀ p, hasRows h p → hasRows h' p.
Proof.
  unfold datasourcetest.frameStep, alloc, deref.
  destruct (UnmarshalArrowFrame frame) as [fv|err]; [|discriminate].
  destruct (decide _) as [Hz|Hnz].
  - intros [= <- <-] [Hfr Hcur]. split; [|apply hasRows_alloc].
    split; simpl; [|discriminate].
    eapply Forall_impl; [exact Hfr | apply hasRows_alloc].
  - destruct (curFrame st) as [c|] eqn:Hc.
    + intros Hres [Hfr Hcur].
      destruct (Hcur c Hc) as (cur & Hlook & Hrows).
      rewrite (lookup_app_l_Some _ _ _ _ Hlook) in Hres; simpl in Hres.
      destruct (mergeFields _ _) as [fds|] eqn:Hm; [|discriminate].
      injection Hres as <- <-.
      assert (∀ p, hasRows h p →
                   hasRows (<[c := mkFrame (Name cur) (RefID cur) fds]> (h ++ [fv])) p)
        as Hmono.
      { intros p (g & Hg & Hgr). destruct (decide (p = c)) as [->|Hne].
        - eexists. split.
          + apply list_lookup_insert_eq. rewrite length_app.
            apply lookup_lt_Some in Hlook. lia.
          + exact (mergeFields_Rows _ _ _ Hrows Hnz Hm).
        - exists g. rewrite list_lookup_insert_ne by congruence.
          split; [now apply lookup_app_l_Some | exact Hgr]. }
      split; [|exact Hmono].
      eapply stateHasRows_mono; [exact Hmono|]. now split.
    + intros [= <- <-] [Hfr _]. split; [|apply hasRows_alloc].
      assert (hasRows (h ++ [fv]) (length h)) as Hnew.
      { exists fv. split; [now apply list_lookup_middle | exact Hnz]. }
      split; simpl.
      * apply Forall_app. split; [|now repeat constructor].
        eapply Forall_impl; [exact Hfr | apply hasRows_alloc].
      * now intros c [= <-].
Qed.

Lemma framesLoop_hasRows (frs : list bytes) (h h' : Heap) (st st' : streamState) :
  framesLoop h st frs = Ret (inl (h', st')) →
  stateHasRows h st →
  stateHasRows h' st' ∧ ∀ p, hasRows h p → hasRows h' p.
Proof.
  revert h st. induction frs as [|frame frs IH]; intros h st; simpl.
  - intros [= <- <-]. auto.
  - destruct (datasourcetest.frameStep _ _ _ _) as [[[h1 st1]|err]|] eqn:Hs; simpl;
      try discriminate.
    intros Hrec Hst.
    destruct (frameStep_hasRows _ _ _ _ _ Hs Hst) as [Hst1 Hmono1].
    destruct (IH _ _ Hrec Hst1) as [Hst' Hmono]. auto.
Qed.

Lemma recvLoop_hasRows (msgs : list (ChunkedDataResponse bytes)) (fin : error)
    (h h' : Heap) (m : gmap string streamState)
    (resp : QueryDataResponse) (err : option error) :
  recvLoop msgs fin h m = Ret (Some resp, err, h') →
  (∀ refID st, m !! refID = Some st → stateHasRows h st) →
  ∀ refID d, Responses resp !! refID = Some d → Forall (hasRows h') (Frames d).
Proof.
  revert h m. induction msgs as [|sr msgs IH]; intros h m; simpl.
  - destruct (decide _) as [_|_]; [|discriminate].
    intros [= <- <- <-] Hinv refID d; simpl.
    rewrite lookup_fmap. destruct (m !! refID) as [st|] eqn:Hst; [|discriminate].
    intros [= <-]; simpl. exact (proj1 (Hinv _ _ Hst)).
  - destruct (datasourcetest.framesLoop _ _ _ _) as [[[h1 st1]|e]|] eqn:Hf; simpl;
      try discriminate.
    intros Hrec Hinv. apply (IH _ _ Hrec).
    assert (stateHasRows h (default zeroStream (m !! pluginv2.RefId sr))) as Hst.
    { destruct (m !! pluginv2.RefId sr) as [st|] eqn:Hst; simpl; [eauto|].
      split; [constructor | discriminate]. }
    destruct (framesLoop_hasRows _ _ _ _ _ Hf Hst) as [Hst1 Hmono].
    intros refID st. destruct (decide (refID = pluginv2.RefId sr)) as [->|Hne].
    + rewrite lookup_insert_eq. now intros [= <-].
    + rewrite lookup_insert_ne by congruence.
      intros Hl. eapply stateHasRows_mono; eauto.
Qed.

(** C10. The reassembler decides by the row count alone: a frame without
    rows, whatever its columns, clears the current frame of the refID
    and is not added to its frames; and no frame of a returned response
    has zero rows. *)
Theorem zero_row_frame_is_a_marker_and_is_dropped :
  (∀ (h : Heap) (st : streamState) (frame : bytes) (fv : Frame),
     UnmarshalArrowFrame frame = inl fv →
     Rows fv = 0%nat →
     frameStep h st frame = Ret (inl (h ++ [fv], mkStreamState (frames st) None)))
  ∧
  (∀ (strm : ClientStream bytes) (h h' : Heap) (resp : QueryDataResponse)
     (err : option error) (refID : string) (d : DataResponse) (p : loc),
     QueryChunkedData strm h = Ret (Some resp, err, h') →
     Responses resp !! refID = Some d →
     p ∈ Frames d →
     ∃ f, h' !! p = Some f ∧ Rows f ≠ 0%nat).
Proof.
  split.
  - intros h st frame fv Hu Hz. unfold datasourcetest.frameStep, alloc.
    rewrite Hu. destruct (decide _) as [_|?]; [reflexivity | contradiction].
  - intros strm h h' resp err refID d p. unfold datasourcetest.QueryChunkedData.
    destruct (openErr strm); [discriminate|].
    intros Hrun Hd Hp.
    assert (Forall (hasRows h') (Frames d)) as Hall.
    { eapply recvLoop_hasRows; [exact Hrun | | exact Hd].
      intros k st. rewrite lookup_empty. discriminate. }
    rewrite Forall_forall in Hall. exact (Hall p Hp).
Qed.

End ClientProperties.

(** ** The model on concrete inputs *)

Section Concrete.
Import Examples.

Lemma range_perm (m : gmap string backend.chunkingState) :
  range m ≡ₚ map_to_list m.
Proof. reflexivity. Qed.

(** The example writers are what the producer calls lead to. *)
Example oneFrame_reaches_writerA :
  oneFrame range = Ret (None, heapA, writerA).
Proof. vm_compute; reflexivity. Qed.

Example twoFrames_reaches_writerAB :
  twoFrames range = Ret (None, heapAB, writerAB).
Proof. vm_compute; reflexivity. Qed.

(** A row of one field for the open two-column frame of [A]. *)
Lemma WriteFrameRow_field_count_mismatch_witness :
  WriteFrameRow range "A" [VInt 1] heapA writerA
  = Ret (Some (ErrFieldCount 1 2), heapA, writerA).
Proof.
  apply (WriteFrameRow_field_count_mismatch MarshalArrow range range
           "A" [VInt 1] heapA writerA stateA 1%nat
           (mkFrame "a" "A" [col "x" [VInt 1]; col "y" [VInt 2]]));
    [vm_compute; reflexivity | reflexivity | reflexivity | simpl; lia].
Defined.

(** [WriteError] as the first call on a new writer. *)
Lemma WriteError_unknown_refID_panics_witness :
  WriteError range "A" (Some (ErrUser "boom")) backend.initHeap
             (backend.newChunkedDataWriter (backend.mkStream [] None))
  = Panic.
Proof.
  apply (WriteError_unknown_refID_panics MarshalArrow range range).
  vm_compute; reflexivity.
Defined.

(** [WriteFrameRow] as the first call on a new writer. *)
Lemma WriteFrameRow_unknown_refID_panics_witness :
  WriteFrameRow range "A" [VInt 1] backend.initHeap
                (backend.newChunkedDataWriter (backend.mkStream [] None))
  = Panic.
Proof.
  apply (WriteFrameRow_unknown_refID_panics MarshalArrow range range).
  vm_compute; reflexivity.
Defined.

(** C2, the claim refuted: the frame of [B] cannot be encoded, [flush]
    returns the error, and the batch of [A] is on the stream all the
    same, [range] having visited [A] first. *)
Lemma flush_not_atomic_counterexample :
  backend.marshalFrames MarshalArrow heapAB (backend.frames stateB) []
  = Ret (inr (ErrMarshal "columns differ in length")) ∧
  ∃ h' w', flush range heapAB writerAB
           = Ret (Some (ErrMarshal "columns differ in length"), h', w') ∧
           pluginv2.RefId <$> backend.sent (backend.stream w') = ["A"].
Proof.
  split; [vm_compute; reflexivity|].
  eexists _, _. split; [vm_compute; reflexivity | vm_compute; reflexivity].
Qed.

Lemma flush_marshal_failure_keeps_earlier_batches_witness :
  flush range heapAB writerAB
  = Ret (Some (ErrMarshal "columns differ in length"), heapAB,
         backend.mkWriter
           (backend.mkStream
              [pluginv2.mkResponse "A"
                 [NewFrame EmptyString [];
                  mkFrame "a" "A" [col "x" [VInt 1]; col "y" [VInt 2]]]
                 0 EmptyString EmptyString] None)
           (backend.states writerAB) (backend.count writerAB)) ∧
  ∃ batches,
    backend.sent
      (backend.mkStream
         [pluginv2.mkResponse "A"
            [NewFrame EmptyString [];
             mkFrame "a" "A" [col "x" [VInt 1]; col "y" [VInt 2]]]
            0 EmptyString EmptyString] None)
    = backend.sent (backend.stream writerAB) ++ batches ∧
    Forall2 (backend.batchOf MarshalArrow heapAB) [("A", stateA)] batches.
Proof.
  apply (flush_marshal_failure_keeps_earlier_batches MarshalArrow range range
           heapAB writerAB [("A", stateA)] [] "B" stateB);
    [vm_compute; discriminate | vm_compute; reflexivity
     | vm_compute; reflexivity | vm_compute; reflexivity].
Defined.

(** C3, the claim refuted: the current frame of [A] has two columns, the
    incoming frame has one; the step returns no error, and has appended
    to the first column only. *)
Lemma frameStep_partial_merge_counterexample :
  length (Fields oneColumn) ≠ length (Fields
    (mkFrame "a" "A" [col "x" [VInt 1]; col "y" [VInt 2]])) ∧
  datasourcetest.frameStep UnmarshalArrowFrame clientHeap clientState oneColumn
  = Ret (inl ([mkFrame "a" "A" [col "x" [VInt 1; VInt 9]; col "y" [VInt 2]];
               oneColumn],
              clientState)).
Proof.
  split; [simpl; lia | vm_compute; reflexivity].
Qed.

Lemma frameStep_merges_without_schema_check_witness :
  datasourcetest.frameStep UnmarshalArrowFrame clientHeap clientState oneColumn
  = Ret (inl (<[0%nat := mkFrame "a" "A"
                 (zip_with AppendAll
                    (take 1 [col "x" [VInt 1]; col "y" [VInt 2]])
                    [col "x" [VInt 9]]
                  ++ drop 1 [col "x" [VInt 1]; col "y" [VInt 2]])]>
               (clientHeap ++ [oneColumn]),
              clientState)).
Proof.
  apply (frameStep_merges_without_schema_check UnmarshalArrowFrame
           clientHeap clientState oneColumn oneColumn
           (mkFrame "a" "A" [col "x" [VInt 1]; col "y" [VInt 2]]) 0%nat);
    [reflexivity | vm_compute; discriminate | reflexivity | reflexivity
     | simpl; lia].
Defined.

(** With three columns for the two of the current frame, the step
    panics. *)
Example frameStep_more_columns :
  datasourcetest.frameStep UnmarshalArrowFrame clientHeap clientState threeColumns
  = Panic.
Proof. vm_compute; reflexivity. Qed.

(** C6, the claim refuted: one batch with a one-row frame for [A] has
    been merged when the stream is cancelled, and the call returns nil
    for the response. *)
Lemma QueryChunkedData_cancelled_counterexample :
  (∃ h' m' st, datasourcetest.receiveAll UnmarshalArrowFrame
                 (datasourcetest.messages cancelled) [] ∅ = Ret (inl (h', m')) ∧
               m' !! "A" = Some st ∧ datasourcetest.frames st ≠ []) ∧
  ¬ ∃ resp err h', datasourcetest.QueryChunkedData UnmarshalArrowFrame cancelled []
                   = Ret (Some resp, err, h').
Proof.
  split.
  - eexists _, _, _. split; [vm_compute; reflexivity|].
    split; [vm_compute; reflexivity | discriminate].
  - intros (resp & err & h' & H). vm_compute in H. discriminate.
Qed.

Lemma QueryChunkedData_recv_error_returns_nil_witness :
  datasourcetest.QueryChunkedData UnmarshalArrowFrame cancelled []
  = Ret (None, Some (ErrTransport "context canceled"),
         [NewFrame EmptyString []; oneColumn]).
Proof.
  apply (QueryChunkedData_recv_error_returns_nil UnmarshalArrowFrame
           cancelled [] [NewFrame EmptyString []; oneColumn]
           {[ "A" := datasourcetest.mkStreamState [1%nat] (Some 1%nat) ]});
    [reflexivity | discriminate | vm_compute; reflexivity].
Defined.

(** A two-column frame without rows arrives while a frame is open; and
    the frames returned for [A] at the end of the interleaved stream. *)
Lemma zero_row_frame_is_a_marker_and_is_dropped_witness :
  datasourcetest.frameStep UnmarshalArrowFrame clientHeap clientState noRows
  = Ret (inl (clientHeap ++ [noRows],
              datasourcetest.mkStreamState [0%nat] None))
  ∧ ∃ f, [NewFrame EmptyString []; oneColumn] !! 1%nat = Some f ∧
         Rows f ≠ 0%nat.
Proof.
  split.
  - apply (proj1 (zero_row_frame_is_a_marker_and_is_dropped UnmarshalArrowFrame)
             clientHeap clientState noRows noRows);
      reflexivity.
  - apply (proj2 (zero_row_frame_is_a_marker_and_is_dropped UnmarshalArrowFrame)
             (datasourcetest.mkClientStream None
                (datasourcetest.messages cancelled) EOF)
             [] [NewFrame EmptyString []; oneColumn]
             (datasourcetest.mkQueryDataResponse
                {[ "A" := datasourcetest.mkDataResponse [1%nat] ]})
             None "A" (datasourcetest.mkDataResponse [1%nat]) 1%nat);
      [vm_compute; reflexivity | vm_compute; reflexivity
       | simpl; apply list_elem_of_here].
Defined.

(** C1, the scenario that breaks the round trip.  [A] gets one table of
    five rows; the second flush, set off by [B], sends the empty copy
    of the open frame of [A], which has no rows; the reassembler takes it
    for a marker, and returns the rows of [A] as two tables, of three
    and of two rows.  The order in which [flush] visits the two states
    makes no difference. *)
Theorem interleaved_table_is_split :
  received "A" (interleaved range)
  = Ret (Some [Some (mkFrame "a" "A" [col "v" [VInt 1; VInt 2; VInt 3]]);
               Some (mkFrame "a" "A" [col "v" [VInt 4; VInt 5]])],
         None)
  ∧ received "A" (interleaved rangeRev) = received "A" (interleaved range).
Proof. split; vm_compute; reflexivity. Qed.

(** The scenario of one table of 1500 rows: two batches are sent, the
    first with the marker and a thousand rows, the second with five
    hundred rows and no marker, and the reassembler returns one table. *)
Example longTable_batches :
  ('(_, _, w) ← longTable range;
   Ret ((λ r, (pluginv2.RefId r,
               (λ f, (length (Fields f), Rows f)) <$> pluginv2.Frames r))
        <$> backend.sent (backend.stream w)))
  = Ret [("A", [(0, 0); (1, 1000)]); ("A", [(1, 500)])]%nat.
Proof. vm_compute; reflexivity. Qed.

Example longTable_received :
  received "A" (longTable range)
  = Ret (Some [Some (mkFrame "a" "A" [col "v" (repeat (VInt 0) 1500)])], None).
Proof. vm_compute; reflexivity. Qed.

End Concrete.

(** ** Further properties of the writer *)

Section WriterExtras.
Import backend.
Context {bytes : Type}.
Variable MarshalArrow : Frame → bytes + error.
Variable rangeSend rangeReset :
  gmap string chunkingState → list (string * chunkingState).
Hypothesis rangeSend_perm : ∀ m, rangeSend m ≡ₚ map_to_list m.
Hypothesis rangeReset_perm : ∀ m, rangeReset m ≡ₚ map_to_list m.

Local Abbreviation flush := (flush MarshalArrow rangeSend rangeReset).
Local Abbreviation maybeFlush := (maybeFlush MarshalArrow rangeSend rangeReset).
Local Abbreviation WriteFrame := (WriteFrame MarshalArrow rangeSend rangeReset).
Local Abbreviation WriteFrameRow := (WriteFrameRow MarshalArrow rangeSend rangeReset).
Local Abbreviation WriteError := (WriteError MarshalArrow rangeSend rangeReset).
Local Abbreviation Close := (Close MarshalArrow rangeSend rangeReset).
Local Abbreviation reachable := (reachable MarshalArrow rangeSend rangeReset).

Lemma flush_success_inv (h h' : Heap) (w w' : chunkedDataWriter bytes) :
  count w ≠ 0 →
  flush h w = Ret (None, h', w') →
  sendLoop MarshalArrow h (rangeSend (states w)) (stream w) = Ret (stream w', None) ∧
  resetLoop h (rangeReset (states w)) (states w) = Ret (h', states w') ∧
  count w' = 0.
Proof.
  intros Hcount. unfold backend.flush.
  destruct (decide _) as [?|_]; [contradiction|].
  destruct (sendLoop _ _ _ _) as [[strm [e1|]]|]; simpl; try discriminate.
  destruct (resetLoop _ _ _) as [[h1 sts]|]; simpl; [|discriminate].
  intros [= <- <-]. auto.
Qed.

Lemma flush_error_inv (h h' : Heap) (w w' : chunkedDataWriter bytes) (e : error) :
  flush h w = Ret (Some e, h', w') →
  count w ≠ 0 ∧
  sendLoop MarshalArrow h (rangeSend (states w)) (stream w) = Ret (stream w', Some e) ∧
  h' = h ∧ states w' = states w ∧ count w' = count w.
Proof.
  unfold backend.flush. destruct (decide _) as [?|Hnz]; [discriminate|].
  destruct (sendLoop _ _ _ _) as [[strm [e1|]]|]; simpl; try discriminate.
  - intros [= <- <- <-]. auto.
  - destruct (resetLoop _ _ _) as [[h1 sts]|]; simpl; discriminate.
Qed.

(** X1. A flush that returns an error resets nothing: the heap, the
    states and the count are as before the call, so that all frames are
    still pending; what had been sent before stays sent. *)
Theorem flush_error_keeps_everything_pending
    (h h' : Heap) (w w' : chunkedDataWriter bytes) (e : error) :
  flush h w = Ret (Some e, h', w') →
  h' = h ∧ states w' = states w ∧ count w' = count w ∧
  sent (stream w) `prefix_of` sent (stream w').
Proof.
  intros (_ & Hsend & -> & -> & ->)%flush_error_inv.
  repeat split; auto.
  destruct (sendLoop_sent _ _ _ _ _ _ Hsend) as (_ & batches & -> & _).
  now apply prefix_app_r.
Qed.

(** X2. After a flush that returned no error, a second flush (or [Close])
    sends nothing and changes nothing. *)
Theorem flush_after_flush_is_noop
    (h h' : Heap) (w w' : chunkedDataWriter bytes) :
  flush h w = Ret (None, h', w') →
  Close h' w' = Ret (None, h', w').
Proof.
  intros Hflush. unfold backend.Close.
  destruct (decide (count w = 0)) as [Hz|Hnz].
  - unfold backend.flush in Hflush.
    destruct (decide (count w = 0)) as [_|?] in Hflush; [|contradiction].
    injection Hflush as <- <-.
    unfold backend.flush. now destruct (decide (count w = 0)).
  - apply flush_success_inv in Hflush as (_ & _ & Hc); [|exact Hnz].
    unfold backend.flush. now destruct (decide _).
Qed.

(** X3. After a [WriteFrame] or a [WriteFrameRow] that returns no error the
    count is below [maxBatchSize]: a count at or above the threshold is
    never carried to the next call unless a flush failed. *)
Theorem write_leaves_count_below_threshold :
  (∀ (refID : string) (f : option loc) (h h' : Heap)
     (w w' : chunkedDataWriter bytes),
     WriteFrame refID f h w = Ret (None, h', w') → count w' < maxBatchSize) ∧
  (∀ (refID : string) (fields : list value) (h h' : Heap)
     (w w' : chunkedDataWriter bytes),
     WriteFrameRow refID fields h w = Ret (None, h', w') → count w' < maxBatchSize).
Proof.
  assert (∀ h h' (w w' : chunkedDataWriter bytes),
            maybeFlush h w = Ret (None, h', w') → count w' < maxBatchSize) as Hmaybe.
  { intros h h' w w'. unfold backend.maybeFlush.
    destruct (decide _) as [Hlt|Hge]; [now intros [= <- <-]|].
    intros (_ & _ & ->)%flush_success_inv; [reflexivity|].
    unfold maxBatchSize in Hge. lia. }
  split.
  - intros refID f h h' w w'. unfold backend.WriteFrame.
    destruct f as [p|]; simpl; [|discriminate].
    destruct (deref h p) as [fr|]; simpl; [|discriminate]. apply Hmaybe.
  - intros refID fields h h' w w'. unfold backend.WriteFrameRow.
    destruct (addRow _ _ _) as [[[e1|] h1]|]; simpl; try discriminate.
    apply Hmaybe.
Qed.

(** *** Rows below the threshold *)

Lemma appendVals_zip (fds : list Field) (vals : list value) :
  length vals = length fds →
  appendVals fds vals = Some (zip_with Append fds vals).
Proof.
  revert fds. induction vals as [|v vals IH]; intros [|fd fds] Hlen;
    simpl in *; try discriminate; try reflexivity.
  rewrite IH by lia. reflexivity.
Qed.

Lemma Fields_appendRowValues (f : Frame) (fields : list value) :
  length fields = length (Fields f) →
  length (Fields (producer.appendRowValues f fields)) = length (Fields f).
Proof.
  intros Hlen. simpl. rewrite length_zip_with. lia.
Qed.

Lemma Fields_appendRows (f : Frame) (rows : list (list value)) :
  Forall (λ r, length r = length (Fields f)) rows →
  length (Fields (foldl producer.appendRowValues f rows)) = length (Fields f).
Proof.
  revert f. induction rows as [|r rows IH]; intros f Hall; simpl; [reflexivity|].
  apply Forall_cons in Hall as [Hr Hall].
  rewrite IH; rewrite Fields_appendRowValues by exact Hr; [reflexivity|exact Hall].
Qed.

Lemma Rows_appendRows (f : Frame) (rows : list (list value)) :
  Fields f ≠ [] →
  Forall (λ r, length r = length (Fields f)) rows →
  Rows (foldl producer.appendRowValues f rows) = (Rows f + length rows)%nat.
Proof.
  revert f. induction rows as [|r rows IH]; intros f Hne Hall; simpl; [lia|].
  apply Forall_cons in Hall as [Hr Hall].
  assert (length (Fields (producer.appendRowValues f r)) = length (Fields f)) as Hlen
    by now apply Fields_appendRowValues.
  rewrite IH.
  - unfold Rows, Len; simpl.
    destruct (Fields f) as [|fd fds]; [contradiction|].
    destruct r as [|v r]; [discriminate|]. simpl. rewrite length_app; simpl. lia.
  - intros Hnil. rewrite Hnil in Hlen. destruct (Fields f); [contradiction | discriminate].
  - now rewrite Hlen.
Qed.

Lemma wrap64_small (z : Z) : - 2 ^ 63 ≤ z < 2 ^ 63 → wrap64 z = z.
Proof.
  intros Hz. unfold wrap64. rewrite Z.mod_small; lia.
Qed.

Lemma WriteFrameRows_below_threshold
    (refID : string) (rows : list (list value)) (h : Heap)
    (w : chunkedDataWriter bytes) (st : chunkingState) (p : loc) (cur : Frame) :
  states w !! refID = Some st →
  curFrame st = Some p →
  h !! p = Some cur →
  Forall (λ r, length r = length (Fields cur)) rows →
  0 ≤ count w →
  count w + Z.of_nat (length rows) < maxBatchSize →
  producer.WriteFrameRows MarshalArrow rangeSend rangeReset refID rows h w
  = Ret (None, <[p := foldl producer.appendRowValues cur rows]> h,
         mkWriter (stream w) (states w) (count w + Z.of_nat (length rows))).
Proof.
  revert h w cur. induction rows as [|r rows IH]; intros h w cur Hst Hcur Hp Hall H0 Hlt.
  - simpl. rewrite list_insert_id by exact Hp. rewrite Z.add_0_r. now destruct w.
  - apply Forall_cons in Hall as [Hr Hall].
    rewrite length_cons, Nat2Z.inj_succ in Hlt |- *.
    cbn [producer.WriteFrameRows]. unfold backend.WriteFrameRow, addRow, deref.
    rewrite Hst, Hcur; simpl. rewrite Hp; simpl.
    destruct (decide _) as [?|_]; [contradiction|].
    unfold AppendRow. rewrite appendVals_zip by exact Hr. simpl.
    unfold maxBatchSize in *. rewrite wrap64_small by lia.
    unfold backend.maybeFlush; simpl. unfold maxBatchSize.
    destruct (decide _) as [_|?]; [|lia]. simpl.
    fold (producer.appendRowValues cur r).
    rewrite (IH _ _ (producer.appendRowValues cur r)); simpl; auto; try lia.
    + rewrite list_insert_insert_eq.
      now replace (count w + 1 + Z.of_nat (length rows))
        with (count w + Z.succ (Z.of_nat (length rows))) by lia.
    + apply list_lookup_insert_eq. now apply lookup_lt_Some in Hp.
    + rewrite length_zip_with. rewrite Hr, Nat.min_id.
      exact Hall.
Qed.

(** X4. [WriteFrame] followed by rows, all below the threshold: nothing is
    sent; the state of the refID, made on first use, gets the marker and
    the frame at the end of its frames, with the frame as current frame;
    the frame has the refID assigned and holds the rows in the order of
    the calls; the count has grown by the rows of the frame and by one
    per call. *)
Theorem WriteFrame_then_rows_are_buffered
    (refID : string) (p : loc) (fr : Frame) (rows : list (list value))
    (h : Heap) (w : chunkedDataWriter bytes) :
  h !! p = Some fr →
  Forall (λ r, length r = length (Fields fr)) rows →
  0 ≤ count w →
  count w + Z.of_nat (Rows fr) + Z.of_nat (length rows) < maxBatchSize →
  ('(_, h1, w1) ← WriteFrame refID (Some p) h w;
   producer.WriteFrameRows MarshalArrow rangeSend rangeReset refID rows h1 w1)
  = Ret (None,
         <[p := foldl producer.appendRowValues (setRefID refID fr) rows]> h,
         mkWriter (stream w)
           (<[refID := addFrame (default zeroState (states w !! refID)) p]> (states w))
           (count w + Z.of_nat (Rows fr) + Z.of_nat (length rows)))
  ∧ (Fields fr ≠ [] →
     Rows (foldl producer.appendRowValues (setRefID refID fr) rows)
     = (Rows fr + length rows)%nat).
Proof.
  intros Hp Hall H0 Hlt. split; [|intros Hne; now rewrite Rows_appendRows].
  unfold backend.WriteFrame, deref; simpl. rewrite Hp; simpl.
  unfold maxBatchSize in *. rewrite wrap64_small by lia.
  unfold backend.maybeFlush; simpl. unfold maxBatchSize.
  destruct (decide _) as [_|?]; [|lia]. simpl.
  erewrite WriteFrameRows_below_threshold; simpl.
  - rewrite list_insert_insert_eq. reflexivity.
  - apply lookup_insert_eq.
  - reflexivity.
  - apply list_lookup_insert_eq. now apply lookup_lt_Some in Hp.
  - exact Hall.
  - lia.
  - unfold maxBatchSize. lia.
Qed.

(** *** [WriteError] *)

Lemma resetLoop_clears_Error (kvs : list (string * chunkingState)) (h h' : Heap)
    (sts sts' : gmap string chunkingState) :
  resetLoop h kvs sts = Ret (h', sts') →
  (∀ k st, sts !! k = Some st → k ∈ kvs.*1 ∨ Error st = None) →
  ∀ k st', sts' !! k = Some st' → Error st' = None.
Proof.
  revert h sts. induction kvs as [|[k0 state] kvs IH]; intros h sts; simpl.
  - intros [= _ <-] Hsts k st' Hst'.
    destruct (Hsts _ _ Hst') as [Hin|Hno]; [inversion Hin | exact Hno].
  - destruct (reset h state) as [[h1 state1]|] eqn:Hr; simpl; [|discriminate].
    intros Hrec Hsts. apply (IH _ _ Hrec). intros k st.
    destruct (decide (k0 = k)) as [->|Hne].
    + rewrite lookup_insert_eq. intros [= <-]. right.
      apply reset_inv in Hr. destruct (curFrame state) as [p|].
      * now destruct Hr as (cur & _ & _ & ->).
      * now destruct Hr as [_ ->].
    + rewrite lookup_insert_ne by exact Hne. intros Hst.
      destruct (Hsts _ _ Hst) as [Hin|Hno]; [left | now right].
      apply elem_of_cons in Hin as [?|Hin]; [congruence | exact Hin].
Qed.

(** X5. [WriteError] for a refID that the writer knows, when it returns
    no error, has flushed all states: for every refID of the writer one
    batch has been sent, which is the encoding of all its pending frames
    in their order, as the heap has them at the call, with the status and
    the error source of its state; the batch of the refID of the call
    carries the text of the error, every other batch the text of the
    error of its own state; afterwards the count is zero and no state
    holds an error any more. *)
Theorem WriteError_flushes_every_state
    (refID : string) (err : option error) (h h' : Heap)
    (w w' : chunkedDataWriter bytes) :
  is_Some (states w !! refID) →
  0 ≤ count w < 2 ^ 63 - 1 →
  WriteError refID err h w = Ret (None, h', w') →
  ∃ batches,
    sent (stream w') = sent (stream w) ++ batches ∧
    length batches = size (states w) ∧
    (∀ k st, states w !! k = Some st →
       ∃ resp, resp ∈ batches ∧ pluginv2.RefId resp = k ∧
               Forall2 (λ p b, ∃ f, h !! p = Some f ∧ MarshalArrow f = inl b)
                       (frames st) (pluginv2.Frames resp) ∧
               pluginv2.Status resp = int32 (Status st) ∧
               pluginv2.ErrorSource resp = ErrorSource st ∧
               pluginv2.Error resp
               = from_option error_string EmptyString
                   (if decide (k = refID) then err else Error st)) ∧
    count w' = 0 ∧
    (∀ k st', states w' !! k = Some st' → Error st' = None).
Proof.
  intros [st0 Hst0] Hcount. unfold backend.WriteError. rewrite Hst0.
  set (st1 := mkState (frames st0) (curFrame st0) err (Status st0) (ErrorSource st0)).
  set (w1 := mkWriter (stream w) (<[refID := st1]> (states w)) (wrap64 (count w + 1))).
  intros Hflush.
  assert (count w1 ≠ 0) as Hnz.
  { simpl. rewrite wrap64_small by lia. lia. }
  destruct (flush_success_inv _ _ _ _ Hnz Hflush) as (Hsend & Hreset & Hc).
  destruct (sendLoop_sent _ _ _ _ _ _ Hsend)
    as (visited & batches & Hsent & _ & Hall & Hnone).
  rewrite (Hnone eq_refl) in Hall.
  exists batches. split; [exact Hsent|]. split; [|split; [|split; [exact Hc|]]].
  - rewrite <- (Forall2_length _ _ _ Hall), (rangeSend_perm (states w1)).
    rewrite length_map_to_list. simpl.
    apply map_size_insert_Some. eauto.
  - intros k st Hk.
    assert (∃ st', (k, st') ∈ rangeSend (states w1) ∧ frames st' = frames st ∧
                   Status st' = Status st ∧ ErrorSource st' = ErrorSource st ∧
                   Error st' = (if decide (k = refID) then err else Error st))
      as (st' & Hin & Hfr & Hstatus & Hsource & Herr).
    { destruct (decide (k = refID)) as [->|Hne].
      - assert (st = st0) as -> by congruence.
        exists st1. split; [|auto].
        apply (range_elem_of rangeSend); [apply rangeSend_perm|].
        simpl. apply lookup_insert_eq.
      - exists st. split; [|auto].
        apply (range_elem_of rangeSend); [apply rangeSend_perm|].
        simpl. now rewrite lookup_insert_ne. }
    apply list_elem_of_lookup in Hin as [i Hi].
    destruct (Forall2_lookup_l _ _ _ _ _ Hall Hi) as (resp & Hresp & Hb).
    destruct Hb as (Hid & Hm & Hs & He & Hes). simpl in *.
    exists resp. split; [eapply list_elem_of_lookup_2, Hresp|].
    split; [exact Hid|].
    split; [rewrite <- Hfr; now apply (marshalFrames_encodes MarshalArrow)|].
    split; [now rewrite <- Hstatus|]. split; [now rewrite <- Hsource|].
    now rewrite <- Herr.
  - apply (resetLoop_clears_Error _ _ _ _ _ Hreset).
    intros k st Hk. left. apply list_elem_of_fmap. exists (k, st).
    split; [reflexivity|]. now apply (range_elem_of rangeReset).
Qed.

(** *** Frames that were flushed *)

Lemma resetLoop_currentAbove (kvs : list (string * chunkingState)) (h h' : Heap)
    (sts sts' : gmap string chunkingState) (base : nat) :
  resetLoop h kvs sts = Ret (h', sts') →
  (base ≤ length h)%nat →
  (∀ k st q, sts !! k = Some st → curFrame st = Some q →
             k ∈ kvs.*1 ∨ (base ≤ q)%nat) →
  currentAbove base sts'.
Proof.
  revert h sts. induction kvs as [|[k0 state] kvs IH]; intros h sts; simpl.
  - intros [= _ <-] _ Hsts k st q Hst Hq.
    destruct (Hsts _ _ _ Hst Hq) as [Hin|Hle]; [inversion Hin | exact Hle].
  - destruct (reset h state) as [[h1 state1]|] eqn:Hr; simpl; [|discriminate].
    intros Hrec Hbase Hsts.
    pose proof (prefix_length _ _ (reset_prefix _ _ _ _ Hr)) as Hle.
    apply (IH _ _ Hrec); [lia|]. intros k st q.
    destruct (decide (k0 = k)) as [->|Hne].
    + rewrite lookup_insert_eq. intros [= <-] Hq. right.
      apply reset_inv in Hr. destruct (curFrame state) as [p|].
      * destruct Hr as (cur & _ & _ & ->). simpl in Hq. injection Hq as <-. lia.
      * destruct Hr as [_ ->]. discriminate.
    + rewrite lookup_insert_ne by exact Hne. intros Hst Hq.
      destruct (Hsts _ _ _ Hst Hq) as [Hin|Hno]; [left | now right].
      apply elem_of_cons in Hin as [?|Hin]; [congruence | exact Hin].
Qed.

Lemma flush_take (h h' : Heap) (w w' : chunkedDataWriter bytes) (e : option error)
    (base : nat) :
  flush h w = Ret (e, h', w') →
  (base ≤ length h)%nat →
  currentAbove base (states w) →
  take base h' = take base h ∧ (base ≤ length h')%nat ∧
  currentAbove base (states w').
Proof.
  intros Hflush Hbase Hcur. destruct e as [e|].
  - apply flush_error_inv in Hflush as (_ & _ & -> & -> & _). auto.
  - destruct (decide (count w = 0)) as [Hz|Hnz].
    + unfold backend.flush in Hflush.
      destruct (decide (count w = 0)) in Hflush; [|contradiction].
      injection Hflush as <- <-. auto.
    + apply flush_success_inv in Hflush as (_ & Hreset & _); [|exact Hnz].
      pose proof (resetLoop_prefix _ _ _ _ _ Hreset) as [l ->].
      split; [|split].
      * rewrite take_app_le by exact Hbase. reflexivity.
      * rewrite length_app. lia.
      * eapply resetLoop_currentAbove; [exact Hreset | exact Hbase|].
        intros k st q Hst Hq. right. eapply Hcur; eauto.
Qed.

Lemma WriteFrameRow_take (refID : string) (fields : list value) (h h' : Heap)
    (w w' : chunkedDataWriter bytes) (e : option error) (base : nat) :
  WriteFrameRow refID fields h w = Ret (e, h', w') →
  (base ≤ length h)%nat →
  currentAbove base (states w) →
  take base h' = take base h ∧ (base ≤ length h')%nat ∧
  currentAbove base (states w').
Proof.
  unfold backend.WriteFrameRow. intros Hop Hbase Hcur.
  destruct (addRow h (states w !! refID) fields) as [[e1 h1]|] eqn:Hadd;
    simpl in Hop; [|discriminate].
  assert (take base h1 = take base h ∧ length h1 = length h) as [Htake Hlen].
  { unfold addRow, deref in Hadd.
    destruct (states w !! refID) as [st|] eqn:Hst; [|discriminate].
    destruct (curFrame st) as [p|] eqn:Hp; [|now injection Hadd as _ <-].
    destruct (h !! p) as [cur|]; simpl in Hadd; [|discriminate].
    destruct (decide _); [now injection Hadd as _ <-|].
    destruct (AppendRow cur fields); [|discriminate].
    injection Hadd as _ <-. split; [|apply length_insert].
    apply take_insert_ge. eapply Hcur; eauto. }
  destruct e1 as [e1|].
  - injection Hop as <- <- <-. split; [exact Htake|]. split; [lia | exact Hcur].
  - unfold backend.maybeFlush in Hop. destruct (decide _) in Hop.
    + injection Hop as <- <- <-. split; [exact Htake|]. split; [lia | exact Hcur].
    + apply (flush_take _ _ _ _ _ base) in Hop as (Ht & Hl & Hc); simpl; auto; [|lia].
      split; [congruence | auto].
Qed.

Lemma WriteFrameRows_take (refID : string) (rows : list (list value)) (h h' : Heap)
    (w w' : chunkedDataWriter bytes) (e : option error) (base : nat) :
  producer.WriteFrameRows MarshalArrow rangeSend rangeReset refID rows h w
  = Ret (e, h', w') →
  (base ≤ length h)%nat →
  currentAbove base (states w) →
  take base h' = take base h.
Proof.
  revert h w. induction rows as [|r rows IH]; intros h w; simpl.
  - now intros [= <- <- <-].
  - destruct (backend.WriteFrameRow _ _ _ _ _ _ _) as [[[e1 h1] w1]|] eqn:Hop;
      simpl; [|discriminate].
    intros Hrec Hbase Hcur.
    destruct (WriteFrameRow_take _ _ _ _ _ _ _ _ Hop Hbase Hcur) as (Ht & Hl & Hc).
    destruct e1 as [e1|]; [now injection Hrec as <- <- <-|].
    rewrite <- Ht. eapply IH; eauto.
Qed.

(** X6. The frames that a flush has sent are not written again: after a
    flush with a nonzero count that returned no error, whatever rows are
    written next for a refID, and whatever flushes they set off,
    every frame that was on the heap before the flush is as it was; the
    rows go to the empty copies that the flushes have made. *)
Theorem flushed_frames_are_not_written_again
    (refID : string) (rows : list (list value)) (h h1 h2 : Heap)
    (w w1 w2 : chunkedDataWriter bytes) (e : option error) :
  count w ≠ 0 →
  flush h w = Ret (None, h1, w1) →
  producer.WriteFrameRows MarshalArrow rangeSend rangeReset refID rows h1 w1
  = Ret (e, h2, w2) →
  h `prefix_of` h2.
Proof.
  intros Hnz Hflush Hrows.
  apply flush_success_inv in Hflush as (_ & Hreset & _); [|exact Hnz].
  pose proof (resetLoop_prefix _ _ _ _ _ Hreset) as Hpre.
  assert (currentAbove (length h) (states w1)) as Hcur.
  { eapply resetLoop_currentAbove; [exact Hreset | lia|].
    intros k st q Hst Hq. left. apply list_elem_of_fmap. exists (k, st).
    split; [reflexivity|]. now apply (range_elem_of rangeReset). }
  pose proof (WriteFrameRows_take _ _ _ _ _ _ _ _ Hrows
                (prefix_length _ _ Hpre) Hcur) as Htake.
  destruct Hpre as [l ->]. rewrite take_app_length in Htake.
  rewrite <- Htake. apply prefix_take.
Qed.

(** *** What a producer can reach *)

(** X7. Whatever calls a producer has made, every state of the writer has
    a current frame, which is the last of its frames, and all its frames
    are allocated: no refID that the writer knows is without frames, and
    [WriteFrameRow] for a known refID finds a frame to write to. *)
Theorem reachable_state_has_current_frame
    (h : Heap) (w : chunkedDataWriter bytes) (refID : string) (st : chunkingState) :
  reachable h w →
  states w !! refID = Some st →
  ∃ p cur, curFrame st = Some p ∧ last (frames st) = Some p ∧
           h !! p = Some cur ∧
           Forall (λ q, is_Some (h !! q)) (frames st).
Proof.
  intros Hr Hst.
  destruct (reachable_statesOpen _ _ _ rangeReset_perm _ _ Hr) as [_ Hsts].
  pose proof (Hsts _ _ Hst) as Hopen.
  destruct Hopen as (p & Hcur & Hlast & Hall).
  destruct (stateOpen_curFrame h st p) as [cur Hp]; [now exists p | exact Hcur|].
  exists p, cur. repeat split; auto.
  eapply Forall_impl; [exact Hall|]. intros q. apply lookup_lt_is_Some_2.
Qed.

(** X8. On what a producer can reach no call panics except for the
    reasons that the arguments show: [Close] returns, [WriteFrameRow]
    and [WriteError] return for every refID that the writer knows, and
    [WriteFrame] returns for every allocated frame. *)
Theorem reachable_calls_return (h : Heap) (w : chunkedDataWriter bytes) :
  reachable h w →
  (∃ r, Close h w = Ret r) ∧
  (∀ refID fields, is_Some (states w !! refID) →
     ∃ r, WriteFrameRow refID fields h w = Ret r) ∧
  (∀ refID err, is_Some (states w !! refID) →
     ∃ r, WriteError refID err h w = Ret r) ∧
  (∀ refID p, is_Some (h !! p) →
     ∃ r, WriteFrame refID (Some p) h w = Ret r).
Proof.
  intros Hr.
  destruct (reachable_statesOpen _ _ _ rangeReset_perm _ _ Hr) as [Hpos Hsts].
  split; [|split; [|split]].
  - now apply (flush_returns _ _ _ rangeSend_perm rangeReset_perm).
  - intros refID fields Hknown.
    now apply (reachable_WriteFrameRow_returns _ _ _ rangeSend_perm rangeReset_perm).
  - intros refID err [st Hst]. unfold backend.WriteError. rewrite Hst.
    apply (flush_returns _ _ _ rangeSend_perm rangeReset_perm). simpl.
    apply statesOpen_insert; [|exact Hsts].
    destruct (Hsts _ _ Hst) as (p & Hcur & Hlast & Hall). now exists p.
  - intros refID p [fr Hp]. unfold backend.WriteFrame, deref; simpl.
    rewrite Hp; simpl. unfold backend.maybeFlush. destruct (decide _); [eauto|].
    apply (flush_returns _ _ _ rangeSend_perm rangeReset_perm). simpl.
    apply statesOpen_insert.
    + exists p. simpl. split; [reflexivity|]. split; [now rewrite last_app|].
      apply lookup_lt_Some in Hp. rewrite length_insert.
      apply Forall_app. split; [|repeat constructor; unfold markerFrame; lia].
      destruct (states w !! refID) as [st|] eqn:Hst; simpl; [|constructor].
      now destruct (Hsts _ _ Hst) as (_ & _ & _ & Hall).
    + eapply statesOpen_mono; [|exact Hsts]. now rewrite length_insert.
Qed.

End WriterExtras.



(** ** The further properties of the writer on concrete inputs *)

Section ConcreteWriterExtras.
Import Examples.

Lemma reachable_writerA : backend.reachable MarshalArrow range range heapA writerA.
Proof.
  eapply (backend.reach_WriteFrame MarshalArrow range range
            (backend.initHeap ++ [NewFrame "a" [col "x" [VInt 1]; col "y" [VInt 2]]])
            (backend.newChunkedDataWriter (backend.mkStream [] None))
            "A" (Some 1%nat) None).
  - apply backend.reach_alloc, backend.reach_new.
  - vm_compute; reflexivity.
Qed.

(** The flush of [writerAB], which fails at the frame of [B]. *)
Lemma flush_error_keeps_everything_pending_witness :
  ∃ h' w',
    flush range heapAB writerAB
    = Ret (Some (ErrMarshal "columns differ in length"), h', w') ∧
    h' = heapAB ∧ backend.states w' = backend.states writerAB ∧
    backend.count w' = backend.count writerAB ∧
    backend.sent (backend.stream writerAB) `prefix_of` backend.sent (backend.stream w').
Proof.
  eexists _, _. split; [vm_compute; reflexivity|].
  eapply (flush_error_keeps_everything_pending MarshalArrow range range
           heapAB _ writerAB _ (ErrMarshal "columns differ in length")).
  vm_compute; reflexivity.
Defined.

(** [Close] after the flush of [writerA]. *)
Lemma flush_after_flush_is_noop_witness :
  ∃ h' w', flush range heapA writerA = Ret (None, h', w') ∧
           Close range h' w' = Ret (None, h', w').
Proof.
  eexists _, _. split; [vm_compute; reflexivity|].
  eapply (flush_after_flush_is_noop MarshalArrow range range heapA _ writerA _).
  vm_compute; reflexivity.
Defined.

(** The [WriteFrame] that leads to [writerA], and a row for it. *)
Lemma write_leaves_count_below_threshold_witness :
  backend.count writerA < backend.maxBatchSize ∧
  ∃ h' w', WriteFrameRow range "A" [VInt 3; VInt 4] heapA writerA
           = Ret (None, h', w') ∧
           backend.count w' < backend.maxBatchSize.
Proof.
  split.
  - apply (proj1 (write_leaves_count_below_threshold MarshalArrow range range)
             "A" (Some 1%nat)
             (backend.initHeap ++ [NewFrame "a" [col "x" [VInt 1]; col "y" [VInt 2]]])
             heapA (backend.newChunkedDataWriter (backend.mkStream [] None)) writerA).
    vm_compute; reflexivity.
  - eexists _, _. split; [vm_compute; reflexivity|].
    eapply (proj2 (write_leaves_count_below_threshold MarshalArrow range range)
             "A" [VInt 3; VInt 4] heapA _ writerA _).
    vm_compute; reflexivity.
Defined.

(** A new two-column frame for [A] and two rows. *)
Lemma WriteFrame_then_rows_are_buffered_witness :
  ('(_, h1, w1) ← backend.WriteFrame MarshalArrow range range "A" (Some 1%nat)
                    (backend.initHeap ++ [NewFrame "a" [col "x" []; col "y" []]])
                    (backend.newChunkedDataWriter (backend.mkStream [] None));
   producer.WriteFrameRows MarshalArrow range range "A"
     [[VInt 1; VInt 2]; [VInt 3; VInt 4]] h1 w1)
  = Ret (None,
         backend.initHeap
         ++ [mkFrame "a" "A" [col "x" [VInt 1; VInt 3]; col "y" [VInt 2; VInt 4]]],
         backend.mkWriter (backend.mkStream [] None) {[ "A" := stateA ]} 2).
Proof.
  destruct (WriteFrame_then_rows_are_buffered MarshalArrow range range
              "A" 1%nat (NewFrame "a" [col "x" []; col "y" []])
              [[VInt 1; VInt 2]; [VInt 3; VInt 4]]
              (backend.initHeap ++ [NewFrame "a" [col "x" []; col "y" []]])
              (backend.newChunkedDataWriter (backend.mkStream [] None)))
    as [Heq _].
  - reflexivity.
  - repeat constructor.
  - simpl; lia.
  - vm_compute; reflexivity.
  - rewrite Heq. vm_compute; reflexivity.
Defined.

(** [WriteError] for [A] on [writerAB] would fail at the frame of [B]; on
    [writerA] it flushes. *)
Lemma WriteError_flushes_every_state_witness :
  ∃ h' w',
    WriteError range "A" (Some (ErrUser "boom")) heapA writerA = Ret (None, h', w') ∧
    ∃ batches,
      backend.sent (backend.stream w')
      = backend.sent (backend.stream writerA) ++ batches ∧
      length batches = size (backend.states writerA) ∧
      (∀ k st, backend.states writerA !! k = Some st →
         ∃ resp, resp ∈ batches ∧ pluginv2.RefId resp = k ∧
                 Forall2 (λ p b, ∃ f, heapA !! p = Some f ∧ MarshalArrow f = inl b)
                         (backend.frames st) (pluginv2.Frames resp) ∧
                 pluginv2.Status resp = int32 (backend.Status st) ∧
                 pluginv2.ErrorSource resp = backend.ErrorSource st ∧
                 pluginv2.Error resp
                 = from_option error_string EmptyString
                     (if decide (k = "A") then Some (ErrUser "boom")
                      else backend.Error st)) ∧
      backend.count w' = 0 ∧
      (∀ k st', backend.states w' !! k = Some st' → backend.Error st' = None).
Proof.
  eexists _, _. split; [vm_compute; reflexivity|].
  eapply (WriteError_flushes_every_state MarshalArrow range range range_perm range_perm
           "A" (Some (ErrUser "boom")) heapA _ writerA _).
  - exists stateA. vm_compute; reflexivity.
  - vm_compute. split; [discriminate | reflexivity].
  - vm_compute; reflexivity.
Defined.

(** A row for [A] after the flush of [writerA]. *)
Lemma flushed_frames_are_not_written_again_witness :
  ∃ h1 w1 h2 w2,
    flush range heapA writerA = Ret (None, h1, w1) ∧
    producer.WriteFrameRows MarshalArrow range range "A" [[VInt 5; VInt 6]] h1 w1
    = Ret (None, h2, w2) ∧
    heapA `prefix_of` h2.
Proof.
  eexists _, _, _, _. split; [vm_compute; reflexivity|].
  split; [vm_compute; reflexivity|].
  eapply (flushed_frames_are_not_written_again MarshalArrow range range range_perm
            "A" [[VInt 5; VInt 6]] heapA _ _ writerA _ _ None).
  - vm_compute; discriminate.
  - vm_compute; reflexivity.
  - vm_compute; reflexivity.
Defined.

Lemma reachable_state_has_current_frame_witness :
  ∃ p cur, backend.curFrame stateA = Some p ∧
           last (backend.frames stateA) = Some p ∧
           heapA !! p = Some cur ∧
           Forall (λ q, is_Some (heapA !! q)) (backend.frames stateA).
Proof.
  apply (reachable_state_has_current_frame MarshalArrow range range range_perm
           heapA writerA "A" stateA reachable_writerA).
  vm_compute; reflexivity.
Defined.

Lemma reachable_calls_return_witness :
  (∃ r, Close range heapA writerA = Ret r) ∧
  (∀ refID fields, is_Some (backend.states writerA !! refID) →
     ∃ r, WriteFrameRow range refID fields heapA writerA = Ret r) ∧
  (∀ refID err, is_Some (backend.states writerA !! refID) →
     ∃ r, WriteError range refID err heapA writerA = Ret r) ∧
  (∀ refID p, is_Some (heapA !! p) →
     ∃ r, backend.WriteFrame MarshalArrow range range refID (Some p) heapA writerA
          = Ret r).
Proof.
  exact (reachable_calls_return MarshalArrow range range range_perm range_perm
           heapA writerA reachable_writerA).
Defined.

End ConcreteWriterExtras.

(** ** Further properties of the reassembler *)

Section ClientExtras.
Import datasourcetest reassembly.
Context {bytes : Type}.
Variable UnmarshalArrowFrame : bytes → Frame + error.

Local Abbreviation frameStep := (frameStep UnmarshalArrowFrame).
Local Abbreviation framesLoop := (framesLoop UnmarshalArrowFrame).
Local Abbreviation receiveAll := (receiveAll UnmarshalArrowFrame).
Local Abbreviation QueryChunkedData := (QueryChunkedData UnmarshalArrowFrame).
Local Abbreviation decodeAll := (decodeAll UnmarshalArrowFrame).

(** *** The heap under the steps of the loop *)

Lemma Forall2_lookup_app (h g : Heap) (l : list loc) (ts : list Frame) :
  Forall2 (λ p t, h !! p = Some t) l ts →
  Forall2 (λ p t, (h ++ g) !! p = Some t) l ts.
Proof.
  intros H. eapply Forall2_impl; [exact H|].
  intros p t Hp. now apply lookup_app_l_Some.
Qed.

Lemma Forall2_lookup_insert (h : Heap) (c : loc) (x : Frame)
    (l : list loc) (ts : list Frame) :
  Forall2 (λ p t, h !! p = Some t) l ts →
  c ∉ l →
  Forall2 (λ p t, <[c := x]> h !! p = Some t) l ts.
Proof.
  induction 1 as [|p t l ts Hp _ IH]; intros Hc; constructor.
  - rewrite list_lookup_insert_ne; [exact Hp|].
    intros ->. apply Hc. constructor.
  - apply IH. intros Hin. apply Hc. now constructor.
Qed.

Lemma represents_valid (h : Heap) (st : streamState) (ts : list Frame * bool)
    (p : loc) :
  represents h st ts → p ∈ frames st → (p < length h)%nat.
Proof.
  intros (Hall & _) Hin. apply list_elem_of_lookup in Hin as [i Hi].
  destruct (Forall2_lookup_l _ _ _ _ _ Hall Hi) as (t & _ & Hp).
  now apply lookup_lt_Some in Hp.
Qed.

Lemma touchesOnly_refl (h : Heap) (st : streamState) : touchesOnly h st h st.
Proof. repeat split; auto. Qed.

Lemma touchesOnly_trans (h h1 h2 : Heap) (st st1 st2 : streamState) :
  (∀ p, p ∈ frames st → (p < length h)%nat) →
  touchesOnly h st h1 st1 → touchesOnly h1 st1 h2 st2 → touchesOnly h st h2 st2.
Proof.
  intros Hvalid (Hl1 & Hk1 & Hf1) (Hl2 & Hk2 & Hf2). split; [lia|]. split.
  - intros p Hp Hnot. rewrite Hk2, Hk1; auto; [lia|].
    intros [Hin|Hge]%Hf1; [contradiction | lia].
  - intros p [Hin|Hge]%Hf2; [|right; lia].
    apply Hf1 in Hin. exact Hin.
Qed.

Lemma Forall2_lookup_same (h h1 : Heap) (l : list loc) (ts : list Frame) :
  Forall2 (λ p t, h !! p = Some t) l ts →
  (∀ p, p ∈ l → h1 !! p = h !! p) →
  Forall2 (λ p t, h1 !! p = Some t) l ts.
Proof.
  induction 1 as [|p t l ts Hp _ IH]; intros Hsame; constructor.
  - rewrite Hsame; [exact Hp | constructor].
  - apply IH. intros q Hq. apply Hsame. now constructor.
Qed.

(** A state with other frames keeps what it stands for. *)
Lemma represents_other (h h1 : Heap) (st st1 st2 : streamState)
    (ts2 : list Frame * bool) :
  touchesOnly h st h1 st1 →
  (∀ p, p ∈ frames st2 → p ∉ frames st) →
  represents h st2 ts2 → represents h1 st2 ts2.
Proof.
  intros (_ & Hkeep & _) Hdisj Hrep.
  assert (∀ p, p ∈ frames st2 → (p < length h)%nat) as Hvalid
    by (intros p; now apply (represents_valid h st2 ts2)).
  destruct Hrep as (Hall & Hrest). split; [|exact Hrest].
  apply (Forall2_lookup_same h); [exact Hall|].
  intros p Hp. apply Hkeep; auto.
Qed.

(** *** One frame, the frames of a message *)

Lemma assembleStep_zero (ts : list Frame * bool) (fv : Frame) :
  Rows fv = 0%nat → assembleStep ts fv = Some (ts.1, false).
Proof.
  intros Hz. unfold assembleStep. now destruct (decide _).
Qed.

Lemma assembleStep_merge (cur merged fv : Frame) (rest : list Frame) :
  Rows fv ≠ 0%nat → mergeFrame cur fv = Some merged →
  assembleStep (cur :: rest, true) fv = Some (merged :: rest, true).
Proof.
  intros Hnz Hm. unfold assembleStep; simpl.
  destruct (decide _); [contradiction|]. now rewrite Hm.
Qed.

Lemma assembleStep_new (rt : list Frame) (fv : Frame) :
  Rows fv ≠ 0%nat → assembleStep (rt, false) fv = Some (fv :: rt, true).
Proof.
  intros Hnz. unfold assembleStep; simpl. now destruct (decide _).
Qed.

Lemma frameStep_represents (h h1 : Heap) (st st1 : streamState)
    (ts : list Frame * bool) (frame : bytes) :
  represents h st ts →
  frameStep h st frame = Ret (inl (h1, st1)) →
  ∃ fv ts1, UnmarshalArrowFrame frame = inl fv ∧
            assembleStep ts fv = Some ts1 ∧
            represents h1 st1 ts1 ∧
            touchesOnly h st h1 st1.
Proof.
  intros Hrep. pose proof Hrep as (Hall & Hnd & Hcur & Hne).
  assert (∀ p, p ∈ frames st → (p < length h)%nat) as Hvalid
    by (intros p; now apply (represents_valid h st ts)).
  destruct ts as [rt open]. simpl in *.
  unfold datasourcetest.frameStep, alloc, deref.
  destruct (UnmarshalArrowFrame frame) as [fv|err]; [|discriminate].
  destruct (decide (Rows fv = 0%nat)) as [Hz|Hnz].
  - intros [= <- <-]. exists fv, (rt, false). split; [reflexivity|].
    split; [now apply assembleStep_zero|]. split.
    + repeat split; simpl; auto using Forall2_lookup_app.
    + split; [rewrite length_app; lia|]. split; simpl; auto.
      intros p Hp _. now rewrite lookup_app_l.
  - destruct (curFrame st) as [c|] eqn:Hc.
    + destruct open; [|discriminate].
      destruct rt as [|cur rest]; [now destruct (Hne eq_refl)|].
      rewrite reverse_cons in Hall.
      apply Forall2_app_inv_r in Hall as (l1 & l2 & Hall1 & Hall2 & Hfr).
      inversion Hall2 as [|c' ? ? ? Hlook Hnil]; subst l2. inversion Hnil; subst.
      assert (c' = c) as ->.
      { rewrite Hfr, last_snoc in Hcur. congruence. }
      assert (c ∉ l1) as Hcl1.
      { pose proof Hnd as Hnd'. rewrite Hfr in Hnd'.
        apply NoDup_app in Hnd' as (_ & Hdisj & _).
        intros Hin. apply (Hdisj _ Hin). constructor. }
      rewrite (lookup_app_l_Some _ _ _ _ Hlook); simpl.
      destruct (mergeFields (Fields cur) (Fields fv)) as [fds|] eqn:Hm; [|discriminate].
      intros [= <- <-]. simpl.
      exists fv, (mkFrame (Name cur) (RefID cur) fds :: rest, true).
      split; [reflexivity|].
      split; [apply assembleStep_merge; [exact Hnz|]; unfold mergeFrame; now rewrite Hm|].
      split.
      * split; [|split; [exact Hnd | split; [simpl; congruence | discriminate]]].
        simpl. rewrite Hfr, reverse_cons. apply Forall2_app.
        -- apply Forall2_lookup_insert; [now apply Forall2_lookup_app | exact Hcl1].
        -- constructor; [|constructor]. apply list_lookup_insert_eq.
           rewrite length_app. apply lookup_lt_Some in Hlook. lia.
      * split; [rewrite length_insert, length_app; lia|]. split; [|auto].
        intros p Hp Hnot. rewrite list_lookup_insert_ne.
        -- now rewrite lookup_app_l.
        -- intros ->. apply Hnot. rewrite Hfr. apply elem_of_app. right. constructor.
    + destruct open; [|clear Hcur].
      { exfalso. apply (Hne eq_refl). symmetry in Hcur.
        apply last_None in Hcur. rewrite Hcur in Hall.
        apply Forall2_length in Hall. rewrite length_reverse in Hall.
        now apply nil_length_inv. }
      intros [= <- <-].
      exists fv, (fv :: rt, true). split; [reflexivity|].
      split; [now apply assembleStep_new|].
      split.
      * split; [|split; [|split; [|discriminate]]]; simpl.
        -- rewrite reverse_cons. apply Forall2_app; [now apply Forall2_lookup_app|].
           constructor; [|constructor]. now apply list_lookup_middle.
        -- apply NoDup_app. split; [exact Hnd|]. split; [|apply NoDup_singleton].
           intros p Hp ->%list_elem_of_singleton. apply Hvalid in Hp. lia.
        -- now rewrite last_snoc.
      * split; [rewrite length_app; lia|]. split; simpl.
        -- intros p Hp _. now rewrite lookup_app_l.
        -- intros p [Hin| ->%list_elem_of_singleton]%elem_of_app; auto.
Qed.

Lemma framesLoop_represents (frs : list bytes) (h h1 : Heap) (st st1 : streamState)
    (ts : list Frame * bool) :
  represents h st ts →
  framesLoop h st frs = Ret (inl (h1, st1)) →
  ∃ fvs ts1, decodeAll frs = Some fvs ∧
             assemble ts fvs = Some ts1 ∧
             represents h1 st1 ts1 ∧
             touchesOnly h st h1 st1.
Proof.
  revert h st ts. induction frs as [|frame frs IH]; intros h st ts Hrep; simpl.
  - intros [= <- <-]. exists [], ts. auto using touchesOnly_refl.
  - destruct (datasourcetest.frameStep _ _ _ _) as [[[h0 st0]|err]|] eqn:Hs; simpl;
      try discriminate.
    intros Hrec.
    destruct (frameStep_represents _ _ _ _ _ _ Hrep Hs)
      as (fv & ts0 & Hu & Hstep & Hrep0 & Ht0).
    destruct (IH _ _ _ Hrep0 Hrec) as (fvs & ts1 & Hd & Ha & Hrep1 & Ht1).
    exists (fv :: fvs), ts1. rewrite Hu, Hd; simpl. rewrite Hstep; simpl.
    split; [reflexivity|]. split; [exact Ha|]. split; [exact Hrep1|].
    eapply touchesOnly_trans; [|exact Ht0 | exact Ht1].
    intros p. now apply (represents_valid h st ts).
Qed.

(** *** All messages *)

Lemma fragmentsOf_app (refID : string) (a b : list (ChunkedDataResponse bytes)) :
  fragmentsOf refID (a ++ b) = fragmentsOf refID a ++ fragmentsOf refID b.
Proof.
  induction a as [|sr a IH]; simpl; [reflexivity|].
  now rewrite IH, app_assoc.
Qed.

Lemma decodeAll_app (a b : list bytes) (fa fb : list Frame) :
  decodeAll a = Some fa → decodeAll b = Some fb →
  decodeAll (a ++ b) = Some (fa ++ fb).
Proof.
  revert fa. induction a as [|frame a IH]; intros fa; simpl.
  - now intros [= <-].
  - destruct (UnmarshalArrowFrame frame) as [fv|]; [|discriminate].
    destruct (decodeAll a) as [fa'|]; [|discriminate]. simpl.
    intros [= <-] Hb. now rewrite (IH fa' eq_refl Hb).
Qed.

Lemma assemble_app (ts ts1 : list Frame * bool) (a b : list Frame) :
  assemble ts a = Some ts1 → assemble ts (a ++ b) = assemble ts1 b.
Proof.
  revert ts. induction a as [|fv a IH]; intros ts; simpl.
  - now intros [= <-].
  - destruct (assembleStep ts fv) as [ts0|]; [|discriminate]. simpl. apply IH.
Qed.

Lemma accounts_nil (h : Heap) : accounts UnmarshalArrowFrame [] h ∅.
Proof.
  split; [|split].
  - intros refID. exists [], ([], false). rewrite lookup_empty. simpl.
    repeat split; auto; try constructor; discriminate.
  - intros refID. rewrite lookup_empty. split; auto.
  - intros id1 id2 p _. rewrite lookup_empty. simpl. intros Hin. inversion Hin.
Qed.

Lemma accounts_message (done : list (ChunkedDataResponse bytes))
    (sr : ChunkedDataResponse bytes) (h h1 : Heap) (m : gmap string streamState)
    (st1 : streamState) :
  accounts UnmarshalArrowFrame done h m →
  framesLoop h (default zeroStream (m !! pluginv2.RefId sr)) (pluginv2.Frames sr)
  = Ret (inl (h1, st1)) →
  accounts UnmarshalArrowFrame (done ++ [sr]) h1 (<[pluginv2.RefId sr := st1]> m).
Proof.
  intros (Hacc & Hdom & Hdisj) Hloop.
  set (id0 := pluginv2.RefId sr) in *.
  destruct (Hacc id0) as (fvs0 & ts0 & Hd0 & Ha0 & Hrep0).
  destruct (framesLoop_represents _ _ _ _ _ _ Hrep0 Hloop)
    as (fvs & ts1 & Hd & Ha & Hrep1 & Htouch).
  assert (∀ refID p, p ∈ frames (default zeroStream (m !! refID)) →
                     (p < length h)%nat) as Hvalid.
  { intros refID p Hp. destruct (Hacc refID) as (? & ts & _ & _ & Hrep).
    exact (represents_valid _ _ _ _ Hrep Hp). }
  split; [|split].
  - intros refID. rewrite fragmentsOf_app. simpl. rewrite app_nil_r. fold id0.
    destruct (decide (id0 = refID)) as [<-|Hne].
    + exists (fvs0 ++ fvs), ts1. rewrite lookup_insert_eq. simpl.
      split; [now apply decodeAll_app|].
      split; [now rewrite (assemble_app _ _ _ _ Ha0) | exact Hrep1].
    + destruct (Hacc refID) as (fvs' & ts' & Hd' & Ha' & Hrep').
      exists fvs', ts'. rewrite lookup_insert_ne by exact Hne.
      rewrite app_nil_r. split; [exact Hd'|]. split; [exact Ha'|].
      eapply represents_other; [exact Htouch | | exact Hrep'].
      intros p Hp. apply (Hdisj refID id0); [congruence | exact Hp].
  - intros refID. rewrite Forall_app, Forall_singleton.
    destruct (decide (id0 = refID)) as [<-|Hne].
    + rewrite lookup_insert_eq. split; [discriminate | now intros [_ ?]].
    + rewrite lookup_insert_ne by exact Hne. rewrite Hdom. fold id0. tauto.
  - intros id1 id2 p Hne.
    destruct (decide (id0 = id1)) as [<-|Hne1];
      [|destruct (decide (id0 = id2)) as [<-|Hne2]].
    + rewrite lookup_insert_eq, lookup_insert_ne by exact Hne. simpl.
      destruct Htouch as (_ & _ & Hfr).
      intros [Hin|Hge]%Hfr; [now apply (Hdisj id0 id2)|].
      intros Hin2%Hvalid. lia.
    + rewrite lookup_insert_eq, lookup_insert_ne by congruence. simpl.
      destruct Htouch as (_ & _ & Hfr).
      intros Hin1 [Hin|Hge]%Hfr.
      * now apply (Hdisj id1 id0) in Hin1.
      * apply Hvalid in Hin1. lia.
    + rewrite !lookup_insert_ne by congruence. now apply Hdisj.
Qed.

Lemma receiveAll_accounts (msgs done : list (ChunkedDataResponse bytes))
    (h h' : Heap) (m m' : gmap string streamState) :
  accounts UnmarshalArrowFrame done h m →
  receiveAll msgs h m = Ret (inl (h', m')) →
  accounts UnmarshalArrowFrame (done ++ msgs) h' m'.
Proof.
  revert done h m. induction msgs as [|sr msgs IH]; intros done h m Hacc; simpl.
  - intros [= <- <-]. now rewrite app_nil_r.
  - destruct (datasourcetest.framesLoop _ _ _ _) as [[[h1 st1]|err]|] eqn:Hloop;
      simpl; try discriminate.
    intros Hrec. rewrite cons_middle, app_assoc.
    eapply IH; [|exact Hrec]. eapply accounts_message; [exact Hacc | exact Hloop].
Qed.

Lemma recvLoop_response (msgs : list (ChunkedDataResponse bytes)) (fin : error)
    (h h' : Heap) (m : gmap string streamState) (resp : QueryDataResponse)
    (err : option error) :
  datasourcetest.recvLoop UnmarshalArrowFrame msgs fin h m = Ret (Some resp, err, h') →
  ∃ m', receiveAll msgs h m = Ret (inl (h', m')) ∧
        resp = mkQueryDataResponse ((λ state, mkDataResponse (frames state)) <$> m') ∧
        fin = EOF ∧ err = None.
Proof.
  revert h m. induction msgs as [|sr msgs IH]; intros h m; simpl.
  - destruct (decide _) as [->|_]; [|discriminate].
    intros [= <- <- <-]. eauto.
  - destruct (datasourcetest.framesLoop _ _ _ _) as [[[h1 st1]|e]|]; simpl;
      try discriminate.
    apply IH.
Qed.

Lemma Forall2_lookup_fmap (h : Heap) (l : list loc) (ts : list Frame) :
  Forall2 (λ p t, h !! p = Some t) l ts → (λ p, h !! p) <$> l = Some <$> ts.
Proof.
  induction 1 as [|p t l ts Hp _ IH]; [reflexivity|].
  rewrite !fmap_cons. congruence.
Qed.

(** What a response holds for a refID is what the assembly makes of the
    frames that the messages carry for that refID. *)
Lemma QueryChunkedData_accounts (strm : ClientStream bytes) (h h' : Heap)
    (resp : QueryDataResponse) (err : option error) (refID : string) :
  QueryChunkedData strm h = Ret (Some resp, err, h') →
  ∃ fvs ts,
    decodeAll (fragmentsOf refID (messages strm)) = Some fvs ∧
    assemble ([], false) fvs = Some ts ∧
    tablesOf h' resp refID = Some <$> reverse ts.1 ∧
    (Responses resp !! refID = None
     ↔ Forall (λ sr, pluginv2.RefId sr ≠ refID) (messages strm)).
Proof.
  unfold datasourcetest.QueryChunkedData.
  destruct (openErr strm); [discriminate|].
  intros (m' & Hall & -> & _ & _)%recvLoop_response.
  pose proof (receiveAll_accounts _ [] _ _ _ _ (accounts_nil h) Hall)
    as (Hacc & Hdom & _). simpl in *.
  destruct (Hacc refID) as (fvs & ts & Hd & Ha & Hrep & _).
  exists fvs, ts. split; [exact Hd|]. split; [exact Ha|]. split.
  - unfold tablesOf; simpl. rewrite lookup_fmap.
    apply Forall2_lookup_fmap in Hrep.
    destruct (m' !! refID) as [st|]; simpl in *; [exact Hrep|].
    destruct (reverse ts.1); [reflexivity | discriminate].
  - rewrite <- Hdom, lookup_fmap. destruct (m' !! refID); simpl; split; congruence.
Qed.

(** X9. At the end of the stream the frames returned for a refID are the
    tables assembled from the frames that the messages carried for that
    refID, in the order of arrival: a frame without rows closes the open
    table, a frame with rows is appended column by column to the open
    table or, if none is open, becomes the next table.  A refID is in the
    response exactly when a message named it. *)
Theorem QueryChunkedData_assembles_each_refID
    (strm : ClientStream bytes) (h h' : Heap)
    (resp : QueryDataResponse) (err : option error) (refID : string) :
  QueryChunkedData strm h = Ret (Some resp, err, h') →
  ∃ fvs ts,
    decodeAll (fragmentsOf refID (messages strm)) = Some fvs ∧
    assemble ([], false) fvs = Some ts ∧
    tablesOf h' resp refID = Some <$> reverse ts.1 ∧
    (Responses resp !! refID = None
     ↔ Forall (λ sr, pluginv2.RefId sr ≠ refID) (messages strm)).
Proof. apply QueryChunkedData_accounts. Qed.

(** X10. The frames returned for a refID depend on nothing but the frames
    sent for that refID and their order: two streams that carry the same
    frames for it, cut into batches and mixed with the batches of other
    refIDs in whatever way, give the same tables for it. *)
Theorem QueryChunkedData_ignores_batching_and_other_refIDs
    (strm1 strm2 : ClientStream bytes) (h1 h1' h2 h2' : Heap)
    (resp1 resp2 : QueryDataResponse) (err1 err2 : option error) (refID : string) :
  QueryChunkedData strm1 h1 = Ret (Some resp1, err1, h1') →
  QueryChunkedData strm2 h2 = Ret (Some resp2, err2, h2') →
  fragmentsOf refID (messages strm1) = fragmentsOf refID (messages strm2) →
  tablesOf h1' resp1 refID = tablesOf h2' resp2 refID.
Proof.
  intros (fvs1 & ts1 & Hd1 & Ha1 & -> & _)%(QueryChunkedData_accounts _ _ _ _ _ refID).
  intros (fvs2 & ts2 & Hd2 & Ha2 & -> & _)%(QueryChunkedData_accounts _ _ _ _ _ refID).
  intros Heq. rewrite Heq in Hd1. congruence.
Qed.

(** *** When the loop goes through *)

Lemma decodeAll_app_inv (a b : list bytes) (f : list Frame) :
  decodeAll (a ++ b) = Some f →
  ∃ fa fb, decodeAll a = Some fa ∧ decodeAll b = Some fb ∧ f = fa ++ fb.
Proof.
  revert f. induction a as [|frame a IH]; intros f; simpl.
  - intros Hb. exists [], f. auto.
  - destruct (UnmarshalArrowFrame frame) as [fv|]; [|discriminate].
    destruct (decodeAll (a ++ b)) as [f'|] eqn:Hab; [|discriminate]. simpl.
    intros [= <-]. destruct (IH _ eq_refl) as (fa & fb & -> & Hb & ->).
    exists (fv :: fa), fb. auto.
Qed.

Lemma assemble_app_inv (ts ts2 : list Frame * bool) (a b : list Frame) :
  assemble ts (a ++ b) = Some ts2 →
  ∃ ts1, assemble ts a = Some ts1 ∧ assemble ts1 b = Some ts2.
Proof.
  revert ts. induction a as [|fv a IH]; intros ts; simpl; [eauto|].
  destruct (assembleStep ts fv) as [ts0|]; [|discriminate]. simpl. apply IH.
Qed.

Lemma frameStep_complete (h : Heap) (st : streamState) (ts ts1 : list Frame * bool)
    (frame : bytes) (fv : Frame) :
  represents h st ts →
  UnmarshalArrowFrame frame = inl fv →
  assembleStep ts fv = Some ts1 →
  ∃ h1 st1, frameStep h st frame = Ret (inl (h1, st1)).
Proof.
  intros (Hall & Hnd & Hcur & Hne) Hu. destruct ts as [rt open]. simpl in *.
  unfold assembleStep, datasourcetest.frameStep, alloc, deref; simpl. rewrite Hu.
  destruct (decide _) as [Hz|Hnz]; [eauto|].
  destruct open.
  - destruct rt as [|cur rest]; [discriminate|].
    rewrite reverse_cons in Hall.
    apply Forall2_app_inv_r in Hall as (l1 & l2 & _ & Hall2 & Hfr).
    inversion Hall2 as [|c ? ? ? Hlook Hnil]; subst l2. inversion Hnil; subst.
    rewrite Hfr, last_snoc in Hcur. rewrite Hcur.
    rewrite (lookup_app_l_Some _ _ _ _ Hlook); simpl.
    unfold mergeFrame.
    destruct (mergeFields (Fields cur) (Fields fv)); [eauto | discriminate].
  - rewrite Hcur. eauto.
Qed.

Lemma framesLoop_complete (frs : list bytes) (h : Heap) (st : streamState)
    (ts ts1 : list Frame * bool) (fvs : list Frame) :
  represents h st ts →
  decodeAll frs = Some fvs →
  assemble ts fvs = Some ts1 →
  ∃ h1 st1, framesLoop h st frs = Ret (inl (h1, st1)).
Proof.
  revert h st ts fvs. induction frs as [|frame frs IH]; intros h st ts fvs Hrep;
    simpl; [eauto|].
  destruct (UnmarshalArrowFrame frame) as [fv|] eqn:Hu; [|discriminate].
  destruct (decodeAll frs) as [fvs'|] eqn:Hd; [|discriminate]. simpl.
  intros [= <-]. simpl.
  destruct (assembleStep ts fv) as [ts0|] eqn:Hstep; [|discriminate]. simpl.
  intros Ha.
  destruct (frameStep_complete _ _ _ _ _ _ Hrep Hu Hstep) as (h0 & st0 & Hs).
  rewrite Hs. simpl.
  destruct (frameStep_represents _ _ _ _ _ _ Hrep Hs)
    as (fv' & ts0' & Hu' & Hstep' & Hrep0 & _).
  assert (fv' = fv) as -> by congruence.
  assert (ts0' = ts0) as -> by congruence.
  eapply IH; eauto.
Qed.

Lemma receiveAll_complete (msgs done : list (ChunkedDataResponse bytes))
    (h : Heap) (m : gmap string streamState) :
  accounts UnmarshalArrowFrame done h m →
  (∀ refID, ∃ fvs ts,
     decodeAll (fragmentsOf refID (done ++ msgs)) = Some fvs ∧
     assemble ([], false) fvs = Some ts) →
  ∃ h' m', receiveAll msgs h m = Ret (inl (h', m')).
Proof.
  revert done h m. induction msgs as [|sr msgs IH]; intros done h m Hacc Hok;
    simpl; [eauto|].
  set (id0 := pluginv2.RefId sr).
  destruct (Hok id0) as (fvs & ts & Hd & Ha).
  rewrite fragmentsOf_app in Hd. simpl in Hd. fold id0 in Hd.
  destruct (decide (id0 = id0)) as [_|?]; [|contradiction].
  apply decodeAll_app_inv in Hd as (fa & fb & Hda & Hdb & ->).
  apply decodeAll_app_inv in Hdb as (fsr & frest & Hdsr & _ & ->).
  apply assemble_app_inv in Ha as (tsa & Haa & Ha).
  apply assemble_app_inv in Ha as (tsr & Har & _).
  pose proof Hacc as (Haccs & _).
  destruct (Haccs id0) as (fa' & tsa' & Hda' & Haa' & Hrep).
  assert (fa' = fa) as -> by congruence.
  assert (tsa' = tsa) as -> by congruence.
  destruct (framesLoop_complete _ _ _ _ _ _ Hrep Hdsr Har) as (h1 & st1 & Hloop).
  fold id0. rewrite Hloop. simpl.
  apply (IH (done ++ [sr])).
  - eapply accounts_message; [exact Hacc | exact Hloop].
  - intros refID. rewrite <- app_assoc. simpl. apply Hok.
Qed.

(** X11. A stream that opens and ends regularly gives a response exactly
    when, for every refID, all the frames sent for it can be decoded and
    the assembly of them goes through, that is, when no frame with rows
    that arrives while a table is open has more columns than that table.
    In every other case the call returns an error or panics. *)
Theorem QueryChunkedData_returns_response_iff
    (strm : ClientStream bytes) (h : Heap) :
  openErr strm = None →
  final strm = EOF →
  (∃ resp h', QueryChunkedData strm h = Ret (Some resp, None, h'))
  ↔ (∀ refID, ∃ fvs ts,
       decodeAll (fragmentsOf refID (messages strm)) = Some fvs ∧
       assemble ([], false) fvs = Some ts).
Proof.
  intros Hopen Hfin. split.
  - intros (resp & h' & Hrun) refID.
    destruct (QueryChunkedData_accounts _ _ _ _ _ refID Hrun)
      as (fvs & ts & Hd & Ha & _).
    eauto.
  - intros Hok.
    destruct (receiveAll_complete (messages strm) [] h ∅ (accounts_nil h) Hok)
      as (h' & m' & Hall).
    eexists _, h'.
    apply (QueryChunkedData_EOF UnmarshalArrowFrame strm h h' m' Hopen Hfin Hall).
Qed.

End ClientExtras.




(** ** The further properties of the reassembler on concrete inputs *)

Section ConcreteClientExtras.
Import Examples MoreExamples.

Lemma QueryChunkedData_assembles_each_refID_witness :
  ∃ resp h',
    datasourcetest.QueryChunkedData UnmarshalArrowFrame threeBatches []
    = Ret (Some resp, None, h') ∧
    ∃ fvs ts,
      reassembly.decodeAll UnmarshalArrowFrame
        (reassembly.fragmentsOf "A" (datasourcetest.messages threeBatches))
      = Some fvs ∧
      reassembly.assemble ([], false) fvs = Some ts ∧
      reassembly.tablesOf h' resp "A" = Some <$> reverse ts.1 ∧
      (datasourcetest.Responses resp !! "A" = None
       ↔ Forall (λ sr, pluginv2.RefId sr ≠ "A") (datasourcetest.messages threeBatches)).
Proof.
  eexists _, _. split; [vm_compute; reflexivity|].
  eapply (QueryChunkedData_assembles_each_refID UnmarshalArrowFrame threeBatches []).
  vm_compute; reflexivity.
Defined.

Lemma QueryChunkedData_ignores_batching_and_other_refIDs_witness :
  ∃ resp1 h1 resp2 h2,
    datasourcetest.QueryChunkedData UnmarshalArrowFrame oneBatch []
    = Ret (Some resp1, None, h1) ∧
    datasourcetest.QueryChunkedData UnmarshalArrowFrame threeBatches []
    = Ret (Some resp2, None, h2) ∧
    reassembly.tablesOf h1 resp1 "A" = reassembly.tablesOf h2 resp2 "A".
Proof.
  eexists _, _, _, _. split; [vm_compute; reflexivity|].
  split; [vm_compute; reflexivity|].
  eapply (QueryChunkedData_ignores_batching_and_other_refIDs UnmarshalArrowFrame
            oneBatch threeBatches [] _ [] _ _ _ None None "A").
  - vm_compute; reflexivity.
  - vm_compute; reflexivity.
  - vm_compute; reflexivity.
Defined.

End ConcreteClientExtras.

Section ConcreteClientExtras2.
Import Examples MoreExamples.

Lemma QueryChunkedData_returns_response_iff_witness :
  (∃ resp h', datasourcetest.QueryChunkedData UnmarshalArrowFrame threeBatches []
              = Ret (Some resp, None, h'))
  ↔ (∀ refID, ∃ fvs ts,
       reassembly.decodeAll UnmarshalArrowFrame
         (reassembly.fragmentsOf refID (datasourcetest.messages threeBatches))
       = Some fvs ∧
       reassembly.assemble ([], false) fvs = Some ts).
Proof.
  apply (QueryChunkedData_returns_response_iff UnmarshalArrowFrame threeBatches []);
    reflexivity.
Defined.

End ConcreteClientExtras2.

(** ** From the producer to the client *)

Section RoundTripValues.
Import roundtrip reassembly producer.

(** *** Frames as values *)

Lemma emptyField_empty (fd : Field) : vector fd = [] → emptyField fd = fd.
Proof. destruct fd as [n t v]; simpl. now intros ->. Qed.

Lemma sameLen_no_rows (t : Frame) : sameLen t → Rows t = 0%nat → EmptyCopy t = t.
Proof.
  destruct t as [n r fds]. unfold sameLen, EmptyCopy; simpl. intros Hall Hz.
  f_equal. rewrite Hz in Hall. clear Hz.
  induction Hall as [|fd fds Hfd _ IH]; [reflexivity|].
  csimpl. rewrite IH, emptyField_empty; [reflexivity|].
  now apply nil_length_inv.
Qed.

Lemma EmptyCopy_idem (t : Frame) : EmptyCopy (EmptyCopy t) = EmptyCopy t.
Proof.
  unfold EmptyCopy; simpl. f_equal. rewrite <- list_fmap_compose.
  now apply list_fmap_ext.
Qed.

Lemma sameLen_EmptyCopy (t : Frame) : sameLen (EmptyCopy t).
Proof.
  unfold sameLen. rewrite Rows_EmptyCopy. simpl.
  apply Forall_fmap, Forall_true. reflexivity.
Qed.

Lemma EmptyCopy_fields_length (c t : Frame) :
  EmptyCopy c = EmptyCopy t → length (Fields c) = length (Fields t).
Proof.
  intros [= _ _ Hf]. apply (f_equal length) in Hf. now rewrite !length_fmap in Hf.
Qed.

Lemma EmptyCopy_appendRowValues (t : Frame) (fields : list value) :
  length fields = length (Fields t) →
  EmptyCopy (appendRowValues t fields) = EmptyCopy t.
Proof.
  unfold EmptyCopy, appendRowValues; simpl. intros Hlen. f_equal.
  revert fields Hlen. induction (Fields t) as [|fd fds IH]; intros [|v vs] Hlen;
    simpl in *; try discriminate; [reflexivity|].
  f_equal. apply IH. lia.
Qed.

Lemma sameLen_appendRowValues (t : Frame) (fields : list value) :
  sameLen t → length fields = length (Fields t) →
  sameLen (appendRowValues t fields).
Proof.
  unfold sameLen, appendRowValues, Rows, Len; simpl.
  destruct (Fields t) as [|fd fds]; destruct fields as [|v vs]; simpl;
    try discriminate; [constructor|].
  intros Hall Hlen. apply Forall_cons in Hall as [_ Hall].
  constructor; [reflexivity|]. simpl. rewrite length_app; simpl.
  assert (length vs = length fds) as Hl by lia. clear Hlen.
  revert vs Hl. induction Hall as [|g fds Hg _ IH]; intros [|v' vs] Hl;
    simpl in *; try discriminate; constructor.
  - simpl. rewrite length_app; simpl. lia.
  - apply IH. lia.
Qed.

Lemma Rows_appendRowValues (t : Frame) (fields : list value) :
  Fields t ≠ [] → length fields = length (Fields t) →
  Rows (appendRowValues t fields) = S (Rows t).
Proof.
  intros Hne Hlen.
  pose proof (Rows_appendRows t [fields] Hne) as Hrows. simpl in Hrows.
  rewrite Hrows; [lia|]. repeat constructor. exact Hlen.
Qed.

Lemma Fields_appendRowValues_ne (t : Frame) (fields : list value) :
  Fields t ≠ [] → length fields = length (Fields t) →
  Fields (appendRowValues t fields) ≠ [].
Proof.
  intros Hne Hlen Hnil. apply (f_equal length) in Hnil. simpl in Hnil.
  rewrite length_zip_with, Hlen, Nat.min_id in Hnil.
  destruct (Fields t); [contradiction | discriminate].
Qed.

(** *** Merging *)

Lemma mergeFields_length (ss cs m : list Field) :
  datasourcetest.mergeFields ss cs = Some m → length m = length ss.
Proof.
  revert ss m. induction cs as [|c cs IH]; intros [|s ss] m; simpl;
    try discriminate; try (now intros [= <-]).
  destruct (datasourcetest.mergeFields ss cs) as [m'|] eqn:Hm; [|discriminate].
  simpl. intros [= <-]. simpl. f_equal. now apply IH.
Qed.

Lemma mergeFields_appended (ss cs m : list Field) (row : list value) :
  datasourcetest.mergeFields ss cs = Some m →
  length cs = length ss → length row = length cs →
  datasourcetest.mergeFields ss (zip_with Append cs row)
  = Some (zip_with Append m row).
Proof.
  revert ss m row. induction cs as [|c cs IH]; intros [|s ss] m row; simpl;
    try discriminate.
  - intros [= <-] _ Hr. now destruct row.
  - destruct (datasourcetest.mergeFields ss cs) as [m'|] eqn:Hm; [|discriminate].
    simpl. intros [= <-] Hs Hr. destruct row as [|v row]; [discriminate|]. simpl.
    rewrite (IH ss m' row Hm) by (simpl in *; lia). simpl.
    unfold AppendAll, Append; simpl. now rewrite app_assoc.
Qed.

Lemma mergeFields_empty (ts cs : list Field) :
  length cs = length ts → Forall (λ c, vector c = []) cs →
  datasourcetest.mergeFields ts cs = Some ts.
Proof.
  revert ts. induction cs as [|c cs IH]; intros [|t ts] Hlen Hall; simpl in *;
    try discriminate; [reflexivity|].
  apply Forall_cons in Hall as [Hc Hall].
  rewrite IH by (auto; lia). simpl. unfold AppendAll. rewrite Hc, app_nil_r.
  now destruct t.
Qed.

Lemma mergeFrame_no_rows (t c : Frame) :
  EmptyCopy c = EmptyCopy t → sameLen c → Rows c = 0%nat →
  mergeFrame t c = Some t.
Proof.
  intros Hschema Hsame Hz. unfold mergeFrame.
  rewrite mergeFields_empty.
  - simpl. now destruct t.
  - now apply EmptyCopy_fields_length.
  - unfold sameLen in Hsame. rewrite Hz in Hsame.
    eapply Forall_impl; [exact Hsame|]. intros fd. apply nil_length_inv.
Qed.

Lemma mergeFrame_appended (s c t : Frame) (row : list value) :
  mergeFrame s c = Some t →
  length (Fields c) = length (Fields s) → length row = length (Fields c) →
  mergeFrame s (appendRowValues c row) = Some (appendRowValues t row).
Proof.
  unfold mergeFrame. intros Hm Hs Hr.
  destruct (datasourcetest.mergeFields (Fields s) (Fields c)) as [m|] eqn:Hmf;
    [|discriminate].
  injection Hm as <-. simpl.
  now rewrite (mergeFields_appended _ _ _ _ Hmf Hs Hr).
Qed.

(** *** The assembly of what the writer holds *)

Lemma expected_no_rows (t : Frame) (L : list Frame) :
  Rows t = 0%nat → expected (t :: L) = (filter (λ t, Rows t ≠ 0%nat) L, false).
Proof.
  intros Hz. unfold expected. rewrite filter_cons_False by (intros ?; contradiction).
  rewrite bool_decide_eq_false_2; [reflexivity | intros ?; contradiction].
Qed.

Lemma expected_rows (t : Frame) (L : list Frame) :
  Rows t ≠ 0%nat → expected (t :: L) = (t :: filter (λ t, Rows t ≠ 0%nat) L, true).
Proof.
  intros Hnz. unfold expected. rewrite filter_cons_True by exact Hnz.
  now rewrite bool_decide_eq_true_2.
Qed.

Lemma assemble_marker_frame (S : list Frame * bool) (t : Frame) :
  assemble S [marker; t]
  = Some (if decide (Rows t = 0%nat) then (S.1, false) else (t :: S.1, true)).
Proof.
  cbn [assemble]. rewrite (assembleStep_zero S marker) by reflexivity.
  cbn [mbind option_bind fst].
  destruct (decide _) as [Hz|Hnz].
  - now rewrite (assembleStep_zero _ t).
  - now rewrite assembleStep_new.
Qed.

Lemma assemble_no_rows (S : list Frame * bool) (fs : list Frame) :
  Forall (λ f, Rows f = 0%nat) fs →
  ∃ flag, assemble S fs = Some (S.1, flag).
Proof.
  revert S. induction fs as [|f fs IH]; intros S Hall; simpl; [destruct S; eauto|].
  apply Forall_cons in Hall as [Hf Hall]. rewrite (assembleStep_zero S f) by exact Hf.
  cbn [mbind option_bind]. apply (IH (S.1, false) Hall).
Qed.

Lemma chunks_snoc (l : list Frame) (t : Frame) :
  chunks (l ++ [t]) = chunks l ++ [marker; t].
Proof.
  unfold chunks. rewrite bind_app. simpl. reflexivity.
Qed.

Lemma chunks_cons (t : Frame) (l : list Frame) :
  chunks (t :: l) = marker :: t :: chunks l.
Proof. reflexivity. Qed.

Lemma pendingAll_current (a : pending) (t : Frame) :
  currentV a = Some t → pendingAll a = initV a ++ [t].
Proof.
  unfold currentV, pendingAll, initV. destruct (newR a) as [|t0 rest].
  - intros ->. simpl. reflexivity.
  - intros [= ->]. rewrite reverse_cons, chunks_snoc, <- !app_assoc. reflexivity.
Qed.

Lemma setCurrent_facts (a : pending) (t t1 : Frame) :
  currentV a = Some t →
  currentV (setCurrent t1 a) = Some t1 ∧
  initV (setCurrent t1 a) = initV a ∧
  sentV (setCurrent t1 a) = sentV a ∧
  pendingAll (setCurrent t1 a) = initV a ++ [t1].
Proof.
  intros Hc.
  assert (currentV (setCurrent t1 a) = Some t1 ∧ initV (setCurrent t1 a) = initV a ∧
          sentV (setCurrent t1 a) = sentV a) as (H1 & H2 & H3).
  { unfold currentV, setCurrent, initV in *. destruct (newR a); simpl; auto. }
  repeat split; auto. rewrite (pendingAll_current _ _ H1). now rewrite H2.
Qed.

Lemma sum_Rows_snoc (l : list Frame) (t : Frame) :
  sum_list_with Rows (l ++ [t]) = (sum_list_with Rows l + Rows t)%nat.
Proof.
  rewrite sum_list_with_app. simpl. lia.
Qed.

Lemma assemble_chunks_flag (S : list Frame * bool) (flag : bool)
    (l : list Frame) (t : Frame) :
  assemble S (chunks l ++ [marker; t])
  = assemble (S.1, flag) (chunks l ++ [marker; t]).
Proof.
  destruct l as [|x l].
  - change (chunks [] ++ [marker; t]) with [marker; t].
    now rewrite !assemble_marker_frame.
  - rewrite chunks_cons. cbn [app assemble].
    rewrite (assembleStep_zero S marker) by reflexivity.
    rewrite (assembleStep_zero (S.1, flag) marker) by reflexivity.
    reflexivity.
Qed.

(** What holds of the state that rows are written to holds of a state
    at rest. *)
Lemma valueInv_closed (a : pending) (cnt : Z) (Lrev : list Frame) :
  valueInv a cnt Lrev → closedInv a Lrev.
Proof.
  intros (Hasm & Hcnt & Hsame & HsameL & Hcols & Hlink).
  split; [|auto].
  apply assemble_app_inv in Hasm as (S & HS & Hlive).
  assert (expected Lrev = (filter (λ t, Rows t ≠ 0%nat) Lrev, (expected Lrev).2))
    as Hexp by reflexivity.
  rewrite Hexp in Hlive. clear Hexp.
  unfold pendingAll, pendingLive, liveCont in *.
  destruct (contV a) as [c|]; simpl in *.
  2:{ exists (expected Lrev).2. erewrite assemble_app by exact HS. exact Hlive. }
  destruct (decide (Rows c = 0%nat)) as [Hz|Hnz]; simpl in *.
  2:{ exists (expected Lrev).2. erewrite assemble_app by exact HS. exact Hlive. }
  erewrite assemble_app by exact HS. cbn [assemble].
  rewrite (assembleStep_zero S c) by exact Hz. cbn [mbind option_bind].
  destruct (reverse (newR a)) as [|x l].
  - change (chunks []) with (@nil Frame) in *. simpl in Hlive |- *.
    injection Hlive as Hlive. exists false. now rewrite Hlive.
  - exists (expected Lrev).2. rewrite chunks_cons in Hlive |- *.
    cbn [assemble] in Hlive |- *.
    rewrite (assembleStep_zero S marker) in Hlive by reflexivity.
    rewrite (assembleStep_zero (S.1, false) marker) by reflexivity.
    exact Hlive.
Qed.

(** A table is opened. *)
Lemma closedInv_open (a : pending) (Lrev : list Frame) (t : Frame) :
  closedInv a Lrev →
  sameLen t → Fields t ≠ [] →
  valueInv (openV t a) (pendingRows a + Z.of_nat (Rows t)) (t :: Lrev).
Proof.
  intros ((flag & Hasm) & Hsame & HsameL & Hcols) Hst Hft.
  assert (pendingAll (openV t a) = pendingAll a ++ [marker; t]) as Hall.
  { unfold pendingAll, openV; simpl.
    now rewrite reverse_cons, chunks_snoc, app_assoc. }
  assert (assemble (filter (λ t, Rows t ≠ 0%nat) Lrev, flag) [marker; t]
          = Some (expected (t :: Lrev))) as Hend.
  { rewrite assemble_marker_frame. f_equal. destruct (decide _) as [Hz|Hnz].
    - now rewrite expected_no_rows.
    - now rewrite expected_rows. }
  split; [|split; [|split; [|split; [|split]]]].
  - unfold pendingLive, pendingAll, openV, liveCont in *; simpl.
    rewrite reverse_cons, chunks_snoc.
    destruct (contV a) as [c|]; simpl in *.
    2:{ rewrite app_assoc. erewrite assemble_app by exact Hasm. exact Hend. }
    destruct (decide (Rows c = 0%nat)) as [Hz|Hnz]; simpl in *.
    2:{ rewrite app_comm_cons, app_assoc.
        erewrite assemble_app by exact Hasm. exact Hend. }
    apply assemble_app_inv in Hasm as (S & HS & HX).
    erewrite assemble_app by exact HS.
    cbn [assemble] in HX. rewrite (assembleStep_zero S c) in HX by exact Hz.
    cbn [mbind option_bind] in HX.
    rewrite (assemble_chunks_flag S false).
    erewrite assemble_app by exact HX. exact Hend.
  - rewrite Hall, sum_list_with_app. simpl. unfold pendingRows. lia.
  - rewrite Hall. apply Forall_app. split; [exact Hsame|].
    repeat constructor; exact Hst.
  - now constructor.
  - now constructor.
  - reflexivity.
Qed.

(** A row is written. *)
Lemma valueInv_row (a : pending) (cnt : Z) (t' : Frame) (Lrest : list Frame)
    (fields : list value) :
  valueInv a cnt (t' :: Lrest) →
  length fields = length (Fields t') →
  ∃ t, currentV a = Some t ∧
       length (Fields t) = length (Fields t') ∧
       valueInv (setCurrent (appendRowValues t fields) a) (cnt + 1)
                (appendRowValues t' fields :: Lrest).
Proof.
  intros (Hasm & Hcnt & Hsame & HsameL & Hcols & Hlink) Hlen.
  apply Forall_cons in HsameL as [Hst' HsameL].
  apply Forall_cons in Hcols as [Hft' Hcols].
  assert (∃ t, currentV a = Some t ∧ EmptyCopy t = EmptyCopy t') as (t & Hcur & Hschema).
  { unfold currentV. destruct (newR a) as [|t0 rest].
    - destruct (contV a) as [c|]; [eauto | contradiction].
    - subst t0. eauto. }
  pose proof (EmptyCopy_fields_length _ _ Hschema) as Hfl.
  assert (Fields t ≠ []) as Hft.
  { intros Hnil. rewrite Hnil in Hfl. destruct (Fields t'); [contradiction | discriminate]. }
  assert (length fields = length (Fields t)) as Hlen' by congruence.
  exists t. split; [exact Hcur|]. split; [exact Hfl|].
  destruct (setCurrent_facts a t (appendRowValues t fields) Hcur)
    as (Hcur1 & Hinit1 & Hsent1 & Hall1).
  pose proof (pendingAll_current a t Hcur) as Hall0.
  assert (sameLen t) as Hst.
  { pose proof Hsame as Hsame0. rewrite Hall0 in Hsame0.
    apply Forall_app in Hsame0 as [_ Hlast].
    exact (proj1 (Forall_singleton _ _) Hlast). }
  assert (Rows (appendRowValues t fields) ≠ 0%nat) as Hnz1
    by (rewrite Rows_appendRowValues by auto; lia).
  assert (Rows (appendRowValues t' fields) ≠ 0%nat) as Hnz1'
    by (rewrite Rows_appendRowValues by auto; lia).
  split; [|split; [|split; [|split; [|split]]]].
  - rewrite Hsent1. rewrite expected_rows by exact Hnz1'.
    unfold pendingLive, liveCont, setCurrent, currentV in *.
    destruct (newR a) as [|t0 rest] eqn:Hnew; simpl in *.
    + (* the continuation is the current frame *)
      rewrite Hcur in *. rewrite app_nil_r in *.
      destruct (decide (Rows (appendRowValues t fields) = 0%nat)); [contradiction|].
      destruct (decide (Rows t = 0%nat)) as [Hz|Hnz].
      * rewrite app_nil_r in Hasm.
        erewrite assemble_app by exact Hasm. simpl.
        unfold expected.
        destruct (decide (Rows t' = 0%nat)) as [Hz'|Hnz'].
        -- rewrite filter_cons_False by (intros ?; contradiction).
           rewrite bool_decide_eq_false_2 by (intros ?; contradiction).
           rewrite assembleStep_new by exact Hnz1. simpl.
           rewrite <- (sameLen_no_rows t Hst Hz), Hschema, (sameLen_no_rows t' Hst' Hz').
           reflexivity.
        -- rewrite filter_cons_True by exact Hnz'.
           rewrite bool_decide_eq_true_2 by exact Hnz'.
           erewrite assembleStep_merge; [reflexivity | exact Hnz1|].
           apply mergeFrame_appended; [|congruence | congruence].
           apply mergeFrame_no_rows; auto.
      * apply assemble_app_inv in Hasm as (S & HS & Hstep).
        erewrite assemble_app by exact HS. simpl in *.
        destruct (assembleStep S t) as [S1|] eqn:Hs1; [|discriminate].
        injection Hstep as ->.
        unfold assembleStep in Hs1 |- *.
        destruct (decide (Rows t = 0%nat)); [contradiction|].
        destruct (decide (Rows (appendRowValues t fields) = 0%nat)); [contradiction|].
        destruct S as [[|s srest] [|]]; simpl in *; try discriminate.
        -- injection Hs1 as Hs1 Hflag.
           destruct (decide (Rows t' = 0%nat)) as [Hz'|Hnz'].
           { rewrite bool_decide_eq_false_2 in Hflag by (intros ?; contradiction).
             discriminate. }
           rewrite filter_cons_True in Hs1 by exact Hnz'. injection Hs1 as -> ->.
           reflexivity.
        -- destruct (mergeFrame s t) as [m|] eqn:Hm; [|discriminate]. simpl in Hs1.
           injection Hs1 as Hs1 Hflag.
           destruct (decide (Rows t' = 0%nat)) as [Hz'|Hnz'].
           { rewrite bool_decide_eq_false_2 in Hflag by (intros ?; contradiction).
             discriminate. }
           rewrite filter_cons_True in Hs1 by exact Hnz'. injection Hs1 as -> ->.
           erewrite mergeFrame_appended; [reflexivity | exact Hm | | congruence].
           unfold mergeFrame in Hm.
           destruct (datasourcetest.mergeFields (Fields s) (Fields t)) as [fds|] eqn:Hmf;
             [|discriminate].
           injection Hm as Hm. apply mergeFields_length in Hmf.
           rewrite <- Hm in Hfl. simpl in Hfl. congruence.
        -- injection Hs1 as Hs1 Hflag.
           destruct (decide (Rows t' = 0%nat)) as [Hz'|Hnz'].
           { rewrite bool_decide_eq_false_2 in Hflag by (intros ?; contradiction).
             discriminate. }
           rewrite filter_cons_True in Hs1 by exact Hnz'. injection Hs1 as -> ->.
           reflexivity.
    + (* the latest table opened is the current frame *)
      injection Hcur as ->. subst t'.
      rewrite reverse_cons, chunks_snoc, !app_assoc in Hasm |- *.
      rewrite <- (app_assoc (sentV a)) in Hasm |- *.
      apply assemble_app_inv in Hasm as (S & HS & Hlast).
      erewrite assemble_app by exact HS.
      rewrite assemble_marker_frame in Hlast |- *.
      destruct (decide (Rows (appendRowValues t fields) = 0%nat)); [contradiction|].
      f_equal. f_equal.
      destruct (decide (Rows t = 0%nat)) as [Hz|Hnz]; injection Hlast as Hlast _.
      * try rewrite filter_cons_False in Hlast by (intros ?; contradiction).
        congruence.
      * try rewrite filter_cons_True in Hlast by exact Hnz. congruence.
  - rewrite Hall1, sum_Rows_snoc. rewrite Hall0, sum_Rows_snoc in Hcnt.
    rewrite Rows_appendRowValues by auto. lia.
  - rewrite Hall1. rewrite Hall0 in Hsame.
    apply Forall_app in Hsame as [Hinit _]. apply Forall_app. split; [exact Hinit|].
    constructor; [|constructor].
    now apply sameLen_appendRowValues.
  - constructor; [now apply sameLen_appendRowValues | exact HsameL].
  - constructor; [now apply Fields_appendRowValues_ne | exact Hcols].
  - unfold setCurrent, currentV in *. destruct (newR a) as [|t0 rest]; simpl.
    + rewrite !EmptyCopy_appendRowValues by auto. exact Hschema.
    + injection Hcur as ->. now subst.
Qed.

Lemma sum_Rows_zero (l : list Frame) :
  sum_list_with Rows l = 0%nat → Forall (λ f, Rows f = 0%nat) l.
Proof.
  induction l as [|f l IH]; simpl; intros Hsum; constructor; [lia|].
  apply IH. lia.
Qed.

Lemma currentV_None (a : pending) :
  currentV a = None → newR a = [] ∧ contV a = None.
Proof.
  unfold currentV. destruct (newR a); [auto | discriminate].
Qed.

(** The frames pending are sent and the writer is reset. *)
Lemma valueInv_flush (a : pending) (cnt : Z) (Lrev : list Frame) :
  valueInv a cnt Lrev → cnt ≠ 0 →
  ∃ t, currentV a = Some t ∧ valueInv (flushV a) 0 Lrev.
Proof.
  intros (Hasm & Hcnt & Hsame & HsameL & Hcols & Hlink) Hnz.
  destruct (currentV a) as [t|] eqn:Hcur.
  2:{ apply currentV_None in Hcur as [Hn Hc]. unfold pendingAll in Hcnt.
      rewrite Hn, Hc in Hcnt. simpl in Hcnt. contradiction. }
  exists t. split; [reflexivity|]. unfold flushV. rewrite Hcur.
  split; [|split; [|split; [|split; [|split]]]]; simpl.
  - unfold pendingLive, liveCont; simpl. rewrite Rows_EmptyCopy.
    destruct (decide (0 = 0)%nat) as [_|?]; [|contradiction]. simpl.
    rewrite app_nil_r.
    apply assemble_app_inv in Hasm as (S & HS & Hlive).
    erewrite assemble_app by exact HS.
    unfold pendingAll, pendingLive, liveCont in *.
    destruct (contV a) as [c|]; simpl; [|exact Hlive].
    destruct (decide (Rows c = 0%nat)) as [Hz|?]; [|exact Hlive].
    simpl in Hlive. rewrite (assembleStep_zero S c) by exact Hz.
    cbn [mbind option_bind].
    destruct (reverse (newR a)) as [|t0 l] eqn:Hrev.
    + simpl in Hcnt. lia.
    + rewrite chunks_cons in Hlive |- *. cbn [assemble] in Hlive |- *.
      rewrite (assembleStep_zero S marker) in Hlive by reflexivity.
      rewrite (assembleStep_zero (S.1, false) marker) by reflexivity.
      exact Hlive.
  - unfold pendingAll; simpl. rewrite Rows_EmptyCopy. reflexivity.
  - unfold pendingAll; simpl. repeat constructor. apply sameLen_EmptyCopy.
  - exact HsameL.
  - exact Hcols.
  - rewrite EmptyCopy_idem. unfold currentV in Hcur.
    destruct (newR a) as [|t0 rest].
    + rewrite Hcur in Hlink. destruct Lrev; [contradiction | exact Hlink].
    + injection Hcur as ->. destruct Lrev; [contradiction | now subst].
Qed.

Lemma sentV_flushV (a : pending) : sentV (flushV a) = sentV a ++ pendingAll a.
Proof.
  unfold flushV. destruct (currentV a) as [t|] eqn:Hcur; [reflexivity|].
  apply currentV_None in Hcur as [Hn Hc]. unfold pendingAll. rewrite Hn, Hc.
  simpl. now rewrite app_nil_r.
Qed.

Lemma pendingRows_flushV (a : pending) : pendingRows (flushV a) = 0.
Proof.
  unfold flushV, pendingRows. destruct (currentV a) as [t|] eqn:Hcur.
  - unfold pendingAll; simpl. now rewrite Rows_EmptyCopy.
  - apply currentV_None in Hcur as [Hn Hc]. unfold pendingAll. now rewrite Hn, Hc.
Qed.

(** A state at rest is sent and reset. *)
Lemma closedInv_flush (a : pending) (Lrev : list Frame) :
  closedInv a Lrev → closedInv (flushV a) Lrev.
Proof.
  intros ((flag & Hasm) & Hsame & HsameL & Hcols).
  unfold flushV. destruct (currentV a) as [t|]; [|repeat split; eauto].
  split; [|split; [|auto]].
  - exists false. unfold pendingAll at 2; simpl.
    erewrite assemble_app by exact Hasm. cbn [assemble].
    rewrite assembleStep_zero by apply Rows_EmptyCopy. reflexivity.
  - unfold pendingAll; simpl. repeat constructor. apply sameLen_EmptyCopy.
Qed.

(** Nothing is pending: what was sent assembles to the tables with rows. *)
Lemma closedInv_final (a : pending) (Lrev : list Frame) :
  closedInv a Lrev → pendingRows a = 0 →
  ∃ flag, assemble ([], false) (sentV a)
          = Some (filter (λ t, Rows t ≠ 0%nat) Lrev, flag).
Proof.
  intros ((flag & Hasm) & _) Hcnt.
  apply assemble_app_inv in Hasm as (S & HS & Hpend).
  assert (Forall (λ f, Rows f = 0%nat) (pendingAll a)) as Hzero
    by (apply sum_Rows_zero; unfold pendingRows in Hcnt; lia).
  destruct (assemble_no_rows S _ Hzero) as (flag' & Hf).
  rewrite Hf in Hpend. injection Hpend as Hl _.
  exists S.2. rewrite HS. f_equal. destruct S as [S1 S2]; simpl in *.
  now rewrite Hl.
Qed.

End RoundTripValues.




(** ** What [flush] sends and what it leaves *)

Section FlushBatches.
Import backend.
Context {bytes : Type}.
Variable MarshalArrow : Frame → bytes + error.
Variable rangeSend rangeReset :
  gmap string chunkingState → list (string * chunkingState).
Hypothesis rangeSend_perm : ∀ m, rangeSend m ≡ₚ map_to_list m.
Hypothesis rangeReset_perm : ∀ m, rangeReset m ≡ₚ map_to_list m.

Local Abbreviation flush := (flush MarshalArrow rangeSend rangeReset).
Local Abbreviation Close := (Close MarshalArrow rangeSend rangeReset).
Local Abbreviation WriteFrame := (WriteFrame MarshalArrow rangeSend rangeReset).
Local Abbreviation WriteFrameRow := (WriteFrameRow MarshalArrow rangeSend rangeReset).
Local Abbreviation WriteFrameRows :=
  (producer.WriteFrameRows MarshalArrow rangeSend rangeReset).
Local Abbreviation reachable := (reachable MarshalArrow rangeSend rangeReset).
Local Abbreviation marshalFrames := (marshalFrames MarshalArrow).
Local Abbreviation batchOf := (batchOf MarshalArrow).

(** *** The batches of one flush *)

(** Whatever [flush] returns, what it has sent is, for the states that
    the first loop has visited, their batches in that order. *)
Lemma flush_sent_inv (h h' : Heap) (w w' : chunkedDataWriter bytes)
    (e : option error) :
  flush h w = Ret (e, h', w') →
  ∃ visited batches,
    sent (stream w') = sent (stream w) ++ batches ∧
    visited `prefix_of` rangeSend (states w) ∧
    Forall2 (batchOf h) visited batches ∧
    (count w = 0 → batches = []) ∧
    (count w ≠ 0 → e = None → visited = rangeSend (states w)).
Proof.
  unfold backend.flush. destruct (decide _) as [Hz|Hnz].
  - intros [= <- <- <-]. exists [], []. rewrite app_nil_r.
    split; [reflexivity|]. split; [apply prefix_nil|]. split; [constructor|].
    split; [reflexivity | contradiction].
  - destruct (sendLoop _ _ _ _) as [[strm e1]|] eqn:Hs; simpl; [|discriminate].
    destruct (sendLoop_sent _ _ _ _ _ _ Hs)
      as (visited & batches & Hsent & Hpre & Hall & Hnone).
    intros Hres.
    assert (sent (stream w') = sent strm ∧ e = e1) as [Hw' ->].
    { destruct e1 as [e1|]; [now injection Hres as <- <- <-|].
      destruct (resetLoop _ _ _) as [[h1 sts]|]; simpl in Hres; [|discriminate].
      now injection Hres as <- <- <-. }
    exists visited, batches. rewrite Hw'. split; [exact Hsent|].
    split; [exact Hpre|]. split; [exact Hall|]. split; [contradiction | auto].
Qed.

Lemma batches_RefId (h : Heap) (visited : list (string * chunkingState))
    (batches : list (ChunkedDataResponse bytes)) :
  Forall2 (batchOf h) visited batches → pluginv2.RefId <$> batches = visited.*1.
Proof.
  induction 1 as [|kv resp visited batches [Hid _] _ IH]; [reflexivity|].
  rewrite !fmap_cons. congruence.
Qed.

(** The batch of a refID among the batches of one flush. *)
Lemma batch_of_refID (h : Heap) (visited : list (string * chunkingState))
    (batches : list (ChunkedDataResponse bytes)) (refID : string)
    (st : chunkingState) :
  Forall2 (batchOf h) visited batches →
  NoDup visited.*1 →
  (refID, st) ∈ visited →
  ∃ resp, filter (λ r, pluginv2.RefId r = refID) batches = [resp] ∧
          batchOf h (refID, st) resp.
Proof.
  intros Hall. induction Hall as [|kv resp visited batches Hb Hall IH];
    intros Hnd Hin; [now apply elem_of_nil in Hin|].
  rewrite fmap_cons in Hnd. apply NoDup_cons in Hnd as [Hnotin Hnd].
  pose proof Hb as (Hid & _).
  assert (∀ r, r ∉ visited.*1 →
               filter (λ x, pluginv2.RefId x = r) batches = []) as Hnone.
  { intros r Hr. rewrite <- (batches_RefId _ _ _ Hall) in Hr.
    clear -Hr. induction batches as [|x batches IH]; [reflexivity|].
    rewrite fmap_cons in Hr. apply not_elem_of_cons in Hr as [Hne Hr].
    rewrite filter_cons_False by (intros Heq; now apply Hne). now apply IH. }
  apply elem_of_cons in Hin as [<-|Hin].
  - exists resp. split; [|exact Hb].
    rewrite filter_cons_True by exact Hid. simpl in Hnotin.
    now rewrite (Hnone refID Hnotin).
  - destruct (IH Hnd Hin) as (resp' & Hf & Hb'). exists resp'.
    split; [|exact Hb']. rewrite filter_cons_False; [exact Hf|].
    rewrite Hid. intros Heq. apply Hnotin. rewrite Heq.
    apply list_elem_of_fmap. exists (refID, st). auto.
Qed.

(** A batch holds, for every frame of its state and in their order, the
    encoding of the frame as the heap has it. *)
Lemma batchOf_encodes (h : Heap) (kv : string * chunkingState)
    (resp : ChunkedDataResponse bytes) :
  batchOf h kv resp →
  pluginv2.RefId resp = kv.1 ∧
  Forall2 (λ p b, ∃ f, h !! p = Some f ∧ MarshalArrow f = inl b)
          (frames kv.2) (pluginv2.Frames resp) ∧
  pluginv2.Status resp = int32 (Status kv.2) ∧
  pluginv2.Error resp = from_option error_string EmptyString (Error kv.2) ∧
  pluginv2.ErrorSource resp = ErrorSource kv.2.
Proof.
  intros (Hid & Hm & Hrest). split; [exact Hid|]. split; [|exact Hrest].
  now apply (marshalFrames_encodes MarshalArrow).
Qed.


(** *** A table across an automatic flush *)

Lemma WriteFrame_below_threshold (refID : string) (p : loc) (fr : Frame)
    (h : Heap) (w : chunkedDataWriter bytes) :
  h !! p = Some fr →
  0 ≤ count w →
  count w + Z.of_nat (Rows fr) < maxBatchSize →
  WriteFrame refID (Some p) h w
  = Ret (None, <[p := setRefID refID fr]> h,
         mkWriter (stream w)
           (<[refID := addFrame (default zeroState (states w !! refID)) p]> (states w))
           (count w + Z.of_nat (Rows fr))).
Proof.
  intros Hp H0 Hlt. unfold backend.WriteFrame, deref; simpl. rewrite Hp; simpl.
  unfold maxBatchSize in *. rewrite wrap64_small by lia.
  unfold backend.maybeFlush; simpl. unfold maxBatchSize.
  destruct (decide _) as [_|?]; [reflexivity | lia].
Qed.

(** C7 (as the code has it).  First, every flush that returns no error:
    with a zero count it sends nothing and leaves heap and writer as they
    are; with a nonzero count it has sent, for every state of the writer,
    the batch that encodes the frames of the state as they were, the marker
    frames among them, the count is zero, and every state is reset: a
    state that had a current frame holds exactly one frame, a newly
    allocated empty copy of the current frame, which is its current
    frame, has no rows and the same columns, and is not the marker frame;
    a state without a current frame is the zero state; no state is left
    with the marker frame among its frames.

    Second, a table across an automatic flush: [WriteFrame] for the frame
    [fr] and rows, the last of which brings the count to the threshold,
    then more rows below the threshold and [Close].  The first calls send
    nothing.  The flush within the last row of the first part sends one
    batch for the refID: the encodings of the frames that were pending for
    it before, then the encoding of the marker frame, then that of the
    table with the rows so far.  The flush of [Close] sends one batch for
    the refID with exactly one encoded frame, that of the continuation:
    the empty copy of the table with the rows written since; it is not
    the marker frame and has at least one row. *)
Theorem flush_resets_states_marker_sent_once :
  (∀ (h h' : Heap) (w w' : chunkedDataWriter bytes),
     flush h w = Ret (None, h', w') →
     (count w = 0 → h' = h ∧ w' = w) ∧
     (count w ≠ 0 →
      count w' = 0 ∧
      h `prefix_of` h' ∧
      (∃ visited batches,
         visited ≡ₚ map_to_list (states w) ∧
         sent (stream w') = sent (stream w) ++ batches ∧
         Forall2 (λ kv resp,
                    pluginv2.RefId resp = kv.1 ∧
                    Forall2 (λ p b, ∃ f, h !! p = Some f ∧ MarshalArrow f = inl b)
                            (frames kv.2) (pluginv2.Frames resp) ∧
                    pluginv2.Status resp = int32 (Status kv.2) ∧
                    pluginv2.Error resp
                    = from_option error_string EmptyString (Error kv.2) ∧
                    pluginv2.ErrorSource resp = ErrorSource kv.2)
                 visited batches) ∧
      (∀ refID st, states w !! refID = Some st →
         match curFrame st with
         | Some p => ∀ cur, h !! p = Some cur →
             ∃ q, states w' !! refID
                    = Some (mkState [q] (Some q) None 0 EmptyString) ∧
                  h' !! q = Some (EmptyCopy cur) ∧
                  Rows (EmptyCopy cur) = 0%nat ∧
                  FieldName <$> Fields (EmptyCopy cur) = FieldName <$> Fields cur ∧
                  h !! q = None ∧
                  q ≠ markerFrame
         | None => states w' !! refID = Some zeroState
         end) ∧
      (∀ refID st', states w' !! refID = Some st' → markerFrame ∉ frames st')))
  ∧
  (∀ (refID : string) (p : loc) (fr : Frame)
     (rowsA : list (list value)) (row : list value) (rowsB : list (list value))
     (h h1 h2 h3 h4 h5 : Heap) (w w1 w2 w3 w4 w5 : chunkedDataWriter bytes)
     (e1 e2 e4 : option error),
     h !! markerFrame = Some (NewFrame EmptyString []) →
     h !! p = Some fr → p ≠ markerFrame → Fields fr ≠ [] →
     Forall (λ r, length r = length (Fields fr)) (rowsA ++ row :: rowsB) →
     0 ≤ count w →
     count w + Z.of_nat (Rows fr) + Z.of_nat (length rowsA) + 1 = maxBatchSize →
     rowsB ≠ [] → Z.of_nat (length rowsB) < maxBatchSize →
     WriteFrame refID (Some p) h w = Ret (e1, h1, w1) →
     WriteFrameRows refID rowsA h1 w1 = Ret (e2, h2, w2) →
     WriteFrameRow refID row h2 w2 = Ret (None, h3, w3) →
     WriteFrameRows refID rowsB h3 w3 = Ret (e4, h4, w4) →
     Close h4 w4 = Ret (None, h5, w5) →
     let table := foldl producer.appendRowValues (setRefID refID fr)
                        (rowsA ++ [row]) in
     let continuation := foldl producer.appendRowValues (EmptyCopy table) rowsB in
     e1 = None ∧ e2 = None ∧ e4 = None ∧
     sent (stream w2) = sent (stream w) ∧
     sent (stream w4) = sent (stream w3) ∧
     Rows table = (Rows fr + length rowsA + 1)%nat ∧
     Rows continuation = length rowsB ∧
     ∃ batches1 batches2 resp1 resp2 before m b1 b2 q,
       sent (stream w3) = sent (stream w) ++ batches1 ∧
       sent (stream w5) = sent (stream w) ++ batches1 ++ batches2 ∧
       filter (λ r, pluginv2.RefId r = refID) batches1 = [resp1] ∧
       filter (λ r, pluginv2.RefId r = refID) batches2 = [resp2] ∧
       pluginv2.Frames resp1 = before ++ [m; b1] ∧
       Forall2 (λ p0 b, ∃ f, <[p := table]> h !! p0 = Some f ∧
                             MarshalArrow f = inl b)
               (frames (default zeroState (states w !! refID))) before ∧
       MarshalArrow (NewFrame EmptyString []) = inl m ∧
       MarshalArrow table = inl b1 ∧
       pluginv2.Frames resp2 = [b2] ∧
       MarshalArrow continuation = inl b2 ∧
       states w3 !! refID = Some (mkState [q] (Some q) None 0 EmptyString) ∧
       h3 !! q = Some (EmptyCopy table) ∧
       h !! q = None ∧
       q ≠ markerFrame).
Proof.
  split.
  - intros h h' w w' Hflush. split.
    + intros Hz. unfold backend.flush in Hflush.
      destruct (decide (count w = 0)); [|contradiction].
      now injection Hflush as <- <-.
    + intros Hnz.
      destruct (flush_reset_inv MarshalArrow rangeSend rangeReset rangeReset_perm
                  h h' w w' Hnz Hflush) as (Hc & Hpre & Hreset & Hmark).
      split; [exact Hc|]. split; [exact Hpre|]. split; [|auto].
      destruct (flush_sent_inv _ _ _ _ _ Hflush)
        as (visited & batches & Hsent & _ & Hall & _ & Hfull).
      exists visited, batches. rewrite (Hfull Hnz eq_refl) in *.
      split; [apply rangeSend_perm|]. split; [exact Hsent|].
      eapply Forall2_impl; [exact Hall|]. intros kv resp. apply batchOf_encodes.
  - intros refID p fr rowsA row rowsB h h1 h2 h3 h4 h5 w w1 w2 w3 w4 w5 e1 e2 e4
           Hmarker Hp Hpm Hfields Hall H0 Hcount HB HBlt H1 H2 H3 H4 H5.
    cbv zeta.
    set (table := foldl producer.appendRowValues (setRefID refID fr) (rowsA ++ [row])).
    set (continuation := foldl producer.appendRowValues (EmptyCopy table) rowsB).
    set (st0 := default zeroState (states w !! refID)).
    apply Forall_app in Hall as [HallA Hall].
    apply Forall_cons in Hall as [Hrow HallB].
    unfold maxBatchSize in *.
    pose proof (lookup_lt_Some _ _ _ Hp) as Hplt.
    (* the frame is written *)
    rewrite (WriteFrame_below_threshold refID p fr h w Hp H0) in H1
      by (unfold maxBatchSize; lia).
    injection H1 as <- <- <-.
    (* the rows before the threshold *)
    erewrite (WriteFrameRows_below_threshold MarshalArrow rangeSend rangeReset
                refID rowsA _ _ (addFrame st0 p) p (setRefID refID fr)) in H2;
      [| simpl; apply lookup_insert_eq | reflexivity
       | apply list_lookup_insert_eq; exact Hplt | exact HallA | simpl; lia
       | simpl; unfold maxBatchSize; lia].
    injection H2 as <- <- <-. simpl in *.
    rewrite list_insert_insert_eq in H3.
    set (tableA := foldl producer.appendRowValues (setRefID refID fr) rowsA) in *.
    assert (length (Fields tableA) = length (Fields fr)) as HfA
      by (unfold tableA; now rewrite Fields_appendRows).
    (* the row that reaches the threshold *)
    unfold backend.WriteFrameRow in H3. simpl in H3.
    rewrite lookup_insert_eq in H3. simpl in H3. unfold deref in H3.
    rewrite list_lookup_insert_eq in H3 by exact Hplt. simpl in H3.
    destruct (decide (length row ≠ length (Fields tableA))) as [Hne|_];
      [congruence|].
    unfold AppendRow in H3. rewrite appendVals_zip in H3 by congruence.
    simpl in H3. rewrite list_insert_insert_eq in H3.
    fold (producer.appendRowValues tableA row) in H3.
    assert (producer.appendRowValues tableA row = table) as Htable
      by (unfold table, tableA; now rewrite foldl_app).
    rewrite Htable in H3.
    rewrite wrap64_small in H3 by lia.
    unfold backend.maybeFlush in H3. simpl in H3. unfold maxBatchSize in H3.
    destruct (decide _) as [?|_] in H3; [lia|].
    set (hA := <[p := table]> h) in *.
    set (stsA := <[refID := addFrame st0 p]> (states w)) in *.
    set (wA := mkWriter (stream w) stsA
                 (count w + Z.of_nat (Rows fr) + Z.of_nat (length rowsA) + 1)) in *.
    assert (count wA ≠ 0) as HnzA by (simpl; lia).
    destruct (flush_sent_inv _ _ _ _ _ H3)
      as (visited1 & batches1 & Hsent1 & _ & Hall1 & _ & Hfull1).
    rewrite (Hfull1 HnzA eq_refl) in Hall1. clear Hfull1 visited1.
    destruct (batch_of_refID hA _ _ refID (addFrame st0 p) Hall1)
      as (resp1 & Hf1 & Hb1).
    { apply range_NoDup, rangeSend_perm. }
    { apply (range_elem_of rangeSend); [apply rangeSend_perm|].
      simpl. apply lookup_insert_eq. }
    destruct Hb1 as (_ & Hm1 & _). simpl in Hm1.
    apply marshalFrames_app_inv in Hm1 as (before & after & Hfr1 & Hbefore & Hafter).
    apply marshalFrames_cons_inv in Hafter as (fm & m & Hfm & Hm & Hafter).
    apply marshalFrames_cons_inv in Hafter as (ft & b1 & Hft & Hb1 & Hafter).
    simpl in Hafter. injection Hafter as <-.
    assert (fm = NewFrame EmptyString []) as ->.
    { unfold hA in Hfm. rewrite list_lookup_insert_ne in Hfm by auto. congruence. }
    assert (ft = table) as ->.
    { unfold hA in Hft. rewrite list_lookup_insert_eq in Hft by exact Hplt.
      congruence. }
    destruct (flush_reset_inv MarshalArrow rangeSend rangeReset rangeReset_perm
                hA h3 wA w3 HnzA H3) as (Hc3 & Hpre3 & Hreset3 & _).
    specialize (Hreset3 refID (addFrame st0 p)). simpl in Hreset3.
    destruct (Hreset3 (lookup_insert_eq _ _ _) table) as (q & Hq & Hhq & _ & _ & HqA & Hqm).
    { unfold hA. apply list_lookup_insert_eq. exact Hplt. }
    assert (h !! q = None) as Hqh.
    { apply lookup_ge_None. apply lookup_ge_None in HqA.
      unfold hA in HqA. now rewrite length_insert in HqA. }
    (* the rows after the flush *)
    assert (length (Fields table) = length (Fields fr)) as Hft'.
    { unfold table. rewrite Fields_appendRows; [reflexivity|].
      apply Forall_app. split; [exact HallA|]. now repeat constructor. }
    assert (length (Fields (EmptyCopy table)) = length (Fields fr)) as Hfe
      by (simpl; now rewrite length_fmap).
    erewrite (WriteFrameRows_below_threshold MarshalArrow rangeSend rangeReset
                refID rowsB h3 w3 (mkState [q] (Some q) None 0 EmptyString) q
                (EmptyCopy table)) in H4;
      [| exact Hq | reflexivity | exact Hhq
       | eapply Forall_impl; [exact HallB|]; intros r Hr; simpl in *; congruence
       | lia | unfold maxBatchSize; lia].
    injection H4 as <- <- <-. fold continuation in H5.
    (* the flush of [Close] *)
    unfold backend.Close in H5.
    assert (length rowsB ≠ 0%nat) as HlenB by (destruct rowsB; [contradiction | discriminate]).
    set (w4 := mkWriter (stream w3) (states w3) (count w3 + Z.of_nat (length rowsB))) in *.
    assert (count w4 ≠ 0) as Hnz4 by (simpl; lia).
    destruct (flush_sent_inv _ _ _ _ _ H5)
      as (visited2 & batches2 & Hsent2 & _ & Hall2 & _ & Hfull2).
    rewrite (Hfull2 Hnz4 eq_refl) in Hall2. clear Hfull2 visited2.
    destruct (batch_of_refID _ _ _ refID
                (mkState [q] (Some q) None 0 EmptyString) Hall2)
      as (resp2 & Hf2 & Hb2).
    { apply range_NoDup, rangeSend_perm. }
    { apply (range_elem_of rangeSend); [apply rangeSend_perm|]. simpl. exact Hq. }
    destruct Hb2 as (_ & Hm2 & _).
    change (marshalFrames (<[q := continuation]> h3) [q] []
            = Ret (inl (pluginv2.Frames resp2))) in Hm2.
    apply marshalFrames_cons_inv in Hm2 as (fc & b2 & Hfc & Hb2 & Hm2).
    simpl in Hm2. injection Hm2 as Hm2.
    rewrite list_lookup_insert_eq in Hfc by exact (lookup_lt_Some _ _ _ Hhq).
    injection Hfc as <-.
    split; [reflexivity|]. split; [reflexivity|]. split; [reflexivity|].
    split; [reflexivity|]. split; [reflexivity|]. split.
    { unfold table. rewrite Rows_appendRows.
      - rewrite length_app. change (Rows (setRefID refID fr)) with (Rows fr).
        simpl. lia.
      - exact Hfields.
      - apply Forall_app. split; [exact HallA|]. now repeat constructor. }
    split.
    { unfold continuation. rewrite Rows_appendRows.
      - now rewrite Rows_EmptyCopy.
      - intros Hnil. rewrite Hnil in Hfe. simpl in Hfe.
        destruct (Fields fr); [contradiction | discriminate].
      - eapply Forall_impl; [exact HallB|]. intros r Hr. simpl in *. congruence. }
    exists batches1, batches2, resp1, resp2, before, m, b1, b2, q.
    split; [exact Hsent1|]. split.
    { rewrite Hsent2. simpl. rewrite Hsent1. now rewrite <- app_assoc. }
    split; [exact Hf1|]. split; [exact Hf2|]. split; [exact Hfr1|].
    split; [now apply (marshalFrames_encodes MarshalArrow)|]. split; [exact Hm|]. split; [exact Hb1|].
    split; [now rewrite <- Hm2|]. split; [exact Hb2|]. auto.
Qed.

End FlushBatches.

(** ** The flush on concrete writers *)

Section ConcreteFlushBatches.
Import Examples.



(** C7, the claim refuted for a flush with a zero count: a table of [A]
    without rows is opened and the writer is closed.  The flush of [Close]
    returns no error; the state of [A], which has an open frame, is not
    reset: it holds the marker frame and the frame as before, and nothing
    has been sent. *)
Lemma flush_zero_count_resets_nothing_counterexample :
  ∃ h1 w1,
    emptyTable range = Ret (None, h1, w1) ∧
    Close range h1 w1 = Ret (None, h1, w1) ∧
    backend.states w1 !! "A"
    = Some (backend.mkState [backend.markerFrame; 1%nat] (Some 1%nat) None 0
                            EmptyString) ∧
    backend.sent (backend.stream w1) = [].
Proof.
  eexists _, _. split; [vm_compute; reflexivity|].
  split; [vm_compute; reflexivity|]. split; vm_compute; reflexivity.
Qed.

(** The flush of [writerA], and a table of 997 rows that gets three rows,
    the third of which is the thousandth pending, then one more row
    before the writer is closed. *)
Lemma flush_resets_states_marker_sent_once_witness :
  (∃ h' w',
     flush range heapA writerA = Ret (None, h', w') ∧
     (backend.count writerA = 0 → h' = heapA ∧ w' = writerA) ∧
     (backend.count writerA ≠ 0 →
      backend.count w' = 0 ∧
      heapA `prefix_of` h' ∧
      (∃ visited batches,
         visited ≡ₚ map_to_list (backend.states writerA) ∧
         backend.sent (backend.stream w')
         = backend.sent (backend.stream writerA) ++ batches ∧
         Forall2 (λ kv resp,
                    pluginv2.RefId resp = kv.1 ∧
                    Forall2 (λ p b, ∃ f, heapA !! p = Some f ∧
                                         MarshalArrow f = inl b)
                            (backend.frames kv.2) (pluginv2.Frames resp) ∧
                    pluginv2.Status resp = int32 (backend.Status kv.2) ∧
                    pluginv2.Error resp
                    = from_option error_string EmptyString (backend.Error kv.2) ∧
                    pluginv2.ErrorSource resp = backend.ErrorSource kv.2)
                 visited batches) ∧
      (∀ refID st, backend.states writerA !! refID = Some st →
         match backend.curFrame st with
         | Some p => ∀ cur, heapA !! p = Some cur →
             ∃ q, backend.states w' !! refID
                    = Some (backend.mkState [q] (Some q) None 0 EmptyString) ∧
                  h' !! q = Some (EmptyCopy cur) ∧
                  Rows (EmptyCopy cur) = 0%nat ∧
                  FieldName <$> Fields (EmptyCopy cur) = FieldName <$> Fields cur ∧
                  heapA !! q = None ∧
                  q ≠ backend.markerFrame
         | None => backend.states w' !! refID = Some backend.zeroState
         end) ∧
      (∀ refID st', backend.states w' !! refID = Some st' →
                    backend.markerFrame ∉ backend.frames st')))
  ∧
  (∃ (h1 h2 h3 h4 h5 : Heap) (w1 w2 w3 w4 w5 : backend.chunkedDataWriter Frame)
     (e1 e2 e4 : option error),
     let fr := NewFrame "a" [col "v" (ints 997)] in
     let h := backend.initHeap ++ [fr] in
     let w := backend.newChunkedDataWriter (backend.mkStream [] None) in
     let rowsA := [[VInt 1]; [VInt 2]] in
     let row := [VInt 3] in
     let rowsB := [[VInt 4]] in
     backend.WriteFrame MarshalArrow range range "A" (Some 1%nat) h w
     = Ret (e1, h1, w1) ∧
     producer.WriteFrameRows MarshalArrow range range "A" rowsA h1 w1
     = Ret (e2, h2, w2) ∧
     WriteFrameRow range "A" row h2 w2 = Ret (None, h3, w3) ∧
     producer.WriteFrameRows MarshalArrow range range "A" rowsB h3 w3
     = Ret (e4, h4, w4) ∧
     Close range h4 w4 = Ret (None, h5, w5) ∧
     let table := foldl producer.appendRowValues (setRefID "A" fr)
                        (rowsA ++ [row]) in
     let continuation := foldl producer.appendRowValues (EmptyCopy table) rowsB in
     e1 = None ∧ e2 = None ∧ e4 = None ∧
     backend.sent (backend.stream w2) = backend.sent (backend.stream w) ∧
     backend.sent (backend.stream w4) = backend.sent (backend.stream w3) ∧
     Rows table = (Rows fr + length rowsA + 1)%nat ∧
     Rows continuation = length rowsB ∧
     ∃ batches1 batches2 resp1 resp2 before m b1 b2 q,
       backend.sent (backend.stream w3) = backend.sent (backend.stream w) ++ batches1 ∧
       backend.sent (backend.stream w5)
       = backend.sent (backend.stream w) ++ batches1 ++ batches2 ∧
       filter (λ r, pluginv2.RefId r = "A") batches1 = [resp1] ∧
       filter (λ r, pluginv2.RefId r = "A") batches2 = [resp2] ∧
       pluginv2.Frames resp1 = before ++ [m; b1] ∧
       Forall2 (λ p0 b, ∃ f, <[1%nat := table]> h !! p0 = Some f ∧
                             MarshalArrow f = inl b)
               (backend.frames (default backend.zeroState (backend.states w !! "A")))
               before ∧
       MarshalArrow (NewFrame EmptyString []) = inl m ∧
       MarshalArrow table = inl b1 ∧
       pluginv2.Frames resp2 = [b2] ∧
       MarshalArrow continuation = inl b2 ∧
       backend.states w3 !! "A"
       = Some (backend.mkState [q] (Some q) None 0 EmptyString) ∧
       h3 !! q = Some (EmptyCopy table) ∧
       h !! q = None ∧
       q ≠ backend.markerFrame).
Proof.
  pose proof (flush_resets_states_marker_sent_once MarshalArrow range range
                range_perm range_perm) as [Hflush Htable].
  split.
  - eexists _, _. split; [vm_compute; reflexivity|].
    apply Hflush. vm_compute; reflexivity.
  - eexists _, _, _, _, _, _, _, _, _, _, _, _, _. cbv zeta.
    split; [vm_compute; reflexivity|]. split; [vm_compute; reflexivity|].
    split; [vm_compute; reflexivity|]. split; [vm_compute; reflexivity|].
    split; [vm_compute; reflexivity|].
    eapply (Htable "A" 1%nat (NewFrame "a" [col "v" (ints 997)])
              [[VInt 1]; [VInt 2]] [VInt 3] [[VInt 4]]
              (backend.initHeap ++ [NewFrame "a" [col "v" (ints 997)]])
              _ _ _ _ _
              (backend.newChunkedDataWriter (backend.mkStream [] None))).
    + reflexivity.
    + reflexivity.
    + discriminate.
    + discriminate.
    + repeat constructor.
    + simpl; lia.
    + vm_compute; reflexivity.
    + discriminate.
    + vm_compute; reflexivity.
    + vm_compute; reflexivity.
    + vm_compute; reflexivity.
    + vm_compute; reflexivity.
    + vm_compute; reflexivity.
    + vm_compute; reflexivity.
Defined.

End ConcreteFlushBatches.
(** *** The writer against the frames as values *)

Section RoundTrip.
Import backend roundtrip reassembly producer.
Context {bytes : Type}.
Variable MarshalArrow : Frame → bytes + error.
Variable UnmarshalArrowFrame : bytes → Frame + error.
Variable rangeSend rangeReset :
  gmap string chunkingState → list (string * chunkingState).
Hypothesis rangeSend_perm : ∀ m, rangeSend m ≡ₚ map_to_list m.
Hypothesis rangeReset_perm : ∀ m, rangeReset m ≡ₚ map_to_list m.

(** The encoding of a frame whose columns have one length can be decoded,
    and gives the frame. *)
Hypothesis codec : ∀ f, sameLen f →
  ∃ b, MarshalArrow f = inl b ∧ UnmarshalArrowFrame b = inl f.

Local Abbreviation flush := (flush MarshalArrow rangeSend rangeReset).
Local Abbreviation maybeFlush := (maybeFlush MarshalArrow rangeSend rangeReset).
Local Abbreviation Close := (Close MarshalArrow rangeSend rangeReset).
Local Abbreviation doCall := (doCall MarshalArrow rangeSend rangeReset).
Local Abbreviation doCalls := (doCalls MarshalArrow rangeSend rangeReset).
Local Abbreviation produce := (produce MarshalArrow rangeSend rangeReset).
Local Abbreviation writerRel := (writerRel UnmarshalArrowFrame).
Local Abbreviation runInv := (runInv UnmarshalArrowFrame).
Local Abbreviation decodeAll := (decodeAll UnmarshalArrowFrame).

Lemma marshalFrames_decodeAll (h : Heap) (ps : list loc) (ts : list Frame)
    (acc : list bytes) :
  Forall2 (λ p t, h !! p = Some t) ps ts → Forall sameLen ts →
  ∃ bs, marshalFrames MarshalArrow h ps acc = Ret (inl (acc ++ bs)) ∧
        decodeAll bs = Some ts.
Proof.
  intros Hall. revert acc.
  induction Hall as [|p t ps ts Hp _ IH]; intros acc Hsame.
  - exists []. simpl. now rewrite app_nil_r.
  - apply Forall_cons in Hsame as [Ht Hsame]. simpl. unfold deref. rewrite Hp. simpl.
    destruct (codec t Ht) as (b & Hm & Hu). rewrite Hm.
    destruct (IH (acc ++ [b]) Hsame) as (bs & Hbs & Hd).
    exists (b :: bs). rewrite Hbs, <- app_assoc. simpl. now rewrite Hu, Hd.
Qed.

(** **** One state *)

Lemma stateRel_pending (h : Heap) (st : chunkingState) (a : pending) :
  stateRel h (Some st) a →
  ∃ t cur, currentV a = Some t ∧ curFrame st = Some cur ∧ h !! cur = Some t ∧
           last (frames st) = Some cur ∧ cur ≠ markerFrame ∧
           Forall2 (λ p t, h !! p = Some t) (frames st) (pendingAll a).
Proof.
  unfold stateRel. destruct (currentV a) as [t|] eqn:Hcur.
  - intros (st0 & init & cur & [= <-] & Hfr & Hcf & Hni & Hnm & Hinit & Hcurh).
    exists t, cur. split; [reflexivity|]. split; [exact Hcf|]. split; [exact Hcurh|].
    split; [rewrite Hfr; apply last_snoc|]. split; [exact Hnm|].
    rewrite Hfr, (pendingAll_current a t Hcur). apply Forall2_app; [exact Hinit|].
    now repeat constructor.
  - discriminate.
Qed.

Lemma stateRel_None (h : Heap) (a : pending) :
  stateRel h None a → currentV a = None.
Proof.
  unfold stateRel. destruct (currentV a); [|reflexivity].
  intros (st & init & cur & Hs & _). discriminate.
Qed.

Lemma pendingAll_None (a : pending) : currentV a = None → pendingAll a = [].
Proof.
  intros [Hn Hc]%currentV_None. unfold pendingAll. now rewrite Hn, Hc.
Qed.

Lemma Forall2_lookup_lt (h : Heap) (ps : list loc) (ts : list Frame) :
  Forall2 (λ p t, h !! p = Some t) ps ts → Forall (λ p, (p < length h)%nat) ps.
Proof.
  induction 1 as [|p t ps ts Hp _ IH]; constructor; [|exact IH].
  exact (lookup_lt_Some _ _ _ Hp).
Qed.

Lemma stateRel_stable (h h1 : Heap) (ost : option chunkingState) (a : pending) :
  (∀ p t, h !! p = Some t → h1 !! p = Some t) →
  stateRel h ost a → stateRel h1 ost a.
Proof.
  intros Hstable. unfold stateRel. destruct (currentV a); [|auto].
  intros (st & init & cur & Hs & Hfr & Hcf & Hni & Hnm & Hinit & Hcurh).
  exists st, init, cur. split; [exact Hs|]. split; [exact Hfr|]. split; [exact Hcf|].
  split; [exact Hni|]. split; [exact Hnm|]. split; [|now apply Hstable].
  eapply Forall2_impl; [exact Hinit|]. intros p x. apply Hstable.
Qed.

Lemma stateRel_insert_other (h : Heap) (ost : option chunkingState) (a : pending)
    (c : loc) (x : Frame) :
  stateRel h ost a → (∀ st, ost = Some st → c ∉ frames st) →
  stateRel (<[c := x]> h) ost a.
Proof.
  unfold stateRel. destruct (currentV a); [|auto].
  intros (st & init & cur & Hs & Hfr & Hcf & Hni & Hnm & Hinit & Hcurh) Hc.
  specialize (Hc st Hs). rewrite Hfr in Hc.
  apply not_elem_of_app in Hc as [Hci Hcc].
  exists st, init, cur. split; [exact Hs|]. split; [exact Hfr|]. split; [exact Hcf|].
  split; [exact Hni|]. split; [exact Hnm|]. split.
  - now apply Forall2_lookup_insert.
  - rewrite list_lookup_insert_ne; [exact Hcurh|].
    intros ->. apply Hcc. now constructor.
Qed.

(** **** The loops of [flush] *)

Lemma sendLoop_sim (h : Heap) (F : string → list Frame)
    (kvs : list (string * chunkingState)) :
  ∀ strm : ServerStream bytes,
    Forall (λ kv, Forall2 (λ p t, h !! p = Some t) (frames kv.2) (F kv.1) ∧
                  Forall sameLen (F kv.1)) kvs →
    credit strm = None →
    ∃ msgs,
      sendLoop MarshalArrow h kvs strm = Ret (mkStream (sent strm ++ msgs) None, None) ∧
      Forall2 (λ kv m, pluginv2.RefId m = kv.1 ∧
                       decodeAll (pluginv2.Frames m) = Some (F kv.1)) kvs msgs.
Proof.
  induction kvs as [|[r st] kvs IH]; intros strm Hall Hcred.
  - exists []. simpl. rewrite app_nil_r. destruct strm as [s c]; simpl in *.
    subst c. split; [reflexivity | constructor].
  - apply Forall_cons in Hall as [[Hf Hs] Hall]. simpl in Hf, Hs.
    destruct (marshalFrames_decodeAll h _ _ [] Hf Hs) as (bs & Hbs & Hd).
    set (resp := pluginv2.mkResponse r bs (int32 (Status st))
                   (match Error st with
                    | Some e => error_string e
                    | None => EmptyString
                    end) (ErrorSource st)).
    destruct (IH (mkStream (sent strm ++ [resp]) None) Hall eq_refl)
      as (msgs & Hsend & Hmsgs).
    exists (resp :: msgs). split.
    + cbn [sendLoop]. rewrite Hbs. simpl. unfold Send. rewrite Hcred.
      fold resp. rewrite Hsend. simpl. now rewrite <- app_assoc.
    + constructor; [|exact Hmsgs]. simpl. auto.
Qed.

Lemma fragmentsOf_batches (F : string → list Frame)
    (kvs : list (string * chunkingState)) (msgs : list (ChunkedDataResponse bytes))
    (r : string) :
  NoDup kvs.*1 →
  Forall2 (λ kv m, pluginv2.RefId m = kv.1 ∧
                   decodeAll (pluginv2.Frames m) = Some (F kv.1)) kvs msgs →
  decodeAll (fragmentsOf r msgs) = Some (if decide (r ∈ kvs.*1) then F r else []).
Proof.
  intros Hnd Hall. induction Hall as [|kv m kvs msgs [Hid Hd] _ IH].
  - reflexivity.
  - rewrite fmap_cons in Hnd |- *. apply NoDup_cons in Hnd as [Hnotin Hnd].
    specialize (IH Hnd). cbn [fragmentsOf].
    destruct (decide (pluginv2.RefId m = r)) as [Hr|Hr].
    + rewrite Hid in Hr. subst r.
      destruct (decide (kv.1 ∈ kvs.*1)) as [?|_]; [contradiction|].
      destruct (decide (kv.1 ∈ kv.1 :: kvs.*1)) as [_|Hn];
        [|exfalso; apply Hn; constructor].
      rewrite <- (app_nil_r (F kv.1)). now apply decodeAll_app.
    + rewrite app_nil_l, IH. f_equal.
      destruct (decide (r ∈ kvs.*1)) as [Hin|Hn];
        destruct (decide (r ∈ kv.1 :: kvs.*1)) as [Hin'|Hn']; try reflexivity.
      * exfalso. apply Hn'. now constructor.
      * apply elem_of_cons in Hin' as [->|?]; [|contradiction]. congruence.
Qed.

Lemma resetLoop_index (kvs : list (string * chunkingState)) :
  ∀ (h h' : Heap) (sts sts' : gmap string chunkingState) (i : nat)
    (r : string) (st : chunkingState),
    resetLoop h kvs sts = Ret (h', sts') →
    NoDup kvs.*1 →
    Forall (λ kv, curFrame kv.2 ≠ None) kvs →
    kvs !! i = Some (r, st) →
    sts' !! r = Some (mkState [(length h + i)%nat] (Some (length h + i)%nat)
                              None 0 EmptyString).
Proof.
  induction kvs as [|[r0 st0] kvs IH]; intros h h' sts sts' i r st Hloop Hnd Hcur Hi;
    [discriminate|].
  simpl in Hloop.
  destruct (reset h st0) as [[h1 st1]|] eqn:Hreset; simpl in Hloop; [|discriminate].
  pose proof (reset_inv _ _ _ _ Hreset) as Hinv.
  apply Forall_cons in Hcur as [Hc0 Hcur]. simpl in Hc0.
  destruct (curFrame st0) as [p|]; [|contradiction].
  destruct Hinv as (cur & Hp & -> & ->).
  rewrite fmap_cons in Hnd. apply NoDup_cons in Hnd as [Hnotin Hnd].
  simpl in Hnotin.
  destruct i as [|i]; simpl in Hi.
  - injection Hi as <- <-.
    rewrite (resetLoop_other _ _ _ _ _ _ Hloop Hnotin), lookup_insert_eq.
    now rewrite Nat.add_0_r.
  - rewrite (IH _ _ _ _ i r st Hloop Hnd Hcur Hi). rewrite length_app. simpl.
    replace (length h + 1 + i)%nat with (length h + S i)%nat by lia. reflexivity.
Qed.

Lemma range_keys
    (rng : gmap string chunkingState → list (string * chunkingState))
    (m : gmap string chunkingState) (r : string) :
  (∀ m, rng m ≡ₚ map_to_list m) → r ∈ (rng m).*1 ↔ is_Some (m !! r).
Proof.
  intros Hperm. rewrite list_elem_of_fmap. split.
  - intros ([r0 st] & -> & Hin). apply range_elem_of in Hin; [|apply Hperm].
    simpl. eauto.
  - intros [st Hs]. exists (r, st). split; [reflexivity|].
    apply range_elem_of; [apply Hperm | exact Hs].
Qed.

(** [flush] with rows counted sends, for every state, what is pending, and
    leaves the continuations. *)
Lemma flush_rel (h : Heap) (w : chunkedDataWriter bytes) (A : string → pending) :
  writerRel h w A → (∀ r, Forall sameLen (pendingAll (A r))) → count w ≠ 0 →
  ∃ h' w', flush h w = Ret (None, h', w') ∧
           writerRel h' w' (λ r, flushV (A r)) ∧ count w' = 0.
Proof.
  intros (Hcred & Hmark & Hdec & Hst & Hdisj & Hcnt) Hsame Hnz.
  pose proof (lookup_lt_Some _ _ _ Hmark) as Hlen.
  assert (∀ rng r st, (∀ m, rng m ≡ₚ map_to_list m) → (r, st) ∈ rng (states w) →
            ∃ t cur, currentV (A r) = Some t ∧ curFrame st = Some cur ∧
                     h !! cur = Some t ∧ last (frames st) = Some cur ∧
                     cur ≠ markerFrame ∧
                     Forall2 (λ p t, h !! p = Some t) (frames st) (pendingAll (A r)))
    as Hentry.
  { intros rng r st Hperm Hin. apply range_elem_of in Hin; [|apply Hperm].
    pose proof (Hst r) as Hr. rewrite Hin in Hr. now apply stateRel_pending. }
  destruct (sendLoop_sim h (λ r, pendingAll (A r)) (rangeSend (states w)) (stream w))
    as (msgs & Hsend & Hmsgs); [|exact Hcred|].
  { apply Forall_forall. intros [r st] Hin. simpl.
    destruct (Hentry rangeSend r st rangeSend_perm Hin)
      as (t & cur & _ & _ & _ & _ & _ & Hall).
    split; [exact Hall | apply Hsame]. }
  destruct (resetLoop_returns (rangeReset (states w)) h (states w))
    as ([h' sts'] & Hreset).
  { apply Forall_forall. intros [r st] Hin. simpl.
    destruct (Hentry rangeReset r st rangeReset_perm Hin)
      as (t & cur & _ & Hcf & _ & Hlast & _ & Hall).
    exists cur. split; [exact Hcf|]. split; [exact Hlast|].
    eapply Forall2_lookup_lt; exact Hall. }
  exists h', (mkWriter (mkStream (sent (stream w) ++ msgs) None) sts' 0).
  split.
  { unfold backend.flush. destruct (decide (count w = 0)); [contradiction|].
    rewrite Hsend. simpl. rewrite Hreset. reflexivity. }
  split; [|reflexivity].
  pose proof (resetLoop_prefix _ _ _ _ _ Hreset) as Hpre.
  pose proof (range_NoDup rangeReset (states w) (rangeReset_perm _)) as Hnd2.
  pose proof (range_NoDup rangeSend (states w) (rangeSend_perm _)) as Hnd1.
  assert (∀ r, states w !! r = None → sts' !! r = None) as Hnone.
  { intros r Hs. rewrite <- Hs. eapply resetLoop_other; [exact Hreset|].
    rewrite range_keys by exact rangeReset_perm. rewrite Hs. now intros [? ?]. }
  split; [reflexivity|]. split.
  { eapply prefix_lookup_Some; [exact Hmark | exact Hpre]. }
  split.
  { intros r. simpl. rewrite fragmentsOf_app, sentV_flushV.
    apply decodeAll_app; [apply Hdec|].
    rewrite (fragmentsOf_batches (λ r, pendingAll (A r)) _ _ r Hnd1 Hmsgs).
    destruct (decide _) as [Hin|Hnin]; [reflexivity|]. f_equal. symmetry.
    apply pendingAll_None, (stateRel_None h).
    rewrite range_keys in Hnin by exact rangeSend_perm.
    pose proof (Hst r) as Hr.
    destruct (states w !! r); [exfalso; apply Hnin; eauto | exact Hr]. }
  split.
  { intros r. simpl. destruct (states w !! r) as [st|] eqn:Hs.
    - assert ((r, st) ∈ rangeReset (states w)) as Hin
        by (apply range_elem_of; [apply rangeReset_perm | exact Hs]).
      destruct (Hentry rangeReset r st rangeReset_perm Hin)
        as (t & cur & Hcur & Hcf & Hcurh & _).
      pose proof (resetLoop_visited _ _ _ _ _ r st Hreset Hnd2 Hin) as Hv.
      rewrite Hcf in Hv. destruct (Hv t Hcurh) as (q & Hq & Hhq & Hge).
      unfold stateRel, flushV. rewrite Hcur. simpl.
      eexists _, [], q. split; [exact Hq|]. split; [reflexivity|].
      split; [reflexivity|]. split; [apply not_elem_of_nil|].
      split; [unfold markerFrame in *; lia|]. split; [constructor | exact Hhq].
    - rewrite (Hnone r Hs). pose proof (Hst r) as Hr. rewrite Hs in Hr.
      apply stateRel_None in Hr. unfold flushV. rewrite Hr.
      unfold stateRel. now rewrite Hr. }
  split.
  { intros r r' st st' cur Hne Hr Hr' Hcf. simpl in Hr, Hr'.
    assert (∀ x stx, sts' !! x = Some stx →
              ∃ i st0, rangeReset (states w) !! i = Some (x, st0)) as Hidx.
    { intros x stx Hx. destruct (states w !! x) as [st0|] eqn:Hs.
      - assert ((x, st0) ∈ rangeReset (states w)) as Hin
          by (apply range_elem_of; [apply rangeReset_perm | exact Hs]).
        apply list_elem_of_lookup in Hin as [i Hi]. eauto.
      - rewrite (Hnone x Hs) in Hx. discriminate. }
    assert (Forall (λ kv, curFrame kv.2 ≠ None) (rangeReset (states w))) as Hcurs.
    { apply Forall_forall. intros [x stx] Hin. simpl.
      destruct (Hentry rangeReset x stx rangeReset_perm Hin)
        as (t & c & _ & Hc & _). now rewrite Hc. }
    destruct (Hidx r st Hr) as (i & s0 & Hi).
    destruct (Hidx r' st' Hr') as (j & s0' & Hj).
    pose proof (resetLoop_index _ _ _ _ _ i r s0 Hreset Hnd2 Hcurs Hi) as E1.
    pose proof (resetLoop_index _ _ _ _ _ j r' s0' Hreset Hnd2 Hcurs Hj) as E2.
    rewrite Hr in E1. rewrite Hr' in E2.
    injection E1 as ->. injection E2 as ->. simpl in Hcf |- *.
    injection Hcf as <-. intros Hel%list_elem_of_singleton.
    assert (i = j) by lia. subst j. rewrite Hi in Hj. congruence. }
  intros r. simpl. rewrite pendingRows_flushV. lia.
Qed.

(** **** The calls *)

Lemma pendingRows_nonneg (a : pending) : 0 ≤ pendingRows a.
Proof. unfold pendingRows. lia. Qed.

Lemma valueInv_cnt (a : pending) (cnt : Z) (Lrev : list Frame) :
  valueInv a cnt Lrev → cnt = pendingRows a.
Proof. now intros (_ & -> & _). Qed.

Lemma Rows_setRefID (refID : string) (fr : Frame) :
  Rows (setRefID refID fr) = Rows fr.
Proof. reflexivity. Qed.

Lemma logicalRev_snoc (r : string) (done : list call) (c : call) :
  logicalRev r (done ++ [c]) = logicalStep r (logicalRev r done) c.
Proof. unfold logicalRev. now rewrite foldl_app. Qed.

(** The writer before the threshold is looked at in [WriteFrame]. *)
Lemma writerRel_open (r : string) (h : Heap) (w : chunkedDataWriter bytes)
    (A : string → pending) (fr : Frame) :
  writerRel h w A →
  writerRel (<[length h := setRefID r fr]> (h ++ [fr]))
       (mkWriter (stream w)
          (<[r := addFrame (default zeroState (states w !! r)) (length h)]>
             (states w))
          (count w + Z.of_nat (Rows fr)))
       (upd A r (openV (setRefID r fr) (A r))).
Proof.
  intros (Hcred & Hmark & Hdec & Hst & Hdisj & Hcnt).
  pose proof (lookup_lt_Some _ _ _ Hmark) as Hlen.
  assert (∀ p t, h !! p = Some t →
                 <[length h := setRefID r fr]> (h ++ [fr]) !! p = Some t) as Hstable.
  { intros p t Hp. pose proof (lookup_lt_Some _ _ _ Hp).
    rewrite list_lookup_insert_ne by lia. rewrite lookup_app_l by lia. exact Hp. }
  assert (<[length h := setRefID r fr]> (h ++ [fr]) !! length h
          = Some (setRefID r fr)) as Hnew.
  { apply list_lookup_insert_eq. rewrite length_app. simpl. lia. }
  assert (∀ z stz, states w !! z = Some stz →
            Forall (λ p, (p < length h)%nat) (frames stz) ∧
            ∀ c, curFrame stz = Some c → (c < length h)%nat ∧ c ≠ markerFrame)
    as Hlt.
  { intros z stz Hz. pose proof (Hst z) as Hr. rewrite Hz in Hr.
    destruct (stateRel_pending _ _ _ Hr) as (t & cur & _ & Hcf & Hcurh & _ & Hnm & Hall).
    split; [eapply Forall2_lookup_lt; exact Hall|].
    intros c Hc. rewrite Hcf in Hc. injection Hc as <-.
    split; [exact (lookup_lt_Some _ _ _ Hcurh) | exact Hnm]. }
  split; [exact Hcred|]. split; [apply Hstable; exact Hmark|]. split.
  { intros x. simpl. unfold upd. destruct (decide (x = r)) as [->|_]; apply Hdec. }
  split.
  { intros x. simpl. unfold upd. destruct (decide (x = r)) as [->|Hne].
    2:{ rewrite lookup_insert_ne by auto.
        apply (stateRel_stable h); [exact Hstable | apply Hst]. }
    rewrite lookup_insert_eq. pose proof (Hst r) as Hr.
    unfold stateRel in Hr |- *.
    change (currentV (openV (setRefID r fr) (A r))) with (Some (setRefID r fr)).
    cbv beta iota.
    destruct (currentV (A r)) as [t|] eqn:Hcur.
    - destruct Hr as (st & init & cur & Hs & Hfr & Hcf & Hni & Hnm & Hinit & Hcurh).
      rewrite Hs. simpl.
      eexists _, (init ++ [cur; markerFrame]), (length h).
      split; [reflexivity|]. split.
      { simpl. rewrite Hfr, <- !app_assoc. reflexivity. }
      split; [reflexivity|]. split.
      { intros Hin. assert (length h < length h)%nat; [|lia].
        apply elem_of_app in Hin as [Hin|Hin].
        - pose proof (Forall2_lookup_lt _ _ _ Hinit) as Hall.
          exact (proj1 (Forall_forall _ _) Hall _ Hin).
        - pose proof (lookup_lt_Some _ _ _ Hcurh).
          apply elem_of_cons in Hin as [Heq|Hin]; [lia|].
          apply list_elem_of_singleton in Hin. unfold markerFrame in Hin. lia. }
      split; [unfold markerFrame; lia|]. split; [|exact Hnew].
      unfold initV, openV; simpl.
      replace (option_list (contV (A r)) ++ chunks (reverse (newR (A r))) ++ [marker])
        with (initV (A r) ++ [t; marker]).
      2:{ change [t; marker] with ([t] ++ [marker]).
          rewrite app_assoc, <- (pendingAll_current (A r) t Hcur).
          unfold pendingAll. now rewrite <- app_assoc. }
      apply Forall2_app.
      + eapply Forall2_impl; [exact Hinit|]. intros p x. apply Hstable.
      + constructor; [now apply Hstable|]. constructor; [|constructor].
        apply Hstable. exact Hmark.
    - apply currentV_None in Hcur as [Hn Hc]. rewrite Hr. simpl.
      eexists _, [markerFrame], (length h).
      split; [reflexivity|]. split; [reflexivity|]. split; [reflexivity|].
      split. { intros Hin%list_elem_of_singleton. unfold markerFrame in Hin. lia. }
      split; [unfold markerFrame; lia|]. split; [|exact Hnew].
      unfold initV, openV; simpl. rewrite Hn, Hc. simpl.
      constructor; [|constructor]. apply Hstable. exact Hmark. }
  split.
  { intros x y stx sty cur Hxy Hx Hy Hcf. simpl in Hx, Hy.
    destruct (decide (x = r)) as [->|Hxr].
    - rewrite lookup_insert_eq in Hx. injection Hx as <-. simpl in Hcf.
      injection Hcf as <-. rewrite lookup_insert_ne in Hy by auto.
      intros Hin. destruct (Hlt y sty Hy) as [Hall _].
      pose proof (proj1 (Forall_forall _ _) Hall _ Hin) as Hq. simpl in Hq. lia.
    - rewrite lookup_insert_ne in Hx by auto.
      destruct (Hlt x stx Hx) as [_ Hc]. destruct (Hc cur Hcf) as [Hclt Hcnm].
      destruct (decide (y = r)) as [->|Hyr].
      + rewrite lookup_insert_eq in Hy. injection Hy as <-. simpl.
        intros Hin. apply elem_of_app in Hin as [Hin|Hin].
        * destruct (states w !! r) as [st0|] eqn:Hs0; simpl in Hin.
          -- exact (Hdisj x r stx st0 cur Hxy Hx Hs0 Hcf Hin).
          -- now apply elem_of_nil in Hin.
        * apply elem_of_cons in Hin as [Heq|Hin]; [contradiction|].
          apply list_elem_of_singleton in Hin. lia.
      + rewrite lookup_insert_ne in Hy by auto.
        exact (Hdisj x y stx sty cur Hxy Hx Hy Hcf). }
  intros x. simpl. unfold upd. pose proof (Hcnt x) as Hx.
  destruct (decide (x = r)) as [->|_]; [|lia].
  unfold pendingRows in *. unfold pendingAll, openV; simpl.
  rewrite reverse_cons, chunks_snoc, app_assoc, sum_list_with_app. simpl.
  unfold pendingAll in Hx. rewrite Rows_setRefID. lia.
Qed.

(** The writer before the threshold is looked at in [WriteFrameRow]. *)
Lemma writerRel_row (r : string) (h : Heap) (w : chunkedDataWriter bytes)
    (A : string → pending) (t : Frame) (fields : list value)
    (st : chunkingState) (cur : loc) :
  writerRel h w A →
  currentV (A r) = Some t → states w !! r = Some st → curFrame st = Some cur →
  Rows (appendRowValues t fields) = S (Rows t) →
  writerRel (<[cur := appendRowValues t fields]> h)
       (mkWriter (stream w) (states w) (count w + 1))
       (upd A r (setCurrent (appendRowValues t fields) (A r))).
Proof.
  intros (Hcred & Hmark & Hdec & Hst & Hdisj & Hcnt) Hcur Hs Hcf Hrows.
  destruct (setCurrent_facts (A r) t (appendRowValues t fields) Hcur)
    as (Hcur1 & Hinit1 & Hsent1 & Hall1).
  pose proof (Hst r) as Hr. unfold stateRel in Hr. rewrite Hcur, Hs in Hr.
  destruct Hr as (st0 & init & cur0 & [= <-] & Hfr & Hcf0 & Hni & Hnm & Hinit & Hcurh).
  rewrite Hcf in Hcf0. injection Hcf0 as <-.
  split; [exact Hcred|]. split.
  { rewrite list_lookup_insert_ne by auto. exact Hmark. }
  split.
  { intros x. simpl. unfold upd. destruct (decide (x = r)) as [->|_]; [|apply Hdec].
    rewrite Hsent1. apply Hdec. }
  split.
  { intros x. simpl. unfold upd. destruct (decide (x = r)) as [->|Hne].
    - unfold stateRel. rewrite Hcur1, Hs. exists st, init, cur.
      split; [reflexivity|]. split; [exact Hfr|]. split; [exact Hcf|].
      split; [exact Hni|]. split; [exact Hnm|]. split.
      + rewrite Hinit1. now apply Forall2_lookup_insert.
      + apply list_lookup_insert_eq. exact (lookup_lt_Some _ _ _ Hcurh).
    - apply stateRel_insert_other; [apply Hst|].
      intros stx Hx. exact (Hdisj r x st stx cur (not_eq_sym Hne) Hs Hx Hcf). }
  split; [exact Hdisj|].
  intros x. simpl. unfold upd. pose proof (Hcnt x) as Hx.
  destruct (decide (x = r)) as [->|_]; [|lia].
  unfold pendingRows in *. rewrite Hall1, sum_Rows_snoc.
  rewrite (pendingAll_current _ _ Hcur), sum_Rows_snoc in Hx. lia.
Qed.

(** After the frame or the row of a call is in place. *)
Lemma maybeFlush_runInv (h : Heap) (w : chunkedDataWriter bytes)
    (A : string → pending) (done : list call) (r : string) (n : nat)
    (t : Frame) (Lrest : list Frame) :
  writerRel h w A →
  (∀ x, closedInv (A x) (logicalRev x done)) →
  logicalRev r done = t :: Lrest → length (Fields t) = n →
  valueInv (A r) (pendingRows (A r)) (logicalRev r done) →
  (maxBatchSize ≤ count w → pendingRows (A r) ≠ 0) →
  ∃ h' w' A', maybeFlush h w = Ret (None, h', w') ∧
              runInv h' w' A' done (Some (r, n)).
Proof.
  intros Hrel Hclosed HL Hn Hv Hrows. unfold backend.maybeFlush.
  destruct (decide (count w < maxBatchSize)) as [Hlt|Hge].
  - exists h, w, A. split; [reflexivity|]. split; [exact Hrel|]. split; [exact Hlt|].
    split; [exact Hclosed|]. exists t, Lrest. auto.
  - assert (count w ≠ 0) as Hnz by (unfold maxBatchSize in Hge; lia).
    destruct (flush_rel h w A Hrel) as (h' & w' & Hf & Hrel' & Hc);
      [intros x; apply (Hclosed x) | exact Hnz |].
    exists h', w', (λ x, flushV (A x)). split; [exact Hf|].
    split; [exact Hrel'|]. split; [rewrite Hc; reflexivity|].
    split; [intros x; apply closedInv_flush, Hclosed|].
    exists t, Lrest. split; [exact HL|]. split; [exact Hn|].
    rewrite pendingRows_flushV.
    destruct (valueInv_flush _ _ _ Hv) as (t0 & _ & Hv'); [|exact Hv'].
    apply Hrows. lia.
Qed.

(** [WriteFrame] on a new frame opens a table. *)
Lemma OpenTable_rel (r : string) (fr : Frame) (h : Heap)
    (w : chunkedDataWriter bytes) (A : string → pending) (done : list call)
    (act : option (string * nat)) :
  runInv h w A done act →
  Fields fr ≠ [] → sameLen fr → Z.of_nat (Rows fr) < 2 ^ 62 →
  ∃ h' w' A', doCall (OpenTable r fr) h w = Ret (None, h', w') ∧
              runInv h' w' A' (done ++ [OpenTable r fr])
                     (Some (r, length (Fields fr))).
Proof.
  intros (Hrel & Hlt & Hclosed & _) Hfields Hsame Hrows.
  assert (0 ≤ count w) as Hpos.
  { destruct Hrel as (_ & _ & _ & _ & _ & Hcnt).
    pose proof (Hcnt r). pose proof (pendingRows_nonneg (A r)). lia. }
  unfold maxBatchSize in Hlt.
  pose proof (closedInv_open (A r) (logicalRev r done) (setRefID r fr)
                (Hclosed r) Hsame Hfields) as Hv.
  pose proof (valueInv_cnt _ _ _ Hv) as Hcnt1. rewrite Hcnt1 in Hv.
  unfold roundtrip.doCall, alloc, WriteFrame. simpl. unfold deref.
  rewrite list_lookup_middle by reflexivity. simpl.
  rewrite wrap64_small by lia.
  assert (logicalRev r (done ++ [OpenTable r fr])
          = setRefID r fr :: logicalRev r done) as HL.
  { rewrite logicalRev_snoc. simpl.
    destruct (decide (r = r)); [reflexivity | contradiction]. }
  apply (maybeFlush_runInv _ _ (upd A r (openV (setRefID r fr) (A r))) _ r _
           (setRefID r fr) (logicalRev r done)).
  - now apply writerRel_open.
  - intros x. unfold upd. destruct (decide (x = r)) as [->|Hne].
    + rewrite HL. eapply valueInv_closed. exact Hv.
    + rewrite logicalRev_snoc. simpl.
      destruct (decide (r = x)); [congruence | apply Hclosed].
  - exact HL.
  - reflexivity.
  - unfold upd. destruct (decide (r = r)); [|contradiction]. rewrite HL. exact Hv.
  - unfold upd. destruct (decide (r = r)); [|contradiction]. simpl.
    unfold maxBatchSize. rewrite <- Hcnt1. rewrite Rows_setRefID.
    pose proof (pendingRows_nonneg (A r)). lia.
Qed.

(** [WriteFrameRow] appends the row to the latest table. *)
Lemma Row_rel (r : string) (fields : list value) (h : Heap)
    (w : chunkedDataWriter bytes) (A : string → pending) (done : list call) :
  runInv h w A done (Some (r, length fields)) →
  ∃ h' w' A', doCall (Row r fields) h w = Ret (None, h', w') ∧
              runInv h' w' A' (done ++ [Row r fields])
                     (Some (r, length fields)).
Proof.
  intros (Hrel & Hlt & Hclosed & (t' & Lrest & HL & Hn & Hv)).
  assert (0 ≤ count w) as Hpos.
  { destruct Hrel as (_ & _ & _ & _ & _ & Hcnt).
    pose proof (Hcnt r). pose proof (pendingRows_nonneg (A r)). lia. }
  unfold maxBatchSize in Hlt.
  rewrite HL in Hv.
  assert (Fields t' ≠ []) as Hft'.
  { destruct Hv as (_ & _ & _ & _ & Hcols & _).
    now apply Forall_cons in Hcols as [? _]. }
  destruct (valueInv_row _ _ _ _ _ Hv (eq_sym Hn)) as (t & Hcur & Hfl & Hv1).
  pose proof (valueInv_cnt _ _ _ Hv1) as Hcnt1. rewrite Hcnt1 in Hv1.
  assert (length fields = length (Fields t)) as Hlen by congruence.
  assert (Fields t ≠ []) as Hft.
  { intros Hnil. rewrite Hnil in Hfl. destruct (Fields t'); [contradiction | discriminate]. }
  pose proof Hrel as (_ & _ & _ & Hst & _).
  pose proof (Hst r) as Hr. unfold stateRel in Hr. rewrite Hcur in Hr.
  destruct Hr as (st & init & cur & Hs & Hfr & Hcf & Hni & Hnm & Hinit & Hcurh).
  unfold roundtrip.doCall, WriteFrameRow.
  rewrite Hs. simpl. rewrite Hcf. unfold deref. rewrite Hcurh. simpl.
  destruct (decide (length fields ≠ length (Fields t))) as [Hne|_]; [contradiction|].
  unfold AppendRow. rewrite appendVals_zip by exact Hlen. simpl.
  rewrite wrap64_small by lia.
  assert (logicalRev r (done ++ [Row r fields])
          = appendRowValues t' fields :: Lrest) as HL1.
  { rewrite logicalRev_snoc. simpl.
    destruct (decide (r = r)); [|contradiction]. now rewrite HL. }
  apply (maybeFlush_runInv _ _
           (upd A r (setCurrent (appendRowValues t fields) (A r))) _ r _
           (appendRowValues t' fields) Lrest).
  - apply (writerRel_row r h w A t fields st cur); auto.
    now apply Rows_appendRowValues.
  - intros x. unfold upd. destruct (decide (x = r)) as [->|Hne].
    + rewrite HL1. eapply valueInv_closed. exact Hv1.
    + rewrite logicalRev_snoc. simpl.
      destruct (decide (r = x)); [congruence | apply Hclosed].
  - exact HL1.
  - rewrite Fields_appendRowValues by congruence. exact Hn.
  - unfold upd. destruct (decide (r = r)); [|contradiction]. rewrite HL1. exact Hv1.
  - unfold upd. destruct (decide (r = r)); [|contradiction]. intros _.
    rewrite <- Hcnt1. pose proof (pendingRows_nonneg (A r)). lia.
Qed.

Lemma doCalls_rel (cs : list call) :
  ∀ (h : Heap) (w : chunkedDataWriter bytes) (A : string → pending)
    (done : list call) (act : option (string * nat)),
    runInv h w A done act → seqOK act cs →
    ∃ h' w' A' act', doCalls cs h w = Ret (None, h', w') ∧
                     runInv h' w' A' (done ++ cs) act'.
Proof.
  induction cs as [|c cs IH]; intros h w A done act Hinv Hok.
  - exists h, w, A, act. rewrite app_nil_r. auto.
  - assert (∃ h1 w1 A1 act1, doCall c h w = Ret (None, h1, w1) ∧
                             runInv h1 w1 A1 (done ++ [c]) act1 ∧
                             seqOK act1 cs)
      as (h1 & w1 & A1 & act1 & Hcall & Hinv1 & Hok1).
    { destruct c as [r fr|r fields]; simpl in Hok.
      - destruct Hok as (Hf & Hs & Hr & Hok).
        destruct (OpenTable_rel r fr h w A done act Hinv Hf Hs Hr)
          as (h1 & w1 & A1 & Hcall & Hinv1). eauto 10.
      - destruct Hok as (-> & Hok).
        destruct (Row_rel r fields h w A done Hinv)
          as (h1 & w1 & A1 & Hcall & Hinv1). eauto 10. }
    destruct (IH h1 w1 A1 (done ++ [c]) act1 Hinv1 Hok1)
      as (h' & w' & A' & act' & Hcalls & Hinv').
    exists h', w', A', act'. cbn [roundtrip.doCalls]. rewrite Hcall. simpl.
    rewrite <- app_assoc in Hinv'. auto.
Qed.

(** [Close] sends what is left. *)
Lemma Close_rel (h : Heap) (w : chunkedDataWriter bytes) (A : string → pending)
    (done : list call) (act : option (string * nat)) :
  runInv h w A done act →
  ∃ h' w', Close h w = Ret (None, h', w') ∧
    ∀ r, ∃ fvs flag,
      decodeAll (fragmentsOf r (sent (stream w'))) = Some fvs ∧
      assemble ([], false) fvs
      = Some (filter (λ t, Rows t ≠ 0%nat) (logicalRev r done), flag).
Proof.
  intros (Hrel & _ & Hclosed & _). unfold backend.Close.
  destruct (decide (count w = 0)) as [Hz|Hnz].
  - exists h, w. split.
    { unfold backend.flush. destruct (decide (count w = 0)); [reflexivity | contradiction]. }
    intros r. destruct Hrel as (_ & _ & Hdec & _ & _ & Hcnt).
    destruct (closedInv_final (A r) _ (Hclosed r)) as (flag & Hasm).
    { pose proof (Hcnt r). pose proof (pendingRows_nonneg (A r)). lia. }
    eauto.
  - destruct (flush_rel h w A Hrel) as (h' & w' & Hf & Hrel' & Hc);
      [intros x; apply (Hclosed x) | exact Hnz |].
    exists h', w'. split; [exact Hf|].
    intros r. destruct Hrel' as (_ & _ & Hdec & _).
    destruct (closedInv_final (flushV (A r)) (logicalRev r done)) as (flag & Hasm).
    { apply closedInv_flush, Hclosed. }
    { apply pendingRows_flushV. }
    eauto.
Qed.

Lemma runInv_new (strm : ServerStream bytes) :
  credit strm = None → sent strm = [] →
  runInv initHeap (newChunkedDataWriter strm) (λ _, noPending) [] None.
Proof.
  intros Hcred Hsent. split; [|split; [reflexivity|split; [|exact I]]].
  - split; [exact Hcred|]. split; [reflexivity|]. split.
    { intros r. simpl. now rewrite Hsent. }
    split; [intros r; reflexivity|]. split.
    { intros r r' st st' cur _ Hr. simpl in Hr. now rewrite lookup_empty in Hr. }
    intros r. reflexivity.
  - intros r. split; [exists false; reflexivity|].
    split; [constructor|]. split; constructor.
Qed.

(** The calls, [Close], and the client on what was sent. *)
Lemma calls_received (cs : list call) (strm : ServerStream bytes) (hc : Heap) :
  credit strm = None → sent strm = [] →
  seqOK None cs →
  ∃ h1 w1 h w resp hc',
    doCalls cs initHeap (newChunkedDataWriter strm) = Ret (None, h1, w1) ∧
    Close h1 w1 = Ret (None, h, w) ∧
    datasourcetest.QueryChunkedData UnmarshalArrowFrame
      (datasourcetest.mkClientStream None (sent (stream w)) EOF) hc
    = Ret (Some resp, None, hc') ∧
    ∀ refID, tablesOf hc' resp refID
             = Some <$> filter (λ t, Rows t ≠ 0%nat) (logical refID cs).
Proof.
  intros Hcred Hsent Hok.
  destruct (doCalls_rel cs initHeap (newChunkedDataWriter strm) (λ _, noPending)
              [] None (runInv_new strm Hcred Hsent) Hok)
    as (h1 & w1 & A1 & act1 & Hcalls & Hinv1).
  simpl in Hinv1.
  destruct (Close_rel h1 w1 A1 cs act1 Hinv1) as (h & w & Hclose & Hsent').
  set (cstrm := datasourcetest.mkClientStream None (sent (stream w)) EOF).
  destruct (receiveAll_complete UnmarshalArrowFrame (sent (stream w)) [] hc ∅)
    as (hc' & m' & Hrecv).
  { apply accounts_nil. }
  { intros id. simpl. destruct (Hsent' id) as (fvs & flag & Hd & Ha). eauto. }
  pose proof (QueryChunkedData_EOF UnmarshalArrowFrame cstrm hc hc' m'
                eq_refl eq_refl Hrecv) as Hquery.
  exists h1, w1, h, w. eexists. exists hc'.
  split; [exact Hcalls|]. split; [exact Hclose|]. split; [exact Hquery|].
  intros refID.
  destruct (QueryChunkedData_accounts UnmarshalArrowFrame cstrm hc hc' _ None refID Hquery)
    as (fvs & ts & Hd & Ha & Htables & _).
  destruct (Hsent' refID) as (fvs' & flag & Hd' & Ha').
  simpl in Hd. rewrite Hd' in Hd. injection Hd as <-.
  rewrite Ha' in Ha. injection Ha as <-.
  rewrite Htables. simpl. unfold logical. now rewrite filter_reverse.
Qed.

(** X12. A producer opens tables with [WriteFrame] and writes rows with
    [WriteFrameRow], one refID after the other (a row goes to the refID of
    the call before it), and closes the writer; the transport takes every
    message and the encoding can be decoded.  Then no call fails, and the
    client that receives the messages returns, for every refID, the tables
    that the producer meant for it, in their order and with all their rows,
    whatever batches the writer made of them, except those that have no
    row. *)
Theorem sequential_round_trip (cs : list call)
    (strm : ServerStream bytes) (hc : Heap) :
  credit strm = None → sent strm = [] →
  seqOK None cs →
  ∃ h w resp hc',
    produce cs strm = Ret (None, h, w) ∧
    datasourcetest.QueryChunkedData UnmarshalArrowFrame
      (datasourcetest.mkClientStream None (sent (stream w)) EOF) hc
    = Ret (Some resp, None, hc') ∧
    ∀ refID, tablesOf hc' resp refID
             = Some <$> filter (λ t, Rows t ≠ 0%nat) (logical refID cs).
Proof.
  intros Hcred Hsent Hok.
  destruct (calls_received cs strm hc Hcred Hsent Hok)
    as (h1 & w1 & h & w & resp & hc' & Hcalls & Hclose & Hquery & Htables).
  exists h, w, resp, hc'. split; [|auto].
  unfold roundtrip.produce. rewrite Hcalls. simpl. exact Hclose.
Qed.

End RoundTrip.

(** ** The round trip on a concrete producer *)

Section ConcreteRoundTrip.
Import Examples roundtrip RoundTripExample.

Lemma Examples_codec (f : Frame) :
  sameLen f →
  ∃ b, MarshalArrow f = inl b ∧ UnmarshalArrowFrame b = inl f.
Proof.
  intros Hs. exists f. split; [|reflexivity]. unfold MarshalArrow.
  assert (sameLength f = true) as ->; [|reflexivity].
  unfold sameLength, sameLen, Rows in *.
  destruct (Fields f) as [|fd fds]; [reflexivity|].
  apply Forall_cons in Hs as [_ Hs].
  induction Hs as [|g fds Hg _ IH]; simpl; [reflexivity|].
  rewrite Hg, Nat.eqb_refl. exact IH.
Qed.

Lemma rangeRev_perm (m : gmap string backend.chunkingState) :
  rangeRev m ≡ₚ map_to_list m.
Proof. apply reverse_Permutation. Qed.

Lemma sequential_round_trip_witness :
  seqOK None calls ∧
  ∃ h w resp hc',
    produce MarshalArrow range rangeRev calls (backend.mkStream [] None)
    = Ret (None, h, w) ∧
    datasourcetest.QueryChunkedData UnmarshalArrowFrame
      (datasourcetest.mkClientStream None (backend.sent (backend.stream w)) EOF) []
    = Ret (Some resp, None, hc') ∧
    ∀ refID, reassembly.tablesOf hc' resp refID
             = Some <$> filter (λ t, Rows t ≠ 0%nat) (logical refID calls).
Proof.
  assert (seqOK None calls) as Hok.
  { simpl. repeat split; try discriminate; try reflexivity;
      repeat constructor. }
  split; [exact Hok|].
  apply (sequential_round_trip MarshalArrow UnmarshalArrowFrame range rangeRev
           range_perm rangeRev_perm Examples_codec calls
           (backend.mkStream [] None) [] eq_refl eq_refl Hok).
Defined.

End ConcreteRoundTrip.

(** ** The benchmark datasource behind the adapter *)

Section BenchmarkRoundTrip.
Import backend roundtrip reassembly producer.
Context {bytes : Type}.
Variable MarshalArrow : Frame → bytes + error.
Variable UnmarshalArrowFrame : bytes → Frame + error.
Variable rangeSend rangeReset :
  gmap string chunkingState → list (string * chunkingState).
Hypothesis rangeSend_perm : ∀ m, rangeSend m ≡ₚ map_to_list m.
Hypothesis rangeReset_perm : ∀ m, rangeReset m ≡ₚ map_to_list m.
Hypothesis codec : ∀ f, sameLen f →
  ∃ b, MarshalArrow f = inl b ∧ UnmarshalArrowFrame b = inl f.
Variable float32 float64 unixMilli : Z → value.
Variable enrichWithErrorSourceInfo : error → error.

Local Abbreviation doCalls := (doCalls MarshalArrow rangeSend rangeReset).
Local Abbreviation sample := (benchmark.sample float32 float64 unixMilli).
Local Abbreviation table := (benchmark.table float32 float64 unixMilli).
Local Abbreviation newFrame := (benchmark.newFrame float32 float64 unixMilli).
Local Abbreviation frameCalls := (benchmark.frameCalls float32 float64 unixMilli).
Local Abbreviation queryCalls := (benchmark.queryCalls float32 float64 unixMilli).
Local Abbreviation requestCalls := (benchmark.requestCalls float32 float64 unixMilli).
Local Abbreviation tablesMeant := (benchmark.tablesMeant float32 float64 unixMilli).
Local Abbreviation query :=
  (benchmark.query float32 float64 unixMilli MarshalArrow rangeSend rangeReset).
Local Abbreviation QueryChunkedData :=
  (benchmark.QueryChunkedData float32 float64 unixMilli MarshalArrow rangeSend rangeReset).

(** **** [newFrame] *)

Lemma sample_length (i : Z) : length (sample i) = length benchmark.columns.
Proof. reflexivity. Qed.

Lemma Fields_appendRows_sample (f : Frame) (l : list Z) :
  length (Fields f) = length benchmark.columns →
  length (Fields (foldl appendRowValues f (sample <$> l)))
  = length benchmark.columns.
Proof.
  intros Hf. rewrite Fields_appendRows; [exact Hf|].
  apply Forall_fmap, Forall_true. intros i. simpl. now rewrite Hf.
Qed.

(** [newFrame] returns, and returns the table of that many rows. *)
Lemma newFrame_table (name : string) (numRows : Z) :
  newFrame name numRows = Ret (table name numRows).
Proof.
  unfold benchmark.newFrame, benchmark.table.
  assert (length (Fields (NewFrame name benchmark.columns))
          = length benchmark.columns) as Hf by reflexivity.
  revert Hf. generalize (NewFrame name benchmark.columns).
  induction (seqZ 0 numRows) as [|i l IH]; intros f Hf; [reflexivity|].
  cbn [benchmark.forEach fmap list_fmap foldl]. unfold AppendRow.
  rewrite appendVals_zip by (rewrite Hf; apply sample_length).
  simpl. apply IH. rewrite Fields_appendRowValues; [exact Hf|].
  rewrite Hf. apply sample_length.
Qed.

Lemma Rows_table (name : string) (numRows : Z) :
  Rows (table name numRows) = Z.to_nat numRows.
Proof.
  unfold benchmark.table. rewrite Rows_appendRows.
  - rewrite length_fmap, length_seqZ. reflexivity.
  - discriminate.
  - apply Forall_fmap, Forall_true. intros i. reflexivity.
Qed.

(** **** The datasource makes the calls of [requestCalls] *)

Lemma doCalls_app_inv (a b : list call) :
  ∀ (h h' : Heap) (w w' : chunkedDataWriter bytes),
    doCalls (a ++ b) h w = Ret (None, h', w') →
    ∃ h1 w1, doCalls a h w = Ret (None, h1, w1) ∧
             doCalls b h1 w1 = Ret (None, h', w').
Proof.
  induction a as [|c a IH]; intros h h' w w' Hrun; simpl in *; [eauto|].
  destruct (roundtrip.doCall _ _ _ c h w) as [[[[e|] h1] w1]|]; simpl in *;
    try discriminate.
  now apply IH.
Qed.

Lemma rows_as_calls (refID : string) (l : list Z) :
  ∀ (h h' : Heap) (w w' : chunkedDataWriter bytes),
    doCalls ((λ j, Row refID (sample j)) <$> l) h w = Ret (None, h', w') →
    benchmark.forEach l
      (λ i '(h, w), benchmark.panicIfErr
                      (WriteFrameRow MarshalArrow rangeSend rangeReset
                         refID (sample i) h w))
      (h, w)
    = Ret (h', w').
Proof.
  induction l as [|i l IH]; intros h h' w w' Hrun; simpl in *.
  - now injection Hrun as <- <-.
  - destruct (WriteFrameRow _ _ _ refID _ h w) as [[[[e|] h1] w1]|]; simpl in *;
      try discriminate.
    now apply IH.
Qed.

Lemma frames_as_calls (p : benchmark.testDatasource) (refID : string) (l : list Z) :
  ∀ (h h' : Heap) (w w' : chunkedDataWriter bytes),
    doCalls (l ≫= frameCalls p refID) h w = Ret (None, h', w') →
    benchmark.forEach l
      (λ i '(h, w),
         frame ← newFrame (benchmark.frameName i refID) 0;
         let '(h, f) := alloc h frame in
         s ← benchmark.panicIfErr
               (WriteFrame MarshalArrow rangeSend rangeReset refID (Some f) h w);
         benchmark.forEach (seqZ 0 (benchmark.rowsPerFrame p))
           (λ i '(h, w), benchmark.panicIfErr
                           (WriteFrameRow MarshalArrow rangeSend rangeReset
                              refID (sample i) h w))
           s)
      (h, w)
    = Ret (h', w').
Proof.
  induction l as [|i l IH]; intros h h' w w' Hrun.
  - simpl in *. now injection Hrun as <- <-.
  - change ((i :: l) ≫= frameCalls p refID)
      with (frameCalls p refID i ++ (l ≫= frameCalls p refID)) in Hrun.
    apply doCalls_app_inv in Hrun as (h1 & w1 & Hframe & Hrest).
    cbn [benchmark.forEach]. rewrite newFrame_table. simpl.
    unfold benchmark.frameCalls in Hframe. cbn [roundtrip.doCalls] in Hframe.
    unfold roundtrip.doCall, alloc in Hframe.
    change (table (benchmark.frameName i refID) 0)
      with (NewFrame (benchmark.frameName i refID) benchmark.columns).
    destruct (WriteFrame _ _ _ refID _ _ w) as [[[[e|] h2] w2]|]; simpl in *;
      try discriminate.
    rewrite (rows_as_calls _ _ _ _ _ _ Hframe). simpl.
    now apply IH.
Qed.

Lemma query_as_calls (p : benchmark.testDatasource) (q : benchmark.DataQuery)
    (h h' : Heap) (w w' : chunkedDataWriter bytes) :
  doCalls (queryCalls p q) h w = Ret (None, h', w') →
  query p q (h, w) = Ret (h', w').
Proof.
  intros Hq. unfold benchmark.query.
  now apply (frames_as_calls p (benchmark.RefID q)).
Qed.

Lemma request_as_calls (p : benchmark.testDatasource) (req : list benchmark.DataQuery) :
  ∀ (h h' : Heap) (w w' : chunkedDataWriter bytes),
    doCalls (requestCalls p req) h w = Ret (None, h', w') →
    benchmark.forEach req (query p) (h, w) = Ret (h', w').
Proof.
  induction req as [|q req IH]; intros h h' w w' Hrun.
  - simpl in *. now injection Hrun as <- <-.
  - change (requestCalls p (q :: req))
      with (queryCalls p q ++ requestCalls p req) in Hrun.
    apply doCalls_app_inv in Hrun as (h1 & w1 & Hq & Hrest).
    cbn [benchmark.forEach]. rewrite (query_as_calls p q _ _ _ _ Hq). simpl.
    now apply IH.
Qed.

(** **** The calls are those of a producer that goes refID by refID *)

Lemma seqOK_app (a b : list call) :
  ∀ act, seqOK act a → (∀ act', seqOK act' b) → seqOK act (a ++ b).
Proof.
  induction a as [|c a IH]; intros act Ha Hb; simpl; [apply Hb|].
  destruct c as [r fr|r fields]; simpl in Ha.
  - destruct Ha as (? & ? & ? & Ha). auto.
  - destruct Ha as (? & Ha). auto.
Qed.

Lemma seqOK_bind {X : Type} (f : X → list call) (l : list X) :
  (∀ x act, seqOK act (f x)) → ∀ act, seqOK act (l ≫= f).
Proof.
  intros Hf. induction l as [|x l IH]; intros act; [exact I|].
  change ((x :: l) ≫= f) with (f x ++ (l ≫= f)).
  apply seqOK_app; auto.
Qed.

Lemma seqOK_frameCalls (p : benchmark.testDatasource) (refID : string) (i : Z)
    (act : option (string * nat)) :
  seqOK act (frameCalls p refID i).
Proof.
  unfold benchmark.frameCalls. cbn [seqOK].
  split; [discriminate|]. split; [repeat constructor|].
  split; [reflexivity|].
  induction (seqZ 0 (benchmark.rowsPerFrame p)) as [|j l IH]; [exact I|].
  split; [reflexivity | exact IH].
Qed.

Lemma seqOK_requestCalls (p : benchmark.testDatasource)
    (req : list benchmark.DataQuery) (act : option (string * nat)) :
  seqOK act (requestCalls p req).
Proof.
  apply seqOK_bind. intros q act'. apply seqOK_bind. intros i act''.
  apply seqOK_frameCalls.
Qed.

(** **** The tables that the calls mean *)

Lemma foldl_appendRowValues_setRefID (refID : string) (rows : list (list value)) :
  ∀ f, foldl appendRowValues (setRefID refID f) rows
       = setRefID refID (foldl appendRowValues f rows).
Proof.
  induction rows as [|row rows IH]; intros f; [reflexivity|].
  simpl. rewrite <- IH. reflexivity.
Qed.

Lemma logical_rows (refID r : string) (rows : list (list value)) :
  ∀ (t : Frame) (L : list Frame),
    foldl (logicalStep refID) (t :: L) (Row r <$> rows)
    = (if decide (r = refID) then foldl appendRowValues t rows else t) :: L.
Proof.
  induction rows as [|row rows IH]; intros t L; simpl.
  - now destruct (decide _).
  - destruct (decide (r = refID)) as [->|Hne].
    + rewrite IH. destruct (decide (refID = refID)); [reflexivity | contradiction].
    + rewrite IH. destruct (decide (r = refID)); [contradiction | reflexivity].
Qed.

Lemma logical_rows_other (refID r : string) (rows : list (list value))
    (L : list Frame) :
  r ≠ refID → foldl (logicalStep refID) L (Row r <$> rows) = L.
Proof.
  intros Hne. induction rows as [|row rows IH]; simpl; [reflexivity|].
  destruct (decide (r = refID)); [contradiction | exact IH].
Qed.

Lemma logical_frameCalls (p : benchmark.testDatasource) (refID r : string)
    (i : Z) (L : list Frame) :
  foldl (logicalStep refID) L (frameCalls p r i)
  = if decide (r = refID) then
      setRefID refID (table (benchmark.frameName i refID) (benchmark.rowsPerFrame p))
      :: L
    else L.
Proof.
  unfold benchmark.frameCalls. cbn [foldl logicalStep].
  assert ((λ j, Row r (sample j)) <$> seqZ 0 (benchmark.rowsPerFrame p)
          = Row r <$> (sample <$> seqZ 0 (benchmark.rowsPerFrame p))) as ->
    by apply (list_fmap_compose sample (Row r)).
  destruct (decide (r = refID)) as [->|Hne].
  - rewrite logical_rows. destruct (decide (refID = refID)); [|contradiction].
    now rewrite foldl_appendRowValues_setRefID.
  - now apply logical_rows_other.
Qed.

Lemma logical_frames (p : benchmark.testDatasource) (refID r : string) (l : list Z) :
  ∀ L, foldl (logicalStep refID) L (l ≫= frameCalls p r)
       = reverse (if decide (r = refID) then
                    (λ i, setRefID refID (table (benchmark.frameName i refID)
                                                (benchmark.rowsPerFrame p))) <$> l
                  else [])
         ++ L.
Proof.
  induction l as [|i l IH]; intros L.
  - simpl. now destruct (decide _).
  - change ((i :: l) ≫= frameCalls p r)
      with (frameCalls p r i ++ (l ≫= frameCalls p r)).
    rewrite foldl_app, logical_frameCalls, IH.
    destruct (decide (r = refID)); [|reflexivity].
    rewrite fmap_cons, reverse_cons, <- app_assoc. reflexivity.
Qed.

Lemma logical_requestCalls (p : benchmark.testDatasource)
    (req : list benchmark.DataQuery) (refID : string) :
  logical refID (requestCalls p req) = tablesMeant p req refID.
Proof.
  unfold logical, logicalRev.
  assert (∀ L, foldl (logicalStep refID) L (requestCalls p req)
               = reverse (tablesMeant p req refID) ++ L) as H.
  { induction req as [|q req IH]; intros L; [reflexivity|].
    change (requestCalls p (q :: req))
      with (queryCalls p q ++ requestCalls p req).
    rewrite foldl_app, IH. unfold benchmark.queryCalls. rewrite logical_frames.
    unfold benchmark.tablesMeant. cbn [mbind list_bind].
    fold (tablesMeant p req refID).
    now rewrite reverse_app, <- app_assoc. }
  rewrite H, app_nil_r. apply reverse_involutive.
Qed.

Lemma filter_Forall_all {X : Type} (P : X → Prop) `{∀ x, Decision (P x)} (l : list X) :
  Forall P l → filter P l = l.
Proof.
  induction 1 as [|x l Hx _ IH]; [reflexivity|].
  rewrite filter_cons_True by exact Hx. now rewrite IH.
Qed.

Lemma filter_Forall_none {X : Type} (P : X → Prop) `{∀ x, Decision (P x)} (l : list X) :
  Forall (λ x, ¬ P x) l → filter P l = [].
Proof.
  induction 1 as [|x l Hx _ IH]; [reflexivity|].
  now rewrite filter_cons_False by exact Hx.
Qed.

Lemma tablesMeant_Rows (p : benchmark.testDatasource)
    (req : list benchmark.DataQuery) (refID : string) :
  Forall (λ t, Rows t = Z.to_nat (benchmark.rowsPerFrame p))
         (tablesMeant p req refID).
Proof.
  unfold benchmark.tablesMeant. induction req as [|q req IH]; [constructor|].
  cbn [mbind list_bind]. apply Forall_app. split; [|exact IH].
  destruct (decide _); [|constructor].
  apply Forall_fmap, Forall_true. intros i. simpl. apply Rows_table.
Qed.

(** The datasource on a new writer, and the client on what was sent. *)
Lemma datasource_received (p : benchmark.testDatasource)
    (req : list benchmark.DataQuery) (strm : ServerStream bytes) (hc : Heap) :
  credit strm = None → sent strm = [] →
  ∃ h w resp hc',
    QueryChunkedData p req initHeap (newChunkedDataWriter strm) = Ret (None, h, w) ∧
    datasourcetest.QueryChunkedData UnmarshalArrowFrame
      (datasourcetest.mkClientStream None (sent (stream w)) EOF) hc
    = Ret (Some resp, None, hc') ∧
    ∀ refID, tablesOf hc' resp refID
             = Some <$> (if decide (0 < benchmark.rowsPerFrame p)
                         then tablesMeant p req refID else []).
Proof.
  intros Hcred Hsent.
  destruct (calls_received MarshalArrow UnmarshalArrowFrame rangeSend rangeReset
              rangeSend_perm rangeReset_perm codec (requestCalls p req) strm hc
              Hcred Hsent (seqOK_requestCalls p req None))
    as (h1 & w1 & h & w & resp & hc' & Hcalls & Hclose & Hquery & Htables).
  exists h, w, resp, hc'. split; [|split; [exact Hquery|]].
  - unfold benchmark.QueryChunkedData.
    rewrite (request_as_calls p req _ _ _ _ Hcalls). simpl. exact Hclose.
  - intros refID. rewrite Htables, logical_requestCalls. f_equal.
    pose proof (tablesMeant_Rows p req refID) as Hrows.
    destruct (decide (0 < benchmark.rowsPerFrame p)) as [Hpos|Hneg].
    + apply filter_Forall_all. eapply Forall_impl; [exact Hrows|].
      intros t Ht. simpl in Ht. lia.
    + apply filter_Forall_none. eapply Forall_impl; [exact Hrows|].
      intros t Ht. simpl in Ht. lia.
Qed.

(** X13. The benchmark datasource behind the adapter, on a stream that
    takes every message, with an encoding that can be decoded: it returns
    no error and does not panic, whatever the request, and the client that
    receives what it sent returns, for every refID, the tables that the
    request asks for under the refID, in the order of the queries:
    [MaxDataPoints] tables per query, each with the [rowsPerFrame] rows
    that [newFrame] gives a table of that size.  With [rowsPerFrame] at
    zero or below the client returns no table at all. *)
Theorem benchmark_stream_round_trip (p : benchmark.testDatasource)
    (req : list benchmark.DataQuery) (strm : ServerStream bytes) (hc : Heap) :
  credit strm = None → sent strm = [] →
  ∃ h w resp hc',
    dataSDKAdapter.QueryChunkedData enrichWithErrorSourceInfo
      (QueryChunkedData p req) strm
    = Ret (None, h, w) ∧
    datasourcetest.QueryChunkedData UnmarshalArrowFrame
      (datasourcetest.mkClientStream None (sent (stream w)) EOF) hc
    = Ret (Some resp, None, hc') ∧
    ∀ refID, tablesOf hc' resp refID
             = Some <$> (if decide (0 < benchmark.rowsPerFrame p)
                         then tablesMeant p req refID else []).
Proof.
  intros Hcred Hsent.
  destruct (datasource_received p req strm hc Hcred Hsent)
    as (h & w & resp & hc' & Hrun & Hquery & Htables).
  exists h, w, resp, hc'. split; [|auto].
  unfold dataSDKAdapter.QueryChunkedData. now rewrite Hrun.
Qed.

(** **** The unary [QueryData] of the datasource *)








End BenchmarkRoundTrip.

Section ConcreteBenchmark.
Import Examples BenchmarkExample.


Lemma benchmark_stream_round_trip_witness :
  ∃ h w resp hc',
    dataSDKAdapter.QueryChunkedData id
      (benchmark.QueryChunkedData VInt VInt VInt MarshalArrow range rangeRev
         datasource1 queries)
      (backend.mkStream [] None)
    = Ret (None, h, w) ∧
    datasourcetest.QueryChunkedData UnmarshalArrowFrame
      (datasourcetest.mkClientStream None (backend.sent (backend.stream w)) EOF) []
    = Ret (Some resp, None, hc') ∧
    ∀ refID, reassembly.tablesOf hc' resp refID
             = Some <$> (if decide (0 < benchmark.rowsPerFrame datasource1)
                         then benchmark.tablesMeant VInt VInt VInt datasource1
                                queries refID
                         else []).
Proof.
  apply (benchmark_stream_round_trip MarshalArrow UnmarshalArrowFrame range rangeRev
           range_perm rangeRev_perm Examples_codec VInt VInt VInt id
           datasource1 queries (backend.mkStream [] None) [] eq_refl eq_refl).
Defined.

End ConcreteBenchmark.
